(** * GreenSync traffic core: corridor simulation, live-weighted routing, SPaT replay

    A shallow embedding of [core/corridor.py], [core/graph.py],
    [core/optimizer.py] and [simulation/spat_engine.py], followed by the
    properties of the specification that are checked against it.

    Numbers.  Python floats are read as exact rationals ([Q]): a literal
    such as [0.6] is the rational 6/10 and the arithmetic does not round.
    Integers are [Z].  [math.sin] and [math.pi] are parameters of the
    corridor model.

    Dictionaries are stdpp [gmap]s, lists are lists, exceptions are the
    [Raise] branch of [res]. *)

From Stdlib Require Import QArith Qround Lqa Ascii.
From stdpp Require Import gmap strings list pretty.

Open Scope Q_scope.

(** ** Exceptions *)

Inductive exn : Type :=
  | IndexError
  | KeyError
  | TypeError
  | AttributeError
  | ValueError
  | ZeroDivisionError
  | FileNotFoundError
  | NetworkXNoPath
  | NodeNotFound.

Inductive res (A : Type) : Type :=
  | Ok (a : A)
  | Raise (e : exn).
Arguments Ok {A} a.
Arguments Raise {A} e.

#[global] Instance res_ret : MRet res := @Ok.

#[global] Instance res_bind : MBind res := fun A B k r =>
  match r with
  | Ok a => k a
  | Raise e => Raise e
  end.

#[global] Instance res_fmap : FMap res := fun A B f r =>
  match r with
  | Ok a => Ok (f a)
  | Raise e => Raise e
  end.

(** ** Python builtins on numbers *)

Module Py.

(** [x < y] *)
Definition ltb (x y : Q) : bool := negb (Qle_bool y x).

(** [max(a, b)]: [b] when [b > a], else [a]. *)
Definition max (a b : Q) : Q := if ltb a b then b else a.

(** [int(x)]: truncation toward zero. *)
Definition int (x : Q) : Z := Z.quot (Qnum x) (Zpos (Qden x)).

(** [x % m] on floats: the result has the sign of [m]. *)
Definition fmod (x m : Q) : Q := x - m * inject_Z (Qfloor (x / m)).

(** [round(x)]: nearest integer, ties to the even one. *)
Definition round (x : Q) : Z :=
  let f := Qfloor x in
  let r := x - inject_Z f in
  if ltb r (1 # 2) then f
  else if ltb (1 # 2) r then (f + 1)%Z
  else if Z.even f then f else (f + 1)%Z.

(** [round(x, n)] *)
Definition round_to (x : Q) (n : nat) : Q :=
  let p := inject_Z (10 ^ Z.of_nat n) in
  inject_Z (round (x * p)) / p.

(** [x / y] on floats, where the divisor may be zero. *)
Definition div (x y : Q) : res Q :=
  if Qeq_bool y 0 then Raise ZeroDivisionError else Ok (x / y).

End Py.

(** ** core/corridor.py *)

Module Corridor.

Record Intersection := {
  id : string;
  name : string;
  lat : Q;
  lon : Q
}.

Definition CORRIDOR : list Intersection := [
  {| id := "INT_0"; name := "Main St & 1st Ave"; lat := 23.033; lon := 72.541 |};
  {| id := "INT_1"; name := "Main St & 2nd Ave"; lat := 23.033; lon := 72.545 |};
  {| id := "INT_2"; name := "Main St & 3rd Ave"; lat := 23.033; lon := 72.549 |};
  {| id := "INT_3"; name := "Main St & 4th Ave"; lat := 23.033; lon := 72.553 |};
  {| id := "INT_4"; name := "Main St & 5th Ave"; lat := 23.033; lon := 72.557 |};
  {| id := "INT_5"; name := "Main St & 6th Ave"; lat := 23.033; lon := 72.561 |};
  {| id := "INT_6"; name := "Main St & 7th Ave"; lat := 23.033; lon := 72.565 |};
  {| id := "INT_7"; name := "Main St & 8th Ave"; lat := 23.033; lon := 72.569 |}
].

Definition CORRIDOR_IDS : list string := map id CORRIDOR.

(** *** Signal plans *)

(** Fixed 90-second cycle: 40G / 5Y / 45R with per-node offset. *)
Definition baseline_signal (t : Q) (node_idx : Z) : string :=
  let cycle := 90%Z in
  let offset := ((node_idx * 13) mod cycle)%Z in
  let local := Py.fmod (t + inject_Z offset) (inject_Z cycle) in
  if Py.ltb local 40 then "GREEN"
  else if Py.ltb local 45 then "YELLOW"
  else "RED".

(** [min(55, 25 + int(queue * 0.6))] *)
Definition green_time (queue : Q) : Z :=
  Z.min 55 (25 + Py.int (queue * 0.6)).

Definition optimized_signal (t : Q) (node_idx : Z) (queue : Q) : string :=
  let cycle := 75%Z in
  let green_time := green_time queue in
  let offset := ((node_idx * 9) mod cycle)%Z in
  let local := Py.fmod (t + inject_Z offset) (inject_Z cycle) in
  if Py.ltb local (inject_Z green_time) then "GREEN"
  else if Py.ltb local (inject_Z (green_time + 4)) then "YELLOW"
  else "RED".

(** *** Simulation state *)

Record NodeState := {
  queue : Q;
  delay : Q   (* cumulative vehicle-seconds of delay *)
}.

Definition DT : Q := 5.

Definition per_vehicle_fuel (idling_seconds : Q) : Q :=
  idling_seconds * (0.6 / 60).

Record Sample := {
  time_s : Z;
  queue_length : Q;
  avg_delay_s : Q;
  fuel_L : Q;
  co2_kg : Q
}.

Record Summary := {
  queue_reduction_pct : Q;
  delay_reduction_pct : Q;
  fuel_saved_L : Q;
  co2_saved_kg : Q;
  baseline_final_queue : Q;
  optimized_final_queue : Q
}.

Record Comparison := {
  corridor : list Intersection;
  duration_s : Q;
  baseline : list Sample;
  optimized : list Sample;
  summary : Summary
}.

(** The per-tick accumulators [b_total_q], [b_total_d], [o_total_q],
    [o_total_d]. *)
Record Totals := {
  b_total_q : Q;
  b_total_d : Q;
  o_total_q : Q;
  o_total_d : Q
}.

(** The variables that live across iterations of the [while] loop. *)
Record Sim := {
  t : Q;
  baseline_states : list NodeState;
  optimized_states : list NodeState;
  baseline_series : list Sample;
  optimized_series : list Sample
}.

(** One intersection under the fixed-cycle plan during one timestep. *)
Definition baseline_update (t arrivals : Q) (i : Z) (bs : NodeState) : NodeState :=
  let bph := baseline_signal t i in
  if String.eqb bph "GREEN" then
    {| queue := Py.max 0 (queue bs + arrivals - 0.5 * DT); delay := delay bs |}
  else if String.eqb bph "RED" then
    let q := queue bs + arrivals in
    {| queue := q; delay := delay bs + q * DT |}
  else
    {| queue := queue bs + arrivals * 0.2; delay := delay bs |}.

(** One intersection under the adaptive plan during one timestep. *)
Definition optimized_update (t arrivals : Q) (i : Z) (os : NodeState) : NodeState :=
  let oph := optimized_signal t i (queue os) in
  if String.eqb oph "GREEN" then
    {| queue := Py.max 0 (queue os + arrivals - 0.65 * DT); delay := delay os |}
  else if String.eqb oph "RED" then
    let q := queue os + arrivals in
    {| queue := q; delay := delay os + q * DT * 0.55 |}
  else
    {| queue := queue os + arrivals * 0.15; delay := delay os |}.

(** [for i in range(n)]: both state lists are walked in step, [i] being
    the index of their heads. *)
Fixpoint sweep (t arrivals : Q) (i : Z) (bss oss : list NodeState) (tot : Totals)
  : list NodeState * list NodeState * Totals :=
  match bss, oss with
  | bs :: bss', os :: oss' =>
      let bs' := baseline_update t arrivals i bs in
      let os' := optimized_update t arrivals i os in
      let tot' := {| b_total_q := b_total_q tot + queue bs';
                     b_total_d := b_total_d tot + delay bs';
                     o_total_q := o_total_q tot + queue os';
                     o_total_d := o_total_d tot + delay os' |} in
      let '(bss'', oss'', tot'') := sweep t arrivals (i + 1) bss' oss' tot' in
      (bs' :: bss'', os' :: oss'', tot'')
  | _, _ => ([], [], tot)
  end.

Definition sample (t : Q) (n : Z) (arrivals total_q total_d : Q) : Sample :=
  let fuel := per_vehicle_fuel total_d in
  {| time_s := Py.round t;
     queue_length := Py.round_to total_q 1;
     avg_delay_s := Py.round_to (total_d / (inject_Z n * Py.max 1 arrivals)) 1;
     fuel_L := Py.round_to fuel 3;
     co2_kg := Py.round_to (fuel * 2.31) 3 |}.

Section WithMath.

(** [math.sin] and [math.pi]. *)
Variable sin : Q → Q.
Variable pi : Q.

(** Vehicles arriving per second at each intersection. *)
Definition arrival_rate (t : Q) : Q :=
  if Qle_bool 120 t && Py.ltb t 180 then
    0.8 + 0.4 * sin ((t - 120) * pi / 60)
  else if Py.ltb t 120 then
    0.4 + 0.2 * sin (t * pi / 120)
  else 0.2.

(** The body of [while t <= duration_s]. *)
Definition tick (n : Z) (st : Sim) : Sim :=
  let arrivals := arrival_rate (t st) * DT in
  let '(bss, oss, tot) :=
    sweep (t st) arrivals 0 (baseline_states st) (optimized_states st)
          {| b_total_q := 0; b_total_d := 0; o_total_q := 0; o_total_d := 0 |} in
  {| t := t st + DT;
     baseline_states := bss;
     optimized_states := oss;
     baseline_series :=
       baseline_series st ++ [sample (t st) n arrivals (b_total_q tot) (b_total_d tot)];
     optimized_series :=
       optimized_series st ++ [sample (t st) n arrivals (o_total_q tot) (o_total_d tot)] |}.

(** [while t <= duration_s: ...]; [None] when the fuel runs out first. *)
Fixpoint run_loop (fuel : nat) (n : Z) (duration_s : Q) (st : Sim) : option Sim :=
  if Qle_bool (t st) duration_s then
    match fuel with
    | O => None
    | S fuel' => run_loop fuel' n duration_s (tick n st)
    end
  else Some st.

Definition init (n : nat) : Sim :=
  {| t := 0;
     baseline_states := replicate n {| queue := 0; delay := 0 |};
     optimized_states := replicate n {| queue := 0; delay := 0 |};
     baseline_series := [];
     optimized_series := [] |}.

(** The final summary; [series[-1]] raises [IndexError] on an empty
    series. *)
Definition summarize (duration_s : Q) (st : Sim) : res Comparison :=
  match last (baseline_series st), last (optimized_series st) with
  | Some b_final, Some o_final =>
      let queue_reduction :=
        Py.round_to ((queue_length b_final - queue_length o_final) /
                     Py.max 1 (queue_length b_final) * 100) 1 in
      let delay_reduction :=
        Py.round_to ((avg_delay_s b_final - avg_delay_s o_final) /
                     Py.max 1 (avg_delay_s b_final) * 100) 1 in
      let fuel_saved := Py.round_to (fuel_L b_final - fuel_L o_final) 3 in
      let co2_saved := Py.round_to (fuel_saved * 2.31) 3 in
      Ok {| corridor := CORRIDOR;
            duration_s := duration_s;
            baseline := baseline_series st;
            optimized := optimized_series st;
            summary := {| queue_reduction_pct := queue_reduction;
                          delay_reduction_pct := delay_reduction;
                          fuel_saved_L := fuel_saved;
                          co2_saved_kg := co2_saved;
                          baseline_final_queue := queue_length b_final;
                          optimized_final_queue := queue_length o_final |} |}
  | _, _ => Raise IndexError
  end.

Definition run_comparison (fuel : nat) (duration_s : Q) : option (res Comparison) :=
  let n := length CORRIDOR in
  summarize duration_s <$> run_loop fuel (Z.of_nat n) duration_s (init n).

End WithMath.

End Corridor.

(** ** Python builtins on strings *)

Module PyStr.

(** [s.split(sep)] for a one-character separator. *)
Fixpoint split (sep : ascii) (s : string) : list string :=
  match s with
  | EmptyString => [EmptyString]
  | String c s' =>
      if Ascii.eqb c sep then EmptyString :: split sep s'
      else match split sep s' with
           | p :: ps => String c p :: ps
           | [] => [String c EmptyString]
           end
  end.

Definition digit (c : ascii) : option Z :=
  let n := Z.of_N (N_of_ascii c) in
  if (48 <=? n)%Z && (n <=? 57)%Z then Some (n - 48)%Z else None.

Fixpoint digits (s : string) (acc : Z) : option Z :=
  match s with
  | EmptyString => Some acc
  | String c s' => d ← digit c; digits s' (acc * 10 + d)%Z
  end.

(** [int(s)] on a string of decimal digits; [ValueError] otherwise. *)
Definition int (s : string) : res Z :=
  match s with
  | EmptyString => Raise ValueError
  | _ => match digits s 0 with
         | Some z => Ok z
         | None => Raise ValueError
         end
  end.

End PyStr.

(** [for x in l: a = f(a, x)], stopping at the first exception. *)
Fixpoint for_each {A B : Type} (l : list B) (f : A → B → res A) (a : A) : res A :=
  match l with
  | [] => Ok a
  | x :: l' => a' ← f a x; for_each l' f a'
  end.

(** ** The part of networkx the routing code relies on

    An undirected [nx.Graph]: the nodes in insertion order with their
    attributes, and one entry per undirected edge, in insertion order,
    carrying the attribute dictionary that [G[u][v]] and [G[v][u]]
    share. *)

Module Nx.

Record NodeData := {
  pos : option (Q * Q);
  name : option string
}.

Definition no_data : NodeData := {| pos := None; name := None |}.

Section Graphs.

Context {N : Type} `{Countable N}.

Record Graph := {
  nodes : list (N * NodeData);
  links : list (N * N * gmap string Q)
}.

Definition node_ids (G : Graph) : list N := (nodes G).*1.

(** [n in G] *)
Definition has_node (G : Graph) (n : N) : bool := bool_decide (n ∈ node_ids G).

(** Whether a stored edge is the edge between [u] and [v]. *)
Definition joins (u v : N) (l : N * N * gmap string Q) : bool :=
  bool_decide (l.1.1 = u ∧ l.1.2 = v) || bool_decide (l.1.1 = v ∧ l.1.2 = u).

(** [G[u][v]]: the attribute dictionary of the edge, the same one for
    both orders of its endpoints. *)
Definition edge_data (G : Graph) (u v : N) : option (gmap string Q) :=
  match filter (fun l => joins u v l = true) (links G) with
  | l :: _ => Some l.2
  | [] => None
  end.

(** [G[u][v][k] = x] *)
Definition set_edge_attr (G : Graph) (u v : N) (k : string) (x : Q) : Graph :=
  {| nodes := nodes G;
     links := (fun l => if joins u v l then (l.1, <[k:=x]> l.2) else l) <$> links G |}.

(** [G.nodes[n][...] = ...] *)
Definition set_node_data (G : Graph) (n : N) (d : NodeData) : Graph :=
  {| nodes := (fun nd => if decide (nd.1 = n) then (n, d) else nd) <$> nodes G;
     links := links G |}.

(** [G[n].items()]: the neighbours of [n] with the edge attributes. *)
Definition adj (G : Graph) (n : N) : list (N * gmap string Q) :=
  omap (fun l : N * N * gmap string Q =>
          if decide (l.1.1 = n) then Some (l.1.2, l.2)
          else if decide (l.1.2 = n) then Some (l.1.1, l.2)
          else None) (links G).

(** [G.edges(data=True)]: every node in turn reports the edges to its
    neighbours that have not reported yet, itself first. *)
Fixpoint edges_from (G : Graph) (ns seen : list N) : list (N * N * gmap string Q) :=
  match ns with
  | [] => []
  | n :: ns' =>
      ((fun e : N * gmap string Q => (n, e.1, e.2)) <$>
         filter (fun e : N * gmap string Q => e.1 ∉ seen) (adj G n))
      ++ edges_from G ns' (n :: seen)
  end.

Definition edges_data (G : Graph) : list (N * N * gmap string Q) :=
  edges_from G (node_ids G) [].

(** [G.edges()] *)
Definition edges (G : Graph) : list (N * N) := (edges_data G).*1.

(** *** Dijkstra's algorithm

    networkx runs the search from both ends at once; the search below
    runs from the source only.  Both return a route of least total
    weight and can differ only in which one they return when several
    routes weigh the same.  A tentative entry holds the cost of the best
    route found so far and that route, its last node first. *)

Definition relax (w : N → N → gmap string Q → Q) (u : N) (c : Q) (p : list N)
    (settled : gset N) (frontier : gmap N (Q * list N)) (e : N * gmap string Q)
  : gmap N (Q * list N) :=
  if decide (e.1 ∈ settled) then frontier
  else
    let c' := c + w u e.1 e.2 in
    match frontier !! e.1 with
    | Some old => if Qle_bool old.1 c' then frontier else <[e.1 := (c', e.1 :: p)]> frontier
    | None => <[e.1 := (c', e.1 :: p)]> frontier
    end.

Definition cheaper (x : N * (Q * list N)) (best : option (N * (Q * list N)))
  : option (N * (Q * list N)) :=
  match best with
  | None => Some x
  | Some y => if Qle_bool x.2.1 y.2.1 then Some x else Some y
  end.

Definition pick_min (frontier : gmap N (Q * list N)) : option (N * (Q * list N)) :=
  foldr cheaper None (map_to_list frontier).

Fixpoint dijkstra (fuel : nat) (G : Graph) (w : N → N → gmap string Q → Q) (target : N)
    (settled : gset N) (frontier : gmap N (Q * list N)) : option (list N) :=
  match fuel with
  | O => None
  | S fuel' =>
      match pick_min frontier with
      | None => None
      | Some (u, (c, p)) =>
          if decide (u = target) then Some (reverse p)
          else
            let settled' := {[u]} ∪ settled in
            dijkstra fuel' G w target settled'
              (foldl (relax w u c p settled') (delete u frontier) (adj G u))
      end
  end.

(** [nx.shortest_path(G, source, target, weight)]: raises
    [NodeNotFound] when an endpoint is not in [G], [NetworkXNoPath]
    when the target cannot be reached, and returns a route of least
    total weight otherwise. *)
Definition shortest_path (G : Graph) (source target : N)
    (w : N → N → gmap string Q → Q) : res (list N) :=
  if negb (has_node G source) || negb (has_node G target) then Raise NodeNotFound
  else if decide (source = target) then Ok [source]
  else
    match dijkstra (S (length (nodes G))) G w target ∅ {[source := (0, [source])]} with
    | Some path => Ok path
    | None => Raise NetworkXNoPath
    end.

(** The weight function networkx builds from an attribute name:
    [data.get(weight, 1)]. *)
Definition weight_attr (k : string) (u v : N) (data : gmap string Q) : Q :=
  default 1 (data !! k).

End Graphs.

Arguments Graph N : clear implicits.

(** [nx.grid_2d_graph(rows, cols)] *)
Definition grid_2d_graph (rows cols : nat) : Graph (Z * Z) :=
  let rs := Z.of_nat <$> seq 0 rows in
  let cs := Z.of_nat <$> seq 0 cols in
  {| nodes := i ← rs; j ← cs; [((i, j), no_data)];
     links :=
       (i ← tail rs; j ← cs; [((i, j), ((i - 1)%Z, j), ∅)]) ++
       (i ← rs; j ← tail cs; [((i, j), (i, (j - 1)%Z), ∅)]) |}.

(** [nx.relabel_nodes(G, mapping)], returning a new graph. *)
Definition relabel_nodes {N M : Type} `{Countable N} `{Countable M}
    (G : Graph N) (mapping : N → M) : Graph M :=
  {| nodes := (fun nd => (mapping nd.1, nd.2)) <$> nodes G;
     links := (fun e : N * N * gmap string Q => (mapping e.1.1, mapping e.1.2, e.2))
                <$> edges_data G |}.

End Nx.

(** ** core/graph.py and core/optimizer.py *)

Module Routing.

Import Nx.

(** [r, c = map(int, node_id.split('-'))] *)
Definition parse_id (node_id : string) : res (Z * Z) :=
  match PyStr.split "-" node_id with
  | [a; b] => r ← PyStr.int a; c ← PyStr.int b; Ok (r, c)
  | _ => Raise ValueError
  end.

(** Generates a grid graph representing a city with traffic
    intersections.  Nodes are (row, col) tuples converted to string IDs
    "R-C".  Edges have 'distance', 'speed_limit' and 'base_time'. *)
Definition generate_city_grid (rows cols : nat) : res (Graph string) :=
  let G := grid_2d_graph rows cols in
  let mapping := fun node : Z * Z => pretty node.1 +:+ "-" +:+ pretty node.2 in
  let G := relabel_nodes G mapping in
  let base_lat := 23.0300 in
  let base_lon := 72.5400 in
  let lat_step := 0.0045 in
  let lon_step := 0.0045 in
  G ← for_each (node_ids G) (fun G node_id =>
         rc ← parse_id node_id;
         let lat := base_lat + inject_Z rc.1 * lat_step in
         let lon := base_lon + inject_Z rc.2 * lon_step in
         Ok (set_node_data G node_id
               {| pos := Some (lat, lon);
                  name := Some ("Intersection " +:+ node_id) |})) G;
  for_each (edges G) (fun G e =>
    let dist := 500 in
    let G := set_edge_attr G e.1 e.2 "distance" dist in
    let G := set_edge_attr G e.1 e.2 "speed_limit" 50 in
    Ok (set_edge_attr G e.1 e.2 "base_time" (dist / (50 / 3.6)))) G.

Definition empty_graph : Graph string := {| nodes := []; links := [] |}.

(** [CITY_GRAPH = generate_city_grid(rows=7, cols=8)] *)
Definition CITY_GRAPH : Graph string :=
  match generate_city_grid 7 8 with
  | Ok G => G
  | Raise _ => empty_graph
  end.

(** [G[u][v][k]] *)
Definition edge_attr (G : Graph string) (u v : string) (k : string) : res Q :=
  match edge_data G u v with
  | Some data => match data !! k with
                 | Some x => Ok x
                 | None => Raise KeyError
                 end
  | None => Raise KeyError
  end.

(** [if traffic_data:] holds for a dictionary that is not empty. *)
Definition truthy (traffic_data : option (gmap string Q)) : bool :=
  match traffic_data with
  | Some d => negb (bool_decide (d = ∅))
  | None => false
  end.

(** The two loops of [get_best_route] that write 'current_weight' on
    every edge of the working copy. *)
Definition update_weights (G : Graph string) (traffic_data : option (gmap string Q))
  : res (Graph string) :=
  if truthy traffic_data then
    for_each (edges G) (fun G e =>
      let '(u, v) := e in
      (* queue length for the target node 'v' *)
      let queue_len := default 0 (default ∅ traffic_data !! v) in
      weight ← edge_attr G u v "base_time";
      let penalty := queue_len * 2.0 in
      Ok (set_edge_attr G u v "current_weight" (weight + penalty))) G
  else
    for_each (edges G) (fun G e =>
      let '(u, v) := e in
      weight ← edge_attr G u v "base_time";
      Ok (set_edge_attr G u v "current_weight" weight)) G.

(** [try: ... except nx.NetworkXNoPath: return []] *)
Definition except_no_path (r : res (list string)) : res (list string) :=
  match r with
  | Raise NetworkXNoPath => Ok []
  | _ => r
  end.

(** The body of [get_best_route], for the graph it copies. *)
Definition best_route_in (city : Graph string) (start_node end_node : string)
    (traffic_data : option (gmap string Q)) : res (list string) :=
  G ← update_weights city traffic_data;
  except_no_path (shortest_path G start_node end_node (weight_attr "current_weight")).

Definition get_best_route (start_node end_node : string)
    (traffic_data : option (gmap string Q)) : res (list string) :=
  best_route_in CITY_GRAPH start_node end_node traffic_data.

(** The weight the search reads when it moves from [u] into [v]: the
    'current_weight' of the edge's dictionary. *)
Definition traversal_weight (G : Graph string) (u v : string) : option Q :=
  weight_attr "current_weight" u v <$> edge_data G u v.

(** The weight [get_best_route] charges, under the given live queues, for
    moving from [u] into [v] on the graph it copies. *)
Definition live_weight (city : Graph string) (traffic_data : option (gmap string Q))
    (u v : string) : res (option Q) :=
  G ← update_weights city traffic_data;
  Ok (traversal_weight G u v).

(** *** TrafficOptimizer *)

Record Realtime := {
  signals : option (gmap string string);
  queues : option (gmap string Q)
}.

Definition calculate_cost (u v : string) (data : gmap string Q)
    (realtime_data : option Realtime) : res Q :=
  match data !! "base_time" with
  | None => Raise KeyError
  | Some cost =>
      match realtime_data with
      | Some rd =>
          let node_data := default ∅ (signals rd) !! v in
          let queue_len := default 0 (default ∅ (queues rd) !! v) in
          (* penalty for RED light *)
          let cost := if bool_decide (node_data = Some "RED") then cost + 30 else cost in
          (* penalty for queue *)
          Ok (cost + queue_len * 2)
      | None => Ok cost
      end
  end.

Section Optimizer.

(** The search of [nx.astar_path] under the optimizer's straight-line
    heuristic, for endpoints that are nodes of the graph. *)
Variable astar_search :
  Graph string → string → string → (string → string → gmap string Q → res Q) →
  res (list string).

(** [nx.astar_path]: [NodeNotFound] unless both endpoints are in [G]. *)
Definition astar_path (G : Graph string) (source target : string)
    (weight : string → string → gmap string Q → res Q) : res (list string) :=
  if negb (has_node G source) || negb (has_node G target) then Raise NodeNotFound
  else astar_search G source target weight.

Definition find_optimal_path (graph : Graph string) (start_node end_node : string)
    (realtime_data : option Realtime) : res (list string) :=
  let weight_func := fun u v data => calculate_cost u v data realtime_data in
  except_no_path (astar_path graph start_node end_node weight_func).

End Optimizer.

End Routing.

(** ** simulation/spat_engine.py *)

Module SpatEvent.

(** A single signal transition event. *)
Record t := mk {
  time_s : Q;
  intersection_id : string;
  phase : string;
  duration_s : Q
}.

End SpatEvent.

Module Snapshot.

Record t := mk {
  time_s : Q;
  duration_s : Q;
  progress : Q;
  states : gmap string string
}.

End Snapshot.

Module SpatEngine.

Record t := mk {
  events : list SpatEvent.t;          (* sorted by time_s once loaded *)
  duration_s : Q;
  current_state : gmap string string; (* intersection_id → phase *)
  current_time : Q;
  loaded : bool
}.

(** [SpatEngine(csv_path)] *)
Definition new : t :=
  {| events := []; duration_s := 0; current_state := ∅; current_time := 0;
     loaded := false |}.

Definition set_events (es : list SpatEvent.t) (eng : t) : t :=
  {| events := es; duration_s := duration_s eng; current_state := current_state eng;
     current_time := current_time eng; loaded := loaded eng |}.

Definition set_current (time : Q) (state : gmap string string) (eng : t) : t :=
  {| events := events eng; duration_s := duration_s eng; current_state := state;
     current_time := time; loaded := loaded eng |}.

End SpatEngine.

Module Spat.

(** A row of [csv.DictReader]: a dictionary from the header's names to
    the fields of the line, [None] for a field the line is too short to
    have. *)
Abbreviation Row := (gmap string (option string)).

Definition whitespace (c : ascii) : bool :=
  let n := N_of_ascii c in
  (n =? 32)%N || ((9 <=? n)%N && (n <=? 13)%N).

Fixpoint lstrip (s : string) : string :=
  match s with
  | String c s' => if whitespace c then lstrip s' else s
  | EmptyString => EmptyString
  end.

Fixpoint rstrip (s : string) : string :=
  match s with
  | String c s' =>
      match rstrip s' with
      | EmptyString => if whitespace c then EmptyString else String c EmptyString
      | r => String c r
      end
  | EmptyString => EmptyString
  end.

(** [s.strip()] *)
Definition strip (s : string) : string := rstrip (lstrip s).

Definition upper_char (c : ascii) : ascii :=
  let n := N_of_ascii c in
  if (97 <=? n)%N && (n <=? 122)%N then ascii_of_N (n - 32) else c.

(** [s.upper()] *)
Fixpoint upper (s : string) : string :=
  match s with
  | String c s' => String (upper_char c) (upper s')
  | EmptyString => EmptyString
  end.

(** [row[k]] *)
Definition field (row : Row) (k : string) : res (option string) :=
  match row !! k with
  | Some v => Ok v
  | None => Raise KeyError
  end.

(** [v.strip()] *)
Definition stripped (v : option string) : res string :=
  match v with
  | Some s => Ok (strip s)
  | None => Raise AttributeError
  end.

(** The events of one intersection that [get_state_at] scans: the first
    one whose interval contains [t] decides, "RED" if there is none. *)
Fixpoint active_phase (evts : list SpatEvent.t) (t : Q) : string :=
  match evts with
  | [] => "RED"
  | evt :: rest =>
      if Qle_bool (SpatEvent.time_s evt) t &&
         Py.ltb t (SpatEvent.time_s evt + SpatEvent.duration_s evt)
      then SpatEvent.phase evt
      else active_phase rest t
  end.

(** [by_node[evt.intersection_id].append(evt)] on a [defaultdict(list)] *)
Definition group_by_node (events : list SpatEvent.t) : gmap string (list SpatEvent.t) :=
  foldl (fun by_node evt =>
           <[SpatEvent.intersection_id evt :=
               default [] (by_node !! SpatEvent.intersection_id evt) ++ [evt]]> by_node)
        ∅ events.

(** Returns the signal state of every intersection at time [t]. *)
Definition get_state_at (eng : SpatEngine.t) (t : Q) : gmap string string :=
  let by_node := group_by_node (SpatEngine.events eng) in
  (fun evts => active_phase evts t) <$> by_node.

(** Returns the current playback state (used by polls). *)
Definition get_snapshot (eng : SpatEngine.t) : Snapshot.t :=
  {| Snapshot.time_s := SpatEngine.current_time eng;
     Snapshot.duration_s := SpatEngine.duration_s eng;
     Snapshot.progress :=
       if negb (Qeq_bool (SpatEngine.duration_s eng) 0)
       then Py.round_to (SpatEngine.current_time eng / SpatEngine.duration_s eng * 100) 1
       else 0;
     Snapshot.states := SpatEngine.current_state eng |}.

(** [events.sort(key=lambda e: e.time_s)]: a stable sort. *)
Fixpoint insert_by_time (e : SpatEvent.t) (l : list SpatEvent.t) : list SpatEvent.t :=
  match l with
  | [] => [e]
  | x :: l' =>
      if Qle_bool (SpatEvent.time_s e) (SpatEvent.time_s x) then e :: l
      else x :: insert_by_time e l'
  end.

Definition sort_by_time (l : list SpatEvent.t) : list SpatEvent.t :=
  foldr insert_by_time [] l.

(** How a run of the [replay] generator, pulled to its end, stops. *)
Inductive Stop : Type :=
  | Exhausted              (* the loop condition failed: StopIteration *)
  | Raised (e : exn)
  | OutOfFuel.

Section WithFloat.

(** [float(s)] on a string; [None] stands for [ValueError]. *)
Variable float : string → option Q.

Definition to_float (v : option string) : res Q :=
  match v with
  | Some s => match float s with
              | Some x => Ok x
              | None => Raise ValueError
              end
  | None => Raise TypeError
  end.

(** The [SpatEvent(...)] built from one row, its arguments evaluated
    from left to right. *)
Definition parse_row (row : Row) : res SpatEvent.t :=
  time_s ← field row "time_s" ≫= to_float;
  intersection_id ← field row "intersection_id" ≫= stripped;
  phase ← field row "phase" ≫= stripped;
  duration_s ← field row "duration_s" ≫= to_float;
  Ok (SpatEvent.mk time_s intersection_id (upper phase) duration_s).

(** [for row in reader: ... self.events.append(evt)] *)
Fixpoint read_rows (rows : list Row) (eng : SpatEngine.t) : SpatEngine.t * res () :=
  match rows with
  | [] => (eng, Ok ())
  | row :: rows' =>
      match parse_row row with
      | Ok evt => read_rows rows' (SpatEngine.set_events (SpatEngine.events eng ++ [evt]) eng)
      | Raise e => (eng, Raise e)
      end
  end.

(** Parse the CSV file into SpatEvent objects.  [file] is what is
    found at [csv_path]: the rows of the table, or nothing.  The
    engine is returned as the call leaves it, also when it raises. *)
Definition load (file : option (list Row)) (eng : SpatEngine.t) : SpatEngine.t * res () :=
  let eng := SpatEngine.set_events [] eng in
  match file with
  | None => (eng, Raise FileNotFoundError)
  | Some rows =>
      match read_rows rows eng with
      | (eng, Raise e) => (eng, Raise e)
      | (eng, Ok _) =>
          let events := sort_by_time (SpatEngine.events eng) in
          let duration :=
            match last events with
            | Some l => SpatEvent.time_s l + SpatEvent.duration_s l
            | None => SpatEngine.duration_s eng
            end in
          ({| SpatEngine.events := events;
              SpatEngine.duration_s := duration;
              SpatEngine.current_state := SpatEngine.current_state eng;
              SpatEngine.current_time := SpatEngine.current_time eng;
              SpatEngine.loaded := true |}, Ok ())
      end
  end.

(** [while t <= self.duration_s: ...] of [replay]: the snapshots
    yielded, the engine afterwards and how the run stopped. *)
Fixpoint replay_loop (fuel : nat) (step_s sleep_time : Q) (t : Q) (eng : SpatEngine.t)
  : list Snapshot.t * SpatEngine.t * Stop :=
  if Qle_bool t (SpatEngine.duration_s eng) then
    match fuel with
    | O => ([], eng, OutOfFuel)
    | S fuel' =>
        let state := get_state_at eng t in
        let eng := SpatEngine.set_current t state eng in
        match Py.div t (SpatEngine.duration_s eng) with
        | Raise e => ([], eng, Raised e)
        | Ok ratio =>
            let snap := {| Snapshot.time_s := Py.round_to t 1;
                           Snapshot.duration_s := SpatEngine.duration_s eng;
                           Snapshot.progress := Py.round_to (ratio * 100) 1;
                           Snapshot.states := state |} in
            (* time.sleep(sleep_time) *)
            if Py.ltb sleep_time 0 then ([snap], eng, Raised ValueError)
            else
              let '(snaps, eng, stop) :=
                replay_loop fuel' step_s sleep_time (t + step_s) eng in
              (snap :: snaps, eng, stop)
        end
    end
  else ([], eng, Exhausted).

(** Generator that yields snapshots at every [step_s] of simulation
    time, pulled until it stops. *)
Definition replay (fuel : nat) (file : option (list Row)) (speed step_s : Q)
    (eng : SpatEngine.t) : list Snapshot.t * SpatEngine.t * Stop :=
  let '(eng, r) := if SpatEngine.loaded eng then (eng, Ok ()) else load file eng in
  match r with
  | Raise e => ([], eng, Raised e)
  | Ok _ =>
      match Py.div step_s speed with
      | Raise e => ([], eng, Raised e)
      | Ok sleep_time => replay_loop fuel step_s sleep_time 0 eng
      end
  end.

End WithFloat.

End Spat.

(** ** Vocabulary of the properties *)

Module CorridorRun.

Import Corridor.

Section WithMath.

Variable sin : Q → Q.
Variable pi : Q.

(** The states the [while] loop of [run_comparison] passes through, each
    taken where the loop condition is evaluated. *)
Inductive reaches (duration_s : Q) : Sim → Prop :=
  | reaches_init : reaches duration_s (init (length CORRIDOR))
  | reaches_tick st :
      reaches duration_s st →
      Qle_bool (t st) duration_s = true →
      reaches duration_s (tick sin pi (Z.of_nat (length CORRIDOR)) st).

End WithMath.

Definition queues_nonneg (l : list NodeState) : Prop :=
  Forall (fun s => 0 <= queue s) l.

(** The values of [t] at which the loop body runs. *)
Fixpoint tick_times (fuel : nat) (duration_s t : Q) : list Q :=
  if Qle_bool t duration_s then
    match fuel with
    | O => []
    | S fuel' => t :: tick_times fuel' duration_s (t + DT)
    end
  else [].

End CorridorRun.

Module NxRun.

Import Nx.

Section Walks.

Context {N : Type} `{Countable N}.
Variable G : Graph N.
Variable w : N → N → gmap string Q → Q.
Variable source : N.

(** [reach v p c]: [p] lists, last node first, the nodes of a walk from
    the source to [v] along edges of [G], and [c] is its total weight. *)
Inductive reach : N → list N → Q → Prop :=
  | reach_source : reach source [source] 0
  | reach_step u v data p c :
      reach u p c → (v, data) ∈ adj G u → reach v (v :: p) (c + w u v data).

(** No edge has a negative weight. *)
Definition nonneg_weights : Prop :=
  ∀ u v data, (v, data) ∈ adj G u → 0 <= w u v data.

(** Both ends of every edge are nodes of the graph. *)
Definition closed_graph : Prop :=
  ∀ l, l ∈ links G → l.1.1 ∈ node_ids G ∧ l.1.2 ∈ node_ids G.

(** What holds of the search each time it is about to pick a node:
    [picked] remembers, for the settled nodes, the entry with which each was
    picked. *)
Record search_inv (picked : gmap N (Q * list N)) (settled : gset N)
    (frontier : gmap N (Q * list N)) : Prop := {
  inv_dom : dom picked = settled;
  inv_disjoint : ∀ v, v ∈ settled → frontier !! v = None;
  inv_reach_done : ∀ v x, picked !! v = Some x → reach v x.2 x.1;
  inv_reach_frontier : ∀ v x, frontier !! v = Some x → reach v x.2 x.1;
  inv_relaxed : ∀ u xu v data,
    picked !! u = Some xu → (v, data) ∈ adj G u →
    ∃ xv, (picked !! v = Some xv ∨ frontier !! v = Some xv) ∧ xv.1 <= xu.1 + w u v data;
  inv_order : ∀ u xu v xv,
    picked !! u = Some xu → frontier !! v = Some xv → xu.1 <= xv.1;
  inv_source : ∃ x, (picked !! source = Some x ∨ frontier !! source = Some x) ∧ x.1 <= 0
}.

End Walks.

End NxRun.

Module RoutingRun.

Import Nx Routing.

(** The attributes [generate_city_grid] gives an edge: 500 m at 50 km/h. *)
Definition road_data : gmap string Q :=
  {[ "distance" := 500; "speed_limit" := 50; "base_time" := 500 / (50 / 3.6) ]}.

(** Three intersections "A", "B" and "C", added to the graph in the given
    order, with a road between each two of them: "A"-"B" is the direct
    edge, "A"-"C"-"B" the alternate path. *)
Definition three_roads (order : list string) : Graph string :=
  {| nodes := (fun n => (n, no_data)) <$> order;
     links := [("A", "B", road_data); ("A", "C", road_data); ("C", "B", road_data)] |}.

(** The working copy on which [get_best_route] searches: the graph with
    the 'current_weight' of every edge written. *)
Definition live_graph (city : Graph string) (traffic_data : option (gmap string Q))
  : Graph string :=
  match update_weights city traffic_data with
  | Ok G => G
  | Raise _ => empty_graph
  end.

End RoutingRun.

(** Rational stand-ins for [math.pi] and [math.sin], for the runs that
    are computed: 355/113, and Bhaskara's approximation of the sine on
    [0, pi] (0 elsewhere). *)
Definition pi_approx : Q := 355 # 113.

Definition sin_approx (x : Q) : Q :=
  if Qle_bool 0 x && Qle_bool x pi_approx then
    16 * x * (pi_approx - x) / (5 * pi_approx * pi_approx - 4 * x * (pi_approx - x))
  else 0.

Module SpatRun.

Import Spat.

(** [t] lies in the interval [start, start + duration) of the event. *)
Definition covers (evt : SpatEvent.t) (t : Q) : Prop :=
  SpatEvent.time_s evt <= t < SpatEvent.time_s evt + SpatEvent.duration_s evt.

(** The intersections that occur in at least one loaded event. *)
Definition intersections (eng : SpatEngine.t) : gset string :=
  list_to_set (SpatEvent.intersection_id <$> SpatEngine.events eng).

(** The values of [t] at which [replay] yields. *)
Fixpoint replay_times (fuel : nat) (step_s duration_s t : Q) : list Q :=
  if Qle_bool t duration_s then
    match fuel with
    | O => []
    | S fuel' => t :: replay_times fuel' step_s duration_s (t + step_s)
    end
  else [].

(** The snapshot [replay] yields at time [t]. *)
Definition snapshot_at (eng : SpatEngine.t) (t : Q) : Snapshot.t :=
  {| Snapshot.time_s := Py.round_to t 1;
     Snapshot.duration_s := SpatEngine.duration_s eng;
     Snapshot.progress := Py.round_to (t / SpatEngine.duration_s eng * 100) 1;
     Snapshot.states := get_state_at eng t |}.

(** A float parser for plain decimal numerals (an optional sign, digits,
    an optional fraction), standing in for [float] on the tables of the
    examples. *)
Definition parse_decimal (s : string) : option Q :=
  let s := strip s in
  let '(sign, body) :=
    match s with
    | String "-" r => ((-1)%Z, r)
    | String "+" r => (1%Z, r)
    | _ => (1%Z, s)
    end in
  match PyStr.split "." body with
  | [i] =>
      if bool_decide (i = EmptyString) then None
      else z ← PyStr.digits i 0; Some (inject_Z (sign * z))
  | [i; f] =>
      if bool_decide (i = EmptyString) && bool_decide (f = EmptyString) then None
      else
        zi ← PyStr.digits i 0;
        zf ← PyStr.digits f 0;
        Some (inject_Z sign *
              (inject_Z zi + inject_Z zf / inject_Z (10 ^ Z.of_nat (String.length f))))
  | _ => None
  end.

(** A row of the table as [csv.DictReader] hands it over. *)
Definition row (time_s intersection_id phase duration_s : string) : Row :=
  {[ "time_s" := Some time_s; "intersection_id" := Some intersection_id;
     "phase" := Some phase; "duration_s" := Some duration_s ]}.

Section WithFloat.

Variable float : string → option Q.

(** The field [k] of the row is missing or is not a number. *)
Definition not_numeric (row : Row) (k : string) : Prop :=
  match row !! k with
  | Some (Some s) => float s = None
  | _ => True
  end.

(** A row with a missing or non-numeric time or duration. *)
Definition malformed (row : Row) : Prop :=
  not_numeric row "time_s" ∨ not_numeric row "duration_s".

(** [for row in rows: parse] without an engine: the events of the rows. *)
Fixpoint parse_rows (rows : list Row) : res (list SpatEvent.t) :=
  match rows with
  | [] => Ok []
  | row :: rows' => evt ← parse_row float row; evts ← parse_rows rows'; Ok (evt :: evts)
  end.

End WithFloat.

End SpatRun.

(** ** More of the code

    The rest of [simulation/spat_engine.py], [core/optimizer.py] and
    [core/graph.py], the endpoints of [app.py] that call them, and
    [simulation/mock_sumo.py].  [random.randint] and [math.sqrt] are
    parameters, as [math.sin] and [math.pi] are. *)

Module PyRange.

(** [range(start, stop, step)] for a positive step. *)
Definition range (start stop step : Z) : list Z :=
  (fun k => (start + step * Z.of_nat k)%Z) <$>
    seq 0 (Z.to_nat ((stop - start + step - 1) / step)).

End PyRange.

(** simulation/spat_engine.py: [build_timeline] and [get_engine]. *)
Module SpatTimeline.

Import Spat.

Record Entry := {
  time_s : Z;
  states : gmap string string
}.

(** [csv_path or default]: [None] and the empty string give the default. *)
Definition path_or_default (csv_path : option string) (default : string) : string :=
  match csv_path with
  | Some p => if bool_decide (p = EmptyString) then default else p
  | None => default
  end.

Section WithFloat.

Variable float : string → option Q.

(** [str(Path(__file__).parent.parent / "data" / "sample_spat.csv")] *)
Variable sample_spat : string.

(** Returns the full replay as a list of snapshots, one for every 5
    seconds: [for t in range(0, int(self.duration_s) + 1, 5)]. *)
Definition build_timeline (file : option (list Row)) (eng : SpatEngine.t)
  : SpatEngine.t * res (list Entry) :=
  let '(eng, r) := if SpatEngine.loaded eng then (eng, Ok ()) else load float file eng in
  match r with
  | Raise e => (eng, Raise e)
  | Ok _ =>
      (eng, Ok ((fun t => {| time_s := t; states := get_state_at eng (inject_Z t) |}) <$>
                  PyRange.range 0 (Py.int (SpatEngine.duration_s eng) + 1) 5))
  end.

(** [get_engine(csv_path)] on the module-level [_default_engine], which
    holds the path the engine was made for and the engine; [fs] is what is
    found at each path.  The global is assigned before [load] runs, and
    [load] works on the object it holds. *)
Definition get_engine (fs : string → option (list Row)) (csv_path : option string)
    (_default_engine : option (string * SpatEngine.t))
  : option (string * SpatEngine.t) * res (string * SpatEngine.t) :=
  match _default_engine with
  | None =>
      let path := path_or_default csv_path sample_spat in
      let '(eng, r) := load float (fs path) SpatEngine.new in
      match r with
      | Raise e => (Some (path, eng), Raise e)
      | Ok _ => (Some (path, eng), Ok (path, eng))
      end
  | Some engine => (_default_engine, Ok engine)
  end.

End WithFloat.

End SpatTimeline.

(** core/optimizer.py: [TrafficOptimizer.get_green_wave_speed]. *)
Module GreenWave.

Import Routing.


End GreenWave.

(** app.py: [get_comparison] and its module-level [_comparison_cache]. *)
Module App.

Import Corridor.

Section WithMath.

Variable sin : Q → Q.
Variable pi : Q.
Variable float : string → option Q.

(** [float(request.args.get('duration', 300))] *)
Definition duration_arg (args : gmap string string) : res Q :=
  match args !! "duration" with
  | Some s => match float s with
              | Some x => Ok x
              | None => Raise ValueError
              end
  | None => Ok 300
  end.

(** The cache after the call and the comparison returned, or the
    exception; [None] when the fuel of [run_comparison] runs out. *)
Definition get_comparison (fuel : nat) (args : gmap string string)
    (_comparison_cache : option Comparison)
  : option (option Comparison * res Comparison) :=
  match duration_arg args with
  | Raise e => Some (_comparison_cache, Raise e)
  | Ok duration =>
      match _comparison_cache with
      | Some c =>
          if bool_decide (args !! "refresh" = Some "1") then
            r ← run_comparison sin pi fuel duration;
            match r with
            | Ok c' => Some (Some c', Ok c')
            | Raise e => Some (_comparison_cache, Raise e)
            end
          else Some (_comparison_cache, Ok c)
      | None =>
          r ← run_comparison sin pi fuel duration;
          match r with
          | Ok c' => Some (Some c', Ok c')
          | Raise e => Some (_comparison_cache, Raise e)
          end
      end
  end.

End WithMath.

Section Spat.

Variable float : string → option Q.
Variable sample_spat : string.

(** What is found at each path. *)
Variable fs : string → option (list Spat.Row).

(** [get_spat_status]: [get_engine().get_snapshot()], with the global
    engine the call leaves behind. *)
Definition get_spat_status (_default_engine : option (string * SpatEngine.t))
  : option (string * SpatEngine.t) * res Snapshot.t :=
  let '(g, r) := SpatTimeline.get_engine float sample_spat fs None _default_engine in
  (g, (fun engine : string * SpatEngine.t => Spat.get_snapshot engine.2) <$> r).

(** [get_spat_timeline]: [get_engine().build_timeline()]; the engine
    that [build_timeline] loads is the one the global holds. *)
Definition get_spat_timeline (_default_engine : option (string * SpatEngine.t))
  : option (string * SpatEngine.t) * res (list SpatTimeline.Entry) :=
  let '(g, r) := SpatTimeline.get_engine float sample_spat fs None _default_engine in
  match r with
  | Raise e => (g, Raise e)
  | Ok (path, eng) =>
      let '(eng, timeline) := SpatTimeline.build_timeline float (fs path) eng in
      (Some (path, eng), timeline)
  end.

End Spat.

End App.

(** simulation/mock_sumo.py: [generate_dual_simulation_data]. *)
Module MockSumo.

Import Nx Routing.

(** [sum(ord(c) for c in node_id)] *)
Fixpoint ord_sum (s : string) : Z :=
  match s with
  | EmptyString => 0%Z
  | String c s' => (Z.of_N (N_of_ascii c) + ord_sum s')%Z
  end.

Record Scenario := {
  signals : gmap string string;
  queues : gmap string Z
}.

Record Dual := {
  baseline : Scenario;
  optimized : Scenario
}.

Definition no_scenario : Scenario := {| signals := ∅; queues := ∅ |}.

Section WithMath.

Variable sin : Q → Q.
Variable pi : Q.

(** What the k-th call of [random.randint(-5, 15)] returns. *)
Variable randint : nat → Z.

(** Peak hours as a sine wave. *)
Definition intensity (timestamp : Q) : Q :=
  let hour := Py.fmod (timestamp / 3600) 24 in
  (sin ((hour - 9) * pi / 12) + 1) / 2 * 0.8 + 0.2.

(** The body of [for node_id in CITY_GRAPH.nodes()], [k] counting the
    nodes done. *)
Definition node_step (timestamp : Q) (acc : Dual * nat) (node_id : string)
  : res (Dual * nat) :=
  let '(sim, k) := acc in
  let cycle_time_baseline := 90%Z in
  let t_base := Py.fmod timestamp (inject_Z cycle_time_baseline) in
  let cycle_time_opt := 60%Z in
  let t_opt := Py.fmod timestamp (inject_Z cycle_time_opt) in
  let seed := ord_sum node_id in
  (* traffic volume *)
  let base_cars := Py.int (intensity timestamp * 40) in
  rc ← parse_id node_id;
  let '(r, c) := rc in
  let base_cars :=
    if (2 <=? r)%Z && (r <=? 5)%Z && (2 <=? c)%Z && (c <=? 5)%Z (* downtown *)
    then (base_cars + 15)%Z else base_cars in
  let noise := randint k in
  let raw_volume := Z.max 0 (base_cars + noise) in
  (* baseline signal: fixed 90 s, 40G, 5Y, 45R *)
  let offset_base := ((seed * 17) mod cycle_time_baseline)%Z in
  let local_t_base :=
    Py.fmod (t_base + inject_Z offset_base) (inject_Z cycle_time_baseline) in
  let b_state :=
    if Py.ltb local_t_base 40 then "GREEN"
    else if Py.ltb local_t_base 45 then "YELLOW"
    else "RED" in
  (* optimized signal *)
  let opt_green_time := Z.min 50 (20 + Py.int (inject_Z raw_volume * 0.8)) in
  let offset_opt := ((seed * 23) mod cycle_time_opt)%Z in
  let local_t_opt := Py.fmod (t_opt + inject_Z offset_opt) (inject_Z cycle_time_opt) in
  let o_state :=
    if Py.ltb local_t_opt (inject_Z opt_green_time) then "GREEN"
    else if Py.ltb local_t_opt (inject_Z (opt_green_time + 4)) then "YELLOW"
    else "RED" in
  (* queues *)
  let b_queue :=
    if String.eqb b_state "RED" then Py.int (inject_Z raw_volume * 1.5)
    else if String.eqb b_state "GREEN" then Py.int (inject_Z raw_volume * 0.8)
    else raw_volume in
  let b_queue :=
    Z.max 0 (b_queue + Py.int (sin (timestamp / 10 + inject_Z seed) * 5)) in
  let o_queue :=
    if String.eqb o_state "RED" then Py.int (inject_Z raw_volume * 0.6)
    else if String.eqb o_state "GREEN" then Py.int (inject_Z raw_volume * 0.2)
    else raw_volume in
  let o_queue :=
    Z.max 0 (o_queue + Py.int (sin (timestamp / 10 + inject_Z seed + 5) * 2)) in
  (* AI always at least 55% better *)
  let o_queue := Z.min o_queue (Py.int (inject_Z b_queue * 0.45)) in
  Ok ({| baseline := {| signals := <[node_id := b_state]> (signals (baseline sim));
                        queues := <[node_id := b_queue]> (queues (baseline sim)) |};
         optimized := {| signals := <[node_id := o_state]> (signals (optimized sim));
                         queues := <[node_id := o_queue]> (queues (optimized sim)) |} |},
      S k).

(** The simulation over the nodes of a graph. *)
Definition simulate (G : Graph string) (timestamp : Q) : res Dual :=
  fst <$> for_each (node_ids G) (node_step timestamp)
            ({| baseline := no_scenario; optimized := no_scenario |}, 0%nat).

Definition generate_dual_simulation_data (timestamp : Q) : res Dual :=
  simulate CITY_GRAPH timestamp.

End WithMath.


End MockSumo.

(** core/graph.py: [get_graph_topology]. *)
Module Topology.

Import Nx Routing.

Record NodeEntry := {
  id : string;
  lat : Q;
  lon : Q;
  name : string
}.

Record EdgeEntry := {
  source : string;
  target : string;
  distance : Q
}.

(** [for x in l: out.append(f(x))] *)
Fixpoint collect {A B : Type} (f : A → res B) (l : list A) : res (list B) :=
  match l with
  | [] => Ok []
  | x :: l' => y ← f x; ys ← collect f l'; Ok (y :: ys)
  end.

Definition node_entry (nd : string * NodeData) : res NodeEntry :=
  match pos nd.2 with
  | None => Raise KeyError
  | Some p =>
      match Nx.name nd.2 with
      | None => Raise KeyError
      | Some nm => Ok {| id := nd.1; lat := p.1; lon := p.2; name := nm |}
      end
  end.

Definition edge_entry (e : string * string * gmap string Q) : res EdgeEntry :=
  match e.2 !! "distance" with
  | None => Raise KeyError
  | Some d => Ok {| source := e.1.1; target := e.1.2; distance := d |}
  end.

(** The body of [get_graph_topology], for the graph it reads. *)
Definition topology_of (G : Graph string) : res (list NodeEntry * list EdgeEntry) :=
  nodes ← collect node_entry (nodes G);
  edges ← collect edge_entry (edges_data G);
  Ok (nodes, edges).

(** Returns nodes and edges for frontend visualization. *)
Definition get_graph_topology : res (list NodeEntry * list EdgeEntry) :=
  topology_of CITY_GRAPH.

End Topology.

(** app.py: the comparison of [get_live_data] in mock mode, and
    [_snap_to_node]. *)
Module LiveData.

Import Nx Routing MockSumo.

Record LiveComparison := {
  baseline_queue : Z;
  optimized_queue : Z;
  queue_reduction_pct : Q;
  baseline_wait : Q;
  optimized_wait : Q
}.

(** [sum(q.values())] *)
Definition total (q : gmap string Z) : Z :=
  map_fold (fun _ v acc => (acc + v)%Z) 0%Z q.

(** The "comparison" entry of the answer. *)
Definition comparison (sim_data : Dual) : LiveComparison :=
  let b_q := queues (baseline sim_data) in
  let o_q := queues (optimized sim_data) in
  let b_total := total b_q in
  let o_total := total o_q in
  let b_wait := inject_Z b_total * 2.5 in
  let o_wait := inject_Z o_total * 1.2 in
  let queue_reduction :=
    Py.round_to (if (0 <? b_total)%Z
                 then inject_Z (b_total - o_total) / inject_Z b_total * 100
                 else 0) 1 in
  {| baseline_queue := b_total;
     optimized_queue := o_total;
     queue_reduction_pct := queue_reduction;
     baseline_wait := Py.round_to b_wait 1;
     optimized_wait := Py.round_to o_wait 1 |}.

Section Snap.

(** [math.sqrt] *)
Variable sqrt : Q → Q.




End Snap.

End LiveData.

(** ** Vocabulary of the further properties *)

Module CorridorDelay.

Import Corridor.

Definition delays_nonneg (l : list NodeState) : Prop :=
  Forall (fun s => 0 <= delay s) l.

(** The cumulative delay of [s'] is at least that of [s]. *)
Definition delay_grows (s s' : NodeState) : Prop := delay s <= delay s'.

End CorridorDelay.

Module SpatOrder.



End SpatOrder.

Module RouteCheck.

Import Nx NxRun Routing.

(** The edge has a travel time that is not negative, and no negative
    'current_weight'. *)
Definition edge_ok (l : string * string * gmap string Q) : Prop :=
  (∃ b, l.2 !! "base_time" = Some b ∧ 0 <= b) ∧ 0 <= default 1 (l.2 !! "current_weight").

(** [G'] has the nodes and the edges of [G], whatever their attributes. *)
Definition same_roads (G G' : Graph string) : Prop :=
  nodes G' = nodes G ∧ (links G').*1 = (links G).*1.

(** No queue of the live data is negative. *)
Definition queues_nonneg (traffic_data : option (gmap string Q)) : Prop :=
  ∀ v q, default ∅ traffic_data !! v = Some q → 0 <= q.

(** Some walk along edges of [G] leads from [s] to [t]. *)
Definition connected (G : Graph string) (s t : string) : Prop :=
  ∃ p c, reach G (fun _ _ _ => 1) s t p c.

End RouteCheck.

Module GridRun.

Import Nx Routing.

(** The string consists of decimal digits. *)
Fixpoint all_digits (s : string) : bool :=
  match s with
  | EmptyString => true
  | String c s' => bool_decide (is_Some (PyStr.digit c)) && all_digits s'
  end.

(** The cells of a grid, row by row. *)
Definition coords (rows cols : nat) : list (Z * Z) :=
  r ← Z.of_nat <$> seq 0 rows; c ← Z.of_nat <$> seq 0 cols; [(r, c)].

(** The id "R-C" of the cell in row R and column C. *)
Definition node_id (rc : Z * Z) : string := pretty rc.1 +:+ "-" +:+ pretty rc.2.

(** The attributes [generate_city_grid] gives the node of a cell. *)
Definition node_data (rc : Z * Z) : NodeData :=
  {| pos := Some (23.0300 + inject_Z rc.1 * 0.0045, 72.5400 + inject_Z rc.2 * 0.0045);
     name := Some ("Intersection " +:+ node_id rc) |}.

(** What the last loop of [generate_city_grid] writes into the
    dictionary of an edge. *)
Definition road_attrs (data : gmap string Q) : gmap string Q :=
  <["base_time" := 500 / (50 / 3.6)]> (<["speed_limit" := 50]> (<["distance" := 500]> data)).

(** The body of that loop, for the edge [e]. *)
Definition set_road (G : Graph string) (e : string * string) : Graph string :=
  let dist := 500 in
  let G := set_edge_attr G e.1 e.2 "distance" dist in
  let G := set_edge_attr G e.1 e.2 "speed_limit" 50 in
  set_edge_attr G e.1 e.2 "base_time" (dist / (50 / 3.6)).

(** The graph before that loop: the relabelled grid with the attributes
    of its nodes written. *)
Definition labelled_grid (rows cols : nat) : Graph string :=
  {| nodes := (fun rc => (node_id rc, node_data rc)) <$> coords rows cols;
     links := links (relabel_nodes (grid_2d_graph rows cols) node_id) |}.

(** Two cells that are next to each other in a row or in a column. *)
Definition adjacent (a b : Z * Z) : Prop :=
  (Z.abs (a.1 - b.1) + Z.abs (a.2 - b.2) = 1)%Z.

End GridRun.

Module AppRun.

Import App.

Section Spat.

Variable float : string → option Q.
Variable sample_spat : string.
Variable fs : string → option (list Spat.Row).

(** The values the global engine of the SPaT endpoints can take: no
    engine at the start, then whatever a call of one of the two endpoints
    leaves behind. *)
Inductive served : option (string * SpatEngine.t) → Prop :=
  | served_start : served None
  | served_status g :
      served g → served (get_spat_status float sample_spat fs g).1
  | served_timeline g :
      served g → served (get_spat_timeline float sample_spat fs g).1.

End Spat.

End AppRun.

Module MockRun.

Import MockSumo.

(** A baseline queue [b] and the optimized queue [o] of the same node:
    [o] is at least 0 and at most 45 % of [b]. *)
Definition queue_pair (b o : option Z) : Prop :=
  match b, o with
  | Some b, Some o => (0 ≤ o)%Z ∧ (100 * o ≤ 45 * b)%Z
  | None, None => True
  | _, _ => False
  end.

(** The two scenarios have queues for the same nodes, paired as above. *)
Definition queues_bounded (sim : Dual) : Prop :=
  ∀ n, queue_pair (queues (baseline sim) !! n) (queues (optimized sim) !! n).


End MockRun.

(** * Properties *)

(** ** Numbers *)

Section py_facts.

Lemma ltb_lt (x y : Q) : Py.ltb x y = true ↔ x < y.
Proof.
  unfold Py.ltb. rewrite negb_true_iff, <- not_true_iff_false, Qle_bool_iff.
  split; [apply Qnot_le_lt | apply Qlt_not_le].
Qed.

Lemma ltb_ge (x y : Q) : Py.ltb x y = false ↔ y <= x.
Proof. unfold Py.ltb. rewrite negb_false_iff. apply Qle_bool_iff. Qed.

Lemma max_lower (a b : Q) : a <= Py.max a b.
Proof.
  unfold Py.max. destruct (Py.ltb a b) eqn:E; [apply ltb_lt in E|]; lra.
Qed.

Lemma int_floor (x : Q) : 0 <= x → Py.int x = Qfloor x.
Proof.
  destruct x as [n d]. unfold Py.int, Qfloor, Qle. simpl. intros Hn.
  apply Z.quot_div_nonneg; lia.
Qed.

Lemma int_mono (x y : Q) : 0 <= x → x <= y → (Py.int x ≤ Py.int y)%Z.
Proof.
  intros Hx Hxy. rewrite !int_floor by lra. by apply Qfloor_resp_le.
Qed.

End py_facts.

(** ** Corridor simulation *)

Section corridor_facts.

Import Corridor CorridorRun.

Lemma green_time_floor (q : Q) :
  0 <= q → green_time q = Z.min 55 (25 + Qfloor (0.6 * q)).
Proof.
  intros Hq. unfold green_time. rewrite int_floor by lra.
  f_equal. f_equal. apply Qfloor_comp. lra.
Qed.

(** C8. For a queue depth [q1 ≥ 0] the adaptive green duration is
    [min(55, 25 + floor(0.6·q1))] and lies in [25, 55]; it does not
    decrease when the queue grows from [q1] to [q2]; with an empty queue it
    is 25, and [optimized_signal] at [t = 0], intersection 0 is GREEN. *)
Theorem green_time_bounded_monotone (q1 q2 : Q) :
  0 <= q1 → q1 <= q2 →
  green_time q1 = Z.min 55 (25 + Qfloor (0.6 * q1)) ∧
  (25 ≤ green_time q1 ≤ 55)%Z ∧
  (green_time q1 ≤ green_time q2)%Z ∧
  green_time 0 = 25%Z ∧
  optimized_signal 0 0 0 = "GREEN".
Proof.
  intros H1 H12. split; [by apply green_time_floor|].
  assert (Hm : (Py.int (q1 * 0.6) ≤ Py.int (q2 * 0.6))%Z) by (apply int_mono; lra).
  assert (H0 : (0 ≤ Py.int (q1 * 0.6))%Z).
  { change 0%Z with (Py.int 0). apply int_mono; lra. }
  unfold green_time. repeat split; try lia. 
Qed.

Lemma green_time_bounded_monotone_witness :
  0 <= 10 ∧ 10 <= 80 ∧
  (green_time 10 = Z.min 55 (25 + Qfloor (0.6 * 10)) ∧
   (25 ≤ green_time 10 ≤ 55)%Z ∧
   (green_time 10 ≤ green_time 80)%Z ∧
   green_time 0 = 25%Z ∧
   optimized_signal 0 0 0 = "GREEN").
Proof.
  split; [lra | split; [lra | apply green_time_bounded_monotone; lra]].
Defined.

(** *** Queues stay non-negative *)

Lemma baseline_update_nonneg (t arrivals : Q) (i : Z) (bs : NodeState) :
  0 <= arrivals → 0 <= queue bs → 0 <= queue (baseline_update t arrivals i bs).
Proof.
  intros Ha Hq. unfold baseline_update.
  destruct (String.eqb _ "GREEN"); [apply max_lower|].
  destruct (String.eqb _ "RED"); simpl; lra.
Qed.

Lemma optimized_update_nonneg (t arrivals : Q) (i : Z) (os : NodeState) :
  0 <= arrivals → 0 <= queue os → 0 <= queue (optimized_update t arrivals i os).
Proof.
  intros Ha Hq. unfold optimized_update.
  destruct (String.eqb _ "GREEN"); [apply max_lower|].
  destruct (String.eqb _ "RED"); simpl; lra.
Qed.

Lemma sweep_spec (t arrivals : Q) (bss oss : list NodeState) :
  length bss = length oss →
  ∀ (i : Z) (tot : Totals),
    (sweep t arrivals i bss oss tot).1.1 =
      imap (fun k => baseline_update t arrivals (i + Z.of_nat k)) bss ∧
    (sweep t arrivals i bss oss tot).1.2 =
      imap (fun k => optimized_update t arrivals (i + Z.of_nat k)) oss.
Proof.
  revert oss. induction bss as [|bs bss IH]; intros [|os oss] Hlen i tot;
    simplify_eq/=; [done|].
  destruct (IH oss Hlen (i + 1)%Z
    {| b_total_q := b_total_q tot + queue (baseline_update t arrivals i bs);
       b_total_d := b_total_d tot + delay (baseline_update t arrivals i bs);
       o_total_q := o_total_q tot + queue (optimized_update t arrivals i os);
       o_total_d := o_total_d tot + delay (optimized_update t arrivals i os) |})
    as [Hb Ho].
  destruct (sweep _ _ _ bss oss _) as [[bss' oss'] tot']. simpl in *.
  rewrite Hb, Ho, Z.add_0_r. split; f_equal; apply imap_ext; intros k x _; simpl;
    f_equal; lia.
Qed.

Lemma imap_nonneg (f : nat → NodeState → NodeState) (l : list NodeState) :
  (∀ k s, 0 <= queue s → 0 <= queue (f k s)) →
  queues_nonneg l → queues_nonneg (imap f l).
Proof.
  intros Hf Hl. revert f Hf. induction Hl as [|s l Hs Hl IH]; intros f Hf; simpl.
  - constructor.
  - constructor; [by apply Hf|]. apply IH. intros k. apply Hf.
Qed.

Section WithMath.

Variable sin : Q → Q.
Variable pi : Q.

(** The arrival rate is non-negative as soon as the sine stays within
    [-1, 1]. *)
Lemma arrival_rate_nonneg :
  (∀ x, -1 <= sin x <= 1) → ∀ t, 0 <= arrival_rate sin pi t.
Proof.
  intros Hsin t. unfold arrival_rate.
  destruct (_ && _).
  - specialize (Hsin ((t - 120) * pi / 60)). lra.
  - destruct (Py.ltb t 120); [|lra].
    specialize (Hsin (t * pi / 120)). lra.
Qed.

Hypothesis arrivals_nonneg : ∀ t, 0 <= arrival_rate sin pi t.

Lemma tick_invariant (n : Z) (st : Sim) :
  length (baseline_states st) = length (optimized_states st) →
  queues_nonneg (baseline_states st) → queues_nonneg (optimized_states st) →
  length (baseline_states (tick sin pi n st)) = length (baseline_states st) ∧
  length (optimized_states (tick sin pi n st)) = length (optimized_states st) ∧
  queues_nonneg (baseline_states (tick sin pi n st)) ∧
  queues_nonneg (optimized_states (tick sin pi n st)).
Proof.
  intros Hlen Hb Ho. unfold tick.
  pose proof (sweep_spec (t st) (arrival_rate sin pi (t st) * DT) _ _ Hlen 0
    {| b_total_q := 0; b_total_d := 0; o_total_q := 0; o_total_d := 0 |}) as [Eb Eo].
  destruct (sweep _ _ _ _ _ _) as [[bss oss] tot]. simpl in *. subst bss oss.
  assert (Ha : 0 <= arrival_rate sin pi (t st) * DT).
  { specialize (arrivals_nonneg (t st)). unfold DT. lra. }
  rewrite !length_imap. repeat split; try done.
  - apply imap_nonneg; [|done]. intros k s. by apply baseline_update_nonneg.
  - apply imap_nonneg; [|done]. intros k s. by apply optimized_update_nonneg.
Qed.

End WithMath.

(** C3. At every state the loop of [run_comparison] passes through,
    whatever the duration of the run (so for every duration ≥ 0), both
    plans hold one state per corridor intersection and every queue depth
    is ≥ 0, the fixed-cycle ones and the adaptive ones, provided the
    arrival rate is never negative. *)
Theorem queue_depth_never_negative (sin : Q → Q) (pi duration_s : Q) (st : Sim) :
  (∀ t, 0 <= arrival_rate sin pi t) →
  reaches sin pi duration_s st →
  length (baseline_states st) = length CORRIDOR ∧
  length (optimized_states st) = length CORRIDOR ∧
  queues_nonneg (baseline_states st) ∧
  queues_nonneg (optimized_states st).
Proof.
  intros Harrivals. induction 1 as [|st Hst IH Hle].
  - simpl. repeat split; repeat constructor; simpl; lra.
  - destruct IH as (Lb & Lo & Qb & Qo).
    destruct (tick_invariant sin pi Harrivals (Z.of_nat (length CORRIDOR)) st)
      as (Lb' & Lo' & Qb' & Qo'); [congruence | done | done |].
    repeat split; [congruence | congruence | done | done].
Qed.

(** The stand-in for the sine stays within [-1, 1]. *)
Lemma sin_approx_range (x : Q) : -1 <= sin_approx x <= 1.
Proof.
  unfold sin_approx. destruct (Qle_bool 0 x) eqn:E0; simpl; [|lra].
  destruct (Qle_bool x pi_approx) eqn:E1; [|lra].
  apply Qle_bool_iff in E0, E1. unfold pi_approx in *.
  set (y := x * ((355 # 113) - x)).
  assert (0 <= y) by (unfold y; nra).
  assert (4 * y <= (355 # 113) * (355 # 113)).
  { unfold y.
    assert (Hs : 0 <= ((355 # 113) - 2 * x) * ((355 # 113) - 2 * x)).
    { generalize ((355 # 113) - 2 * x). intros a. nra. }
    lra. }
  assert (Hd : 0 < 5 * (355 # 113) * (355 # 113) - 4 * y) by lra.
  assert (E : 16 * x * ((355 # 113) - x) == 16 * y) by (unfold y; ring).
  assert (E' : 4 * x * ((355 # 113) - x) == 4 * y) by (unfold y; ring).
  rewrite E, E'. split.
  - apply Qle_trans with 0; [lra|]. apply Qle_shift_div_l; [done|]. lra.
  - apply Qle_shift_div_r; [done|]. lra.
Qed.

Lemma queue_depth_never_negative_witness :
  let st := tick sin_approx pi_approx (Z.of_nat (length CORRIDOR)) (init (length CORRIDOR)) in
  ((∀ t, 0 <= arrival_rate sin_approx pi_approx t) ∧
   reaches sin_approx pi_approx 300 st) ∧
  length (baseline_states st) = length CORRIDOR ∧
  length (optimized_states st) = length CORRIDOR ∧
  queues_nonneg (baseline_states st) ∧
  queues_nonneg (optimized_states st).
Proof.
  intros st.
  assert (Ha : ∀ t, 0 <= arrival_rate sin_approx pi_approx t).
  { apply arrival_rate_nonneg, sin_approx_range. }
  assert (Hr : reaches sin_approx pi_approx 300 st).
  { apply reaches_tick; [apply reaches_init | reflexivity]. }
  split; [by split|].
  exact (queue_depth_never_negative sin_approx pi_approx 300 st Ha Hr).
Defined.

(** The loop only visits states that [reaches] describes. *)
Lemma run_loop_reaches (sin : Q → Q) (pi duration_s : Q) (fuel : nat) (st st' : Sim) :
  reaches sin pi duration_s st →
  run_loop sin pi fuel (Z.of_nat (length CORRIDOR)) duration_s st = Some st' →
  reaches sin pi duration_s st'.
Proof.
  revert st. induction fuel as [|fuel IH]; intros st Hst; simpl;
    destruct (Qle_bool (t st) duration_s) eqn:E; intros Hrun; simplify_eq; try done.
  eapply IH; [|done]. by constructor.
Qed.

(** *** The loop stops, and where *)

Lemma t_tick (sin : Q → Q) (pi : Q) (n : Z) (st : Sim) :
  t (tick sin pi n st) = t st + DT.
Proof. unfold tick. by destruct (sweep _ _ _ _ _ _) as [[? ?] ?]. Qed.

Lemma series_tick (sin : Q → Q) (pi : Q) (n : Z) (st : Sim) :
  time_s <$> baseline_series (tick sin pi n st) =
    (time_s <$> baseline_series st) ++ [Py.round (t st)] ∧
  time_s <$> optimized_series (tick sin pi n st) =
    (time_s <$> optimized_series st) ++ [Py.round (t st)].
Proof.
  unfold tick. destruct (sweep _ _ _ _ _ _) as [[? ?] ?]. simpl.
  by rewrite !fmap_app.
Qed.

Lemma run_loop_fuel_mono (sin : Q → Q) (pi duration_s : Q) (n : Z) (fuel fuel' : nat)
    (st st' : Sim) :
  run_loop sin pi fuel n duration_s st = Some st' → (fuel ≤ fuel')%nat →
  run_loop sin pi fuel' n duration_s st = Some st'.
Proof.
  revert fuel' st. induction fuel as [|fuel IH]; intros fuel' st; simpl;
    destruct (Qle_bool (t st) duration_s) eqn:E; intros Hrun Hle; simplify_eq.
  - destruct fuel'; simpl; by rewrite E.
  - destruct fuel' as [|fuel']; [lia|]. simpl. rewrite E. apply IH; [done | lia].
  - destruct fuel'; simpl; by rewrite E.
Qed.

(** The loop runs its body exactly at the times [tick_times] lists, and
    stops when the fuel allows for one more time than it needs. *)
Lemma run_loop_times (sin : Q → Q) (pi duration_s : Q) (n : Z) (fuel : nat) (st : Sim) :
  (length (tick_times fuel duration_s (t st)) < fuel)%nat →
  ∃ st',
    run_loop sin pi fuel n duration_s st = Some st' ∧
    time_s <$> baseline_series st' =
      (time_s <$> baseline_series st) ++ (Py.round <$> tick_times fuel duration_s (t st)) ∧
    time_s <$> optimized_series st' =
      (time_s <$> optimized_series st) ++ (Py.round <$> tick_times fuel duration_s (t st)).
Proof.
  revert st. induction fuel as [|fuel IH]; intros st; simpl;
    destruct (Qle_bool (t st) duration_s) eqn:E; simpl; intros Hlen; try lia.
  - destruct (IH (tick sin pi n st)) as (st' & Hrun & Hb & Ho).
    { rewrite t_tick. lia. }
    exists st'. split; [done|].
    destruct (series_tick sin pi n st) as [Sb So].
    rewrite Hb, Ho, Sb, So, t_tick, <- !app_assoc. done.
  - exists st. by rewrite !app_nil_r.
Qed.

(** For every duration the loop stops when given enough fuel. *)
Lemma run_loop_terminates (sin : Q → Q) (pi duration_s : Q) (n : Z) (fuel : nat) (st : Sim) :
  duration_s - t st < DT * inject_Z (Z.of_nat fuel) →
  is_Some (run_loop sin pi fuel n duration_s st).
Proof.
  revert st. induction fuel as [|fuel IH]; intros st; simpl;
    destruct (Qle_bool (t st) duration_s) eqn:E; try done.
  - apply Qle_bool_iff in E. unfold DT. intros Hlt.
    change (inject_Z (Z.of_nat 0)) with 0 in Hlt. exfalso. lra.
  - intros Hlt. apply IH. rewrite t_tick.
    rewrite Nat2Z.inj_succ, <- Z.add_1_r, inject_Z_plus in Hlt.
    change (inject_Z 1) with 1 in Hlt. unfold DT in *. lra.
Qed.

Lemma run_comparison_total (sin : Q → Q) (pi duration_s : Q) :
  ∃ fuel, ∀ fuel', (fuel ≤ fuel')%nat → is_Some (run_comparison sin pi fuel' duration_s).
Proof.
  exists (Z.to_nat (Qfloor (duration_s / DT) + 1)). intros fuel' Hle.
  unfold run_comparison. rewrite fmap_is_Some. apply run_loop_terminates. simpl.
  pose proof (Qlt_floor (duration_s / DT)) as Hfl.
  assert (Hz : (Qfloor (duration_s / DT) + 1 ≤ Z.of_nat fuel')%Z) by lia.
  rewrite Zle_Qle in Hz. unfold DT in *.
  assert (duration_s == 5 * (duration_s / 5)) as Hd by (field; lra).
  lra.
Qed.

(** C4. With duration 300 (and DT = 5) [run_comparison] returns, for any
    fuel from 61 on, a result whose baseline series and optimized series
    each hold exactly 61 records, with times 0, 5, 10, …, 300 in this
    order. *)
Theorem run_comparison_300_yields_61_records (sin : Q → Q) (pi : Q) (fuel : nat) :
  (61 ≤ fuel)%nat →
  ∃ c,
    run_comparison sin pi fuel 300 = Some (Ok c) ∧
    length (baseline c) = 61%nat ∧
    length (optimized c) = 61%nat ∧
    time_s <$> baseline c = (fun k => (5 * Z.of_nat k)%Z) <$> seq 0 61 ∧
    time_s <$> optimized c = (fun k => (5 * Z.of_nat k)%Z) <$> seq 0 61.
Proof.
  intros Hfuel.
  destruct (run_loop_times sin pi 300 (Z.of_nat (length CORRIDOR)) 62
              (init (length CORRIDOR))) as (st & Hrun & Hb & Ho).
  { vm_compute. lia. }
  assert (Hrun' : run_loop sin pi 61 (Z.of_nat (length CORRIDOR)) 300
                    (init (length CORRIDOR)) = Some st).
  { destruct (run_loop_terminates sin pi 300 (Z.of_nat (length CORRIDOR)) 61
                (init (length CORRIDOR))) as [st1 H1]; [by vm_compute|].
      rewrite H1. f_equal.
    eapply run_loop_fuel_mono with (fuel' := 62%nat) in H1; [|lia]. congruence. }
  apply run_loop_fuel_mono with (fuel' := fuel) in Hrun'; [|done].
  assert (Et : Py.round <$> tick_times 62 300 (t (init (length CORRIDOR)))
               = (fun k => (5 * Z.of_nat k)%Z) <$> seq 0 61) by (vm_compute; reflexivity).
  rewrite Et in Hb, Ho. clear Et.
  change (time_s <$> baseline_series (init (length CORRIDOR))) with (@nil Z) in Hb.
  change (time_s <$> optimized_series (init (length CORRIDOR))) with (@nil Z) in Ho.
  rewrite app_nil_l in Hb, Ho.
  assert (Lb : length (baseline_series st) = 61%nat).
  { rewrite <- (length_fmap time_s), Hb. by rewrite length_fmap, length_seq. }
  assert (Lo : length (optimized_series st) = 61%nat).
  { rewrite <- (length_fmap time_s), Ho. by rewrite length_fmap, length_seq. }
  unfold run_comparison. rewrite Hrun'. 
  change (summarize 300 <$> Some st) with (Some (summarize 300 st)).
  unfold summarize.
  destruct (last (baseline_series st)) as [b|] eqn:Eb.
  2:{ apply last_None in Eb. rewrite Eb in Lb. done. }
  destruct (last (optimized_series st)) as [o|] eqn:Eo.
  2:{ apply last_None in Eo. rewrite Eo in Lo. done. }
  eexists. split; [reflexivity|]. 
  cbn [baseline optimized].
  repeat split; assumption.
Qed.

Lemma run_comparison_300_yields_61_records_witness :
  (61 ≤ 61)%nat ∧
  ∃ c,
    run_comparison sin_approx pi_approx 61 300 = Some (Ok c) ∧
    length (baseline c) = 61%nat ∧
    length (optimized c) = 61%nat ∧
    time_s <$> baseline c = (fun k => (5 * Z.of_nat k)%Z) <$> seq 0 61 ∧
    time_s <$> optimized c = (fun k => (5 * Z.of_nat k)%Z) <$> seq 0 61.
Proof.
  split; [lia | apply run_comparison_300_yields_61_records; lia].
Defined.

End corridor_facts.

(** ** SPaT replay engine *)

Section spat_facts.

Import Spat SpatRun.

Lemma covers_test (evt : SpatEvent.t) (t : Q) :
  Qle_bool (SpatEvent.time_s evt) t &&
    Py.ltb t (SpatEvent.time_s evt + SpatEvent.duration_s evt) = true ↔ covers evt t.
Proof.
  unfold covers. rewrite andb_true_iff, Qle_bool_iff, ltb_lt. done.
Qed.

(** The scan returns the phase of the first event that covers [t]. *)
Lemma active_phase_first (evts : list SpatEvent.t) (t : Q) :
  (∃ before evt after,
      evts = before ++ evt :: after ∧ covers evt t ∧
      Forall (fun e => ¬ covers e t) before ∧
      active_phase evts t = SpatEvent.phase evt) ∨
  (Forall (fun e => ¬ covers e t) evts ∧ active_phase evts t = "RED").
Proof.
  induction evts as [|evt evts IH]; simpl.
  - right. split; [constructor | done].
  - destruct (_ && _) eqn:E.
    + apply covers_test in E. left. exists [], evt, evts.
      split; [done|]. split; [done|]. split; [constructor | done].
    + assert (¬ covers evt t) as Hn.
      { intros Hc. apply covers_test in Hc. congruence. }
      destruct IH as [(before & e & after & -> & Hc & Hb & Hp) | [Hall Hp]].
      * left. exists (evt :: before), e, after.
        split; [done|]. split; [done|]. split; [by constructor | done].
      * right. split; [by constructor | done].
Qed.

Lemma active_phase_agreed (evts : list SpatEvent.t) (t : Q) (evt : SpatEvent.t) :
  evt ∈ evts → covers evt t →
  (∀ e, e ∈ evts → covers e t → SpatEvent.phase e = SpatEvent.phase evt) →
  active_phase evts t = SpatEvent.phase evt.
Proof.
  intros Hin Hc Hagree.
  destruct (active_phase_first evts t) as [(before & e & after & -> & Hce & _ & ->) | [Hall _]].
  - apply Hagree; [|done]. apply elem_of_app. right. by left.
  - rewrite Forall_forall in Hall. by destruct (Hall evt Hin).
Qed.

Lemma active_phase_none (evts : list SpatEvent.t) (t : Q) :
  (∀ e, e ∈ evts → ¬ covers e t) → active_phase evts t = "RED".
Proof.
  intros Hnone.
  destruct (active_phase_first evts t) as [(before & e & after & -> & Hce & _ & _) | [_ ?]];
    [|done].
  destruct (Hnone e); [set_solver | done].
Qed.

(** What the dictionary [by_node] holds under a key: the events of that
    intersection, in the order of the event list. *)
Lemma group_by_node_lookup (events : list SpatEvent.t) (node : string) :
  group_by_node events !! node =
    match filter (fun e => SpatEvent.intersection_id e = node) events with
    | [] => None
    | own => Some own
    end.
Proof.
  unfold group_by_node.
  assert (Hgen : ∀ (m : gmap string (list SpatEvent.t)),
    foldl (fun by_node evt =>
             <[SpatEvent.intersection_id evt :=
                 default [] (by_node !! SpatEvent.intersection_id evt) ++ [evt]]> by_node)
          m events !! node =
    match filter (fun e => SpatEvent.intersection_id e = node) events with
    | [] => m !! node
    | own => Some (default [] (m !! node) ++ own)
    end).
  { induction events as [|evt events IH]; intros m; simpl; [done|].
    rewrite IH. rewrite filter_cons. case_decide as Hid.
    - subst node. rewrite lookup_insert_eq. simpl.
      destruct (filter _ events); [done|]. by rewrite <- app_assoc.
    - by rewrite lookup_insert_ne. }
  rewrite Hgen, lookup_empty. simpl. by destruct (filter _ events).
Qed.

Lemma get_state_at_lookup (eng : SpatEngine.t) (t : Q) (node : string) :
  let own := filter (fun e => SpatEvent.intersection_id e = node) (SpatEngine.events eng) in
  get_state_at eng t !! node = if decide (own = []) then None else Some (active_phase own t).
Proof.
  unfold get_state_at. rewrite lookup_fmap, group_by_node_lookup.
  simpl. by destruct (filter _ _).
Qed.

(** C6. For an intersection with at least one loaded event,
    [get_state_at t] reports the phase of its event whose interval
    [start, start + duration) contains [t] (any other event of the
    intersection that contains [t] having the same phase), and RED when no
    event of the intersection contains [t], in particular when [t] lies
    before the start of all of them. *)
Theorem get_state_at_phase (eng : SpatEngine.t) (t : Q) (node : string) :
  (∃ evt, evt ∈ SpatEngine.events eng ∧ SpatEvent.intersection_id evt = node) →
  (∀ evt,
     evt ∈ SpatEngine.events eng → SpatEvent.intersection_id evt = node → covers evt t →
     (∀ e, e ∈ SpatEngine.events eng → SpatEvent.intersection_id e = node → covers e t →
           SpatEvent.phase e = SpatEvent.phase evt) →
     get_state_at eng t !! node = Some (SpatEvent.phase evt)) ∧
  ((∀ e, e ∈ SpatEngine.events eng → SpatEvent.intersection_id e = node → ¬ covers e t) →
   get_state_at eng t !! node = Some "RED") ∧
  ((∀ e, e ∈ SpatEngine.events eng → SpatEvent.intersection_id e = node →
         t < SpatEvent.time_s e) →
   get_state_at eng t !! node = Some "RED").
Proof.
  intros (e0 & Hin0 & Hid0).
  rewrite get_state_at_lookup. cbv zeta.
  set (own := filter _ _).
  assert (Hown : ∀ e, e ∈ own ↔ SpatEvent.intersection_id e = node ∧ e ∈ SpatEngine.events eng).
  { intros e. unfold own. by rewrite list_elem_of_filter. }
  assert (Hne : own ≠ []).
  { intros Hnil. assert (e0 ∈ own) as Hm by (by apply Hown). rewrite Hnil in Hm. set_solver. }
  rewrite decide_False by done.
  assert (Hnone : (∀ e, e ∈ SpatEngine.events eng → SpatEvent.intersection_id e = node →
                        ¬ covers e t) →
                  Some (active_phase own t) = Some "RED").
  { intros Hn. f_equal. apply active_phase_none.
    intros e He. apply Hown in He as [? ?]. by apply Hn. }
  split; [|split].
  - intros evt Hin Hid Hc Hagree.
    f_equal. apply active_phase_agreed; [by apply Hown | done |].
    intros e He Hce. apply Hown in He as [? ?]. by apply Hagree.
  - exact Hnone.
  - intros Hbefore. apply Hnone. intros e He Hid [Hle _].
    specialize (Hbefore e He Hid). lra.
Qed.

Lemma get_state_at_phase_witness :
  let eng := (load parse_decimal
                (Some [row "0" "INT_0" "GREEN" "40"; row "40" "INT_0" "YELLOW" "5";
                       row "10" "INT_1" "RED" "45"])
                SpatEngine.new).1 in
  (∃ evt, evt ∈ SpatEngine.events eng ∧ SpatEvent.intersection_id evt = "INT_0") ∧
  get_state_at eng 42 !! "INT_0" = Some "YELLOW" ∧
  get_state_at eng 50 !! "INT_0" = Some "RED" ∧
  get_state_at eng 5 !! "INT_1" = Some "RED".
Proof.
  intros eng.
  assert (H0 : ∃ evt, evt ∈ SpatEngine.events eng ∧ SpatEvent.intersection_id evt = "INT_0").
  { exists (SpatEvent.mk 40 "INT_0" "YELLOW" 5). split; [|done].
    apply list_elem_of_In. vm_compute. auto. }
  assert (H1 : ∃ evt, evt ∈ SpatEngine.events eng ∧ SpatEvent.intersection_id evt = "INT_1").
  { exists (SpatEvent.mk 10 "INT_1" "RED" 45). split; [|done].
    apply list_elem_of_In. vm_compute. auto. }
  split; [exact H0|].
  assert (Hev : ∀ e, e ∈ SpatEngine.events eng →
                e = SpatEvent.mk 0 "INT_0" "GREEN" 40 ∨
                e = SpatEvent.mk 10 "INT_1" "RED" 45 ∨
                e = SpatEvent.mk 40 "INT_0" "YELLOW" 5).
  { intros e He. apply list_elem_of_In in He. vm_compute in He.
    destruct He as [<- | [<- | [<- | []]]]; auto. }
  split; [|split].
  - apply (proj1 (get_state_at_phase eng 42 "INT_0" H0) (SpatEvent.mk 40 "INT_0" "YELLOW" 5)).
    + apply list_elem_of_In. vm_compute. auto.
    + done.
    + unfold covers. simpl. lra.
    + intros e He Hid Hc. unfold covers in Hc.
      destruct (Hev e He) as [-> | [-> | ->]]; [simpl in Hc; lra | done | done].
  - apply (proj1 (proj2 (get_state_at_phase eng 50 "INT_0" H0))).
    intros e He Hid Hc. unfold covers in Hc.
    destruct (Hev e He) as [-> | [-> | ->]]; [simpl in Hc; lra | done | simpl in Hc; lra].
  - apply (proj2 (proj2 (get_state_at_phase eng 5 "INT_1" H1))).
    intros e He Hid. destruct (Hev e He) as [-> | [-> | ->]]; first [done | simpl; lra].
Defined.

(** C10. The keys of [get_state_at t] are exactly the intersections that
    occur in a loaded event: an intersection without events has no entry,
    not even RED. *)
Theorem get_state_at_keys (eng : SpatEngine.t) (t : Q) :
  dom (get_state_at eng t) = intersections eng ∧
  ∀ node, node ∉ intersections eng → get_state_at eng t !! node = None.
Proof.
  assert (Hdom : dom (get_state_at eng t) = intersections eng).
  { apply set_eq. intros node. rewrite elem_of_dom, get_state_at_lookup. cbv zeta.
    unfold intersections. rewrite elem_of_list_to_set, list_elem_of_fmap.
    set (own := filter _ _).
    assert (Hown : ∀ e, e ∈ own ↔
                        SpatEvent.intersection_id e = node ∧ e ∈ SpatEngine.events eng).
    { intros e. unfold own. by rewrite list_elem_of_filter. }
    case_decide as Hnil; split.
    - by intros [? ?].
    - intros (e & -> & He). assert (e ∈ own) as Hm by (by apply Hown).
      rewrite Hnil in Hm. set_solver.
    - intros _. destruct own as [|e own']; [done|].
      destruct (Hown e) as [[? ?] _]; [by left|]. by exists e.
    - done. }
  split; [done|]. intros node Hnode. apply not_elem_of_dom. by rewrite Hdom.
Qed.

(** *** Loading *)

Section WithFloat.

Variable float : string → option Q.

Lemma not_numeric_raises (row : Row) (k : string) :
  not_numeric float row k → ∃ e, field row k ≫= to_float float = Raise e.
Proof.
  unfold not_numeric, field. destruct (row !! k) as [[s|]|]; simpl.
  - intros ->. by eexists.
  - by eexists.
  - by eexists.
Qed.

(** A row with a missing or non-numeric time or duration cannot be
    parsed. *)
Lemma malformed_raises (row : Row) :
  malformed float row → ∃ e, parse_row float row = Raise e.
Proof.
  unfold parse_row. intros [Ht | Hd].
  - apply not_numeric_raises in Ht as [e ->]. by eexists.
  - apply not_numeric_raises in Hd as [e Hd].
    destruct (field row "time_s" ≫= to_float float); [|by eexists]. simpl.
    destruct (field row "intersection_id" ≫= stripped); [|by eexists]. simpl.
    destruct (field row "phase" ≫= stripped); [|by eexists]. simpl.
    rewrite Hd. by eexists.
Qed.

(** The loop over the rows appends the events of the rows up to the first
    one that cannot be parsed, and stops there with its exception. *)
Lemma read_rows_spec (rows : list Row) (eng : SpatEngine.t) :
  match parse_rows float rows with
  | Ok evts =>
      read_rows float rows eng =
        (SpatEngine.set_events (SpatEngine.events eng ++ evts) eng, Ok ())
  | Raise e =>
      ∃ good bad rest evts,
        rows = good ++ bad :: rest ∧
        parse_rows float good = Ok evts ∧
        parse_row float bad = Raise e ∧
        read_rows float rows eng =
          (SpatEngine.set_events (SpatEngine.events eng ++ evts) eng, Raise e)
  end.
Proof.
  revert eng. induction rows as [|row rows IH]; intros eng; simpl.
  - destruct eng. unfold SpatEngine.set_events. simpl. by rewrite app_nil_r.
  - destruct (parse_row float row) as [evt|e] eqn:Erow; simpl.
    + specialize (IH (SpatEngine.set_events (SpatEngine.events eng ++ [evt]) eng)).
      destruct (parse_rows float rows) as [evts|e]; simpl in *.
      * rewrite IH. unfold SpatEngine.set_events. simpl. by rewrite <- app_assoc.
      * destruct IH as (good & bad & rest & evts & -> & Hgood & Hbad & ->).
        exists (row :: good), bad, rest, (evt :: evts). simpl.
        rewrite Erow, Hgood. simpl. repeat split; try done.
        unfold SpatEngine.set_events. simpl. by rewrite <- app_assoc.
    + exists [], row, rows, []. simpl. repeat split; try done.
      destruct eng. unfold SpatEngine.set_events. simpl. by rewrite app_nil_r.
Qed.

Lemma parse_rows_malformed (rows : list Row) :
  Exists (malformed float) rows → ∃ e, parse_rows float rows = Raise e.
Proof.
  induction 1 as [row rows Hbad | row rows _ [e IH]]; simpl.
  - apply malformed_raises in Hbad as [e ->]. by eexists.
  - rewrite IH. destruct (parse_row float row); by eexists.
Qed.

(** C7, as the code has it.  When the source holds a row with a missing or
    non-numeric time or duration, [load] raises at the first row that
    cannot be parsed: the rows before it have all been parsed, none is
    skipped, and the rows after it are not read.  The duration, the loaded
    flag and the playback position are those from before the call; the
    event list is not: it holds the events of the rows before the
    failing one. *)
Theorem load_fails_at_first_bad_row (rows : list Row) (eng : SpatEngine.t) :
  Exists (malformed float) rows →
  ∃ good bad rest evts e,
    rows = good ++ bad :: rest ∧
    parse_rows float good = Ok evts ∧
    parse_row float bad = Raise e ∧
    load float (Some rows) eng =
      ({| SpatEngine.events := evts;
          SpatEngine.duration_s := SpatEngine.duration_s eng;
          SpatEngine.current_state := SpatEngine.current_state eng;
          SpatEngine.current_time := SpatEngine.current_time eng;
          SpatEngine.loaded := SpatEngine.loaded eng |}, Raise e).
Proof.
  intros Hbad. apply parse_rows_malformed in Hbad as [e He].
  pose proof (read_rows_spec rows (SpatEngine.set_events [] eng)) as Hread.
  rewrite He in Hread. destruct Hread as (good & bad & rest & evts & -> & Hgood & Hrow & Hread).
  exists good, bad, rest, evts, e. repeat split; try done.
  unfold load. rewrite Hread. done.
Qed.

End WithFloat.

Lemma load_fails_at_first_bad_row_witness :
  let rows := [row "0" "INT_0" "GREEN" "40"; row "x" "INT_0" "YELLOW" "5";
               row "45" "INT_0" "RED" "45"] in
  Exists (malformed parse_decimal) rows ∧
  ∃ good bad rest evts e,
    rows = good ++ bad :: rest ∧
    parse_rows parse_decimal good = Ok evts ∧
    parse_row parse_decimal bad = Raise e ∧
    load parse_decimal (Some rows) SpatEngine.new =
      ({| SpatEngine.events := evts;
          SpatEngine.duration_s := SpatEngine.duration_s SpatEngine.new;
          SpatEngine.current_state := SpatEngine.current_state SpatEngine.new;
          SpatEngine.current_time := SpatEngine.current_time SpatEngine.new;
          SpatEngine.loaded := SpatEngine.loaded SpatEngine.new |}, Raise e).
Proof.
  intros rows.
  assert (Hbad : Exists (malformed parse_decimal) rows).
  { apply Exists_cons_tl, Exists_cons_hd. left. by vm_compute. }
  split; [exact Hbad | exact (load_fails_at_first_bad_row parse_decimal rows SpatEngine.new Hbad)].
Defined.

(** C7, as stated, fails: a table whose second row has the time "x" makes
    [load] raise, and the engine, whose event list was empty before the
    call, is left with the event of the first row. *)
Lemma load_leaves_partial_events :
  let rows := [row "0" "INT_0" "GREEN" "40"; row "x" "INT_0" "YELLOW" "5"] in
  Exists (malformed parse_decimal) rows ∧
  (load parse_decimal (Some rows) SpatEngine.new).2 = Raise ValueError ∧
  SpatEngine.events (load parse_decimal (Some rows) SpatEngine.new).1 =
    [SpatEvent.mk 0 "INT_0" "GREEN" 40] ∧
  SpatEngine.events (load parse_decimal (Some rows) SpatEngine.new).1 ≠
    SpatEngine.events SpatEngine.new.
Proof.
  intros rows. split; [|split; [|split]].
  - apply Exists_cons_tl, Exists_cons_hd. left. by vm_compute.
  - by vm_compute.
  - by vm_compute.
  - by vm_compute.
Qed.

(** *** Replay *)









End spat_facts.

(** ** Routing *)

Section routing_facts.

Import Nx Routing.

Lemma for_each_invariant {A B : Type} (P : A → Prop) (f : A → B → res A) (l : list B) :
  (∀ a x a', P a → x ∈ l → f a x = Ok a' → P a') →
  ∀ a r, P a → for_each l f a = Ok r → P r.
Proof.
  induction l as [|x l IH]; intros Hf a r Ha; simpl.
  - by intros [= <-].
  - destruct (f a x) as [a'|e] eqn:E; simpl; [|done].
    apply IH; [|by eapply Hf; [| |exact E]; [done | left]].
    intros a1 y a2 H1 Hy. apply Hf; [done | by right].
Qed.

Lemma update_weights_nodes (G G' : Graph string) (traffic_data : option (gmap string Q)) :
  update_weights G traffic_data = Ok G' → nodes G' = nodes G.
Proof.
  unfold update_weights.
  destruct (truthy traffic_data); intros Hrun;
    apply (for_each_invariant (fun a => nodes a = nodes G) _ _) in Hrun; try done.
  - intros a [u v] a' Ha _. destruct (edge_attr a u v "base_time"); simpl; [|done].
    by intros [= <-].
  - intros a [u v] a' Ha _. destruct (edge_attr a u v "base_time"); simpl; [|done].
    by intros [= <-].
Qed.

Lemma shortest_path_unknown (G : Graph string) (source target : string)
    (w : string → string → gmap string Q → Q) :
  source ∉ node_ids G ∨ target ∉ node_ids G →
  shortest_path G source target w = Raise NodeNotFound.
Proof.
  intros Hun. unfold shortest_path, has_node.
  destruct Hun as [Hs | Ht].
  - by rewrite (bool_decide_eq_false_2 _ Hs).
  - rewrite (bool_decide_eq_false_2 _ Ht). by rewrite orb_true_r.
Qed.

(** On a graph that lacks an endpoint the search raises [NodeNotFound],
    which is not the exception [get_best_route] catches. *)
Lemma best_route_unknown (city G : Graph string) (start_node end_node : string)
    (traffic_data : option (gmap string Q)) :
  update_weights city traffic_data = Ok G →
  start_node ∉ node_ids city ∨ end_node ∉ node_ids city →
  best_route_in city start_node end_node traffic_data = Raise NodeNotFound.
Proof.
  intros HG Hun. unfold best_route_in. rewrite HG. simpl.
  rewrite shortest_path_unknown; [done|].
  unfold node_ids. by rewrite (update_weights_nodes _ _ _ HG).
Qed.

(** Writing 'current_weight' leaves every 'base_time' as it was. *)
Lemma edge_attr_set_other (G : Graph string) (u v u' v' : string) (k k' : string) (x : Q) :
  k ≠ k' →
  edge_attr (set_edge_attr G u v k x) u' v' k' = edge_attr G u' v' k'.
Proof.
  intros Hk. unfold edge_attr, edge_data, set_edge_attr. simpl.
  induction (links G) as [|l ls IH]; [done|].
  rewrite fmap_cons, !filter_cons.
  assert (Hj : ∀ l0 : string * string * gmap string Q,
            joins u' v' (if joins u v l0 then (l0.1, <[k:=x]> l0.2) else l0) = joins u' v' l0).
  { intros l0. by destruct (joins u v l0). }
  rewrite Hj. destruct (decide (joins u' v' l = true)) as [Hjl|Hjl].
  - destruct (joins u v l); simpl; [|done]. by rewrite lookup_insert_ne.
  - exact IH.
Qed.

Lemma update_weights_succeeds (G : Graph string) (traffic_data : option (gmap string Q)) :
  (∀ e, e ∈ edges G → ∃ x, edge_attr G e.1 e.2 "base_time" = Ok x) →
  ∃ G', update_weights G traffic_data = Ok G'.
Proof.
  intros Hbase. unfold update_weights.
  assert (Hgen : ∀ (g : Q → string → Q) (es : list (string * string)) (G0 : Graph string),
    (∀ e, e ∈ es → ∃ x, edge_attr G0 e.1 e.2 "base_time" = Ok x) →
    ∃ G', for_each es (fun G e =>
            let '(u, v) := e in
            weight ← edge_attr G u v "base_time";
            Ok (set_edge_attr G u v "current_weight" (g weight v))) G0 = Ok G').
  { intros g es. induction es as [|[u v] es IH]; intros G0 H0; simpl; [by eexists|].
    destruct (H0 (u, v)) as [x Hx]; [by left|]. simpl in Hx. rewrite Hx. simpl.
    apply IH. intros e He. destruct (H0 e) as [y Hy]; [by right|].
    exists y. by rewrite edge_attr_set_other. }
  destruct (truthy traffic_data).
  - apply (Hgen (fun weight v => weight + default 0 (default ∅ traffic_data !! v) * 2.0)).
    done.
  - apply (Hgen (fun weight _ => weight)). done.
Qed.


Lemma astar_path_unknown
    (astar_search : Graph string → string → string →
                    (string → string → gmap string Q → res Q) → res (list string))
    (G : Graph string) (source target : string)
    (weight : string → string → gmap string Q → res Q) :
  source ∉ node_ids G ∨ target ∉ node_ids G →
  astar_path astar_search G source target weight = Raise NodeNotFound.
Proof.
  intros Hun. unfold astar_path, has_node.
  destruct Hun as [Hs | Ht].
  - by rewrite (bool_decide_eq_false_2 _ Hs).
  - rewrite (bool_decide_eq_false_2 _ Ht). by rewrite orb_true_r.
Qed.

(** *** The city grid *)

Lemma city_graph_generated : generate_city_grid 7 8 = Ok CITY_GRAPH.
Proof. vm_cast_no_check (eq_refl (Ok CITY_GRAPH)). Qed.

Lemma city_graph_size :
  length (nodes CITY_GRAPH) = 56%nat ∧ length (edges CITY_GRAPH) = 97%nat.
Proof. vm_cast_no_check (conj (eq_refl 56%nat) (eq_refl 97%nat)). Qed.

Lemma city_graph_base_times (e : string * string) :
  e ∈ edges CITY_GRAPH → ∃ x, edge_attr CITY_GRAPH e.1 e.2 "base_time" = Ok x.
Proof.
  intros He.
  assert (Hall : forallb (fun e : string * string =>
                   match edge_attr CITY_GRAPH e.1 e.2 "base_time" with
                   | Ok _ => true
                   | Raise _ => false
                   end) (edges CITY_GRAPH) = true).
  { vm_cast_no_check (eq_refl true). }
  rewrite forallb_forall in Hall. apply list_elem_of_In, Hall in He.
  destruct (edge_attr _ _ _ _); [by eexists | done].
Qed.

Lemma city_graph_unknown_9_9 : "9-9" ∉ node_ids CITY_GRAPH.
Proof.
  apply (bool_decide_unpack _). vm_cast_no_check I.
Qed.

#[local] Opaque CITY_GRAPH.

(** C1, as the code has it.  When the start id or the end id is not a
    node of the city graph, [get_best_route] does not return the empty
    list: it raises [NodeNotFound], whatever the live queues; and so does
    [find_optimal_path] on that graph, whatever search A-star performs. *)
Theorem unknown_endpoint_raises_NodeNotFound
    (start_node end_node : string) (traffic_data : option (gmap string Q))
    (astar_search : Graph string → string → string →
                    (string → string → gmap string Q → res Q) → res (list string))
    (realtime_data : option Realtime) :
  start_node ∉ node_ids CITY_GRAPH ∨ end_node ∉ node_ids CITY_GRAPH →
  get_best_route start_node end_node traffic_data = Raise NodeNotFound ∧
  find_optimal_path astar_search CITY_GRAPH start_node end_node realtime_data
    = Raise NodeNotFound.
Proof.
  intros Hun. split.
  - destruct (update_weights_succeeds CITY_GRAPH traffic_data city_graph_base_times)
      as [G HG].
    by apply (best_route_unknown CITY_GRAPH G).
  - unfold find_optimal_path. by rewrite astar_path_unknown.
Qed.

Lemma unknown_endpoint_raises_NodeNotFound_witness :
  ("9-9" ∉ node_ids CITY_GRAPH ∨ "0-0" ∉ node_ids CITY_GRAPH) ∧
  get_best_route "9-9" "0-0" None = Raise NodeNotFound ∧
  find_optimal_path (fun _ _ _ _ => Ok []) CITY_GRAPH "9-9" "0-0" None = Raise NodeNotFound.
Proof.
  split; [left; exact city_graph_unknown_9_9|].
  apply unknown_endpoint_raises_NodeNotFound. left. exact city_graph_unknown_9_9.
Defined.

(** C2, as the code has it.  With the live queues {"0-1": 50} the edge
    that [G.edges()] lists as ("0-0", "0-1") gets the weight 36 + 2·50 =
    136, and the search reads this same weight in both directions: moving
    from "0-1" into "0-0", whose queue is 0, costs 136 and not the
    36 + 2·queue("0-0") = 36 of the destination-based rule.  With no live
    queues the weight is the base travel time, 36, in both directions. *)
Theorem traversal_weight_is_per_edge :
  let traffic_data : gmap string Q := {[ "0-1" := 50 ]} in
  let base := 500 / (50 / 3.6) in
  ("0-0", "0-1") ∈ edges CITY_GRAPH ∧
  edge_attr CITY_GRAPH "0-0" "0-1" "base_time" = Ok base ∧
  base == 36 ∧
  live_weight CITY_GRAPH (Some traffic_data) "0-0" "0-1" = Ok (Some (base + 50 * 2.0)) ∧
  live_weight CITY_GRAPH (Some traffic_data) "0-1" "0-0" = Ok (Some (base + 50 * 2.0)) ∧
  base + 50 * 2.0 == base + 2.0 * default 0 (traffic_data !! "0-1") ∧
  base + 50 * 2.0 == 136 ∧
  ¬ base + 50 * 2.0 == base + 2.0 * default 0 (traffic_data !! "0-0") ∧
  live_weight CITY_GRAPH None "0-0" "0-1" = Ok (Some base) ∧
  live_weight CITY_GRAPH None "0-1" "0-0" = Ok (Some base).
Proof.
  intros traffic_data base.
  split; [apply (bool_decide_unpack _); vm_cast_no_check I|].
  split; [vm_cast_no_check (eq_refl (Ok base))|].
  split; [reflexivity|].
  split; [vm_cast_no_check (eq_refl (Ok (Some (base + 50 * 2.0))))|].
  split; [vm_cast_no_check (eq_refl (Ok (Some (base + 50 * 2.0))))|].
  split; [reflexivity|].
  split; [reflexivity|].
  split; [intros Heq; vm_compute in Heq; discriminate|].
  split; [vm_cast_no_check (eq_refl (Ok (Some base)))|].
  vm_cast_no_check (eq_refl (Ok (Some base))).
Qed.

(** The optimizer's cost function, by contrast, follows the direction of
    the traversal: with the same queues, entering "0-1" costs 136 and
    entering "0-0" costs 36. *)
Lemma calculate_cost_is_directional :
  let realtime_data :=
    Some {| signals := None; queues := Some ({[ "0-1" := 50 ]} : gmap string Q) |} in
  let base := 500 / (50 / 3.6) in
  edge_data CITY_GRAPH "0-0" "0-1" = Some RoutingRun.road_data ∧
  calculate_cost "0-0" "0-1" RoutingRun.road_data realtime_data = Ok (base + 50 * 2) ∧
  calculate_cost "0-1" "0-0" RoutingRun.road_data realtime_data = Ok (base + 0 * 2).
Proof.
  intros realtime_data base.
  split; [vm_cast_no_check (eq_refl (Some RoutingRun.road_data))|].
  split; reflexivity.
Qed.

End routing_facts.

(** ** The shortest-path search *)

Section dijkstra_facts.

Import Nx NxRun.

Context {N : Type} `{Countable N}.
Variable G : Graph N.
Variable w : N → N → gmap string Q → Q.

Lemma cheaper_fold (l : list (N * (Q * list N))) :
  match foldr cheaper None l with
  | Some x => x ∈ l ∧ ∀ y, y ∈ l → x.2.1 <= y.2.1
  | None => l = []
  end.
Proof.
  induction l as [|y l IH]; simpl; [done|].
  destruct (foldr cheaper None l) as [x|]; simpl.
  - destruct IH as [Hx Hmin].
    destruct (Qle_bool y.2.1 x.2.1) eqn:E.
    + apply Qle_bool_iff in E. split; [by left|].
      intros z [->|Hz]%elem_of_cons; [lra|]. specialize (Hmin z Hz). lra.
    + assert (x.2.1 <= y.2.1).
      { destruct (Qlt_le_dec x.2.1 y.2.1); [lra|].
        assert (Qle_bool y.2.1 x.2.1 = true) by (by apply Qle_bool_iff). congruence. }
      split; [by right|].
      intros z [->|Hz]%elem_of_cons; [done|]. by apply Hmin.
  - subst l. split; [by left|]. intros z [->|Hz]%elem_of_cons; [lra|]. by inversion Hz.
Qed.

Lemma pick_min_Some (frontier : gmap N (Q * list N)) (u : N) (c : Q) (p : list N) :
  pick_min frontier = Some (u, (c, p)) →
  frontier !! u = Some (c, p) ∧
  ∀ v x, frontier !! v = Some x → c <= x.1.
Proof.
  unfold pick_min. intros Hpick.
  pose proof (cheaper_fold (map_to_list frontier)) as Hfold. rewrite Hpick in Hfold.
  destruct Hfold as [Hin Hmin]. split.
  - by apply elem_of_map_to_list in Hin.
  - intros v x Hv. apply elem_of_map_to_list in Hv. apply (Hmin (v, x) Hv).
Qed.

Lemma pick_min_None (frontier : gmap N (Q * list N)) :
  pick_min frontier = None → frontier = ∅.
Proof.
  unfold pick_min. intros Hpick.
  pose proof (cheaper_fold (map_to_list frontier)) as Hfold. rewrite Hpick in Hfold.
  by apply map_to_list_empty_iff.
Qed.

(** *** Relaxing the edges of the node that is settled *)

Section relax.

Variables (u : N) (c : Q) (p : list N) (settled : gset N).

Lemma relax_origin (F : gmap N (Q * list N)) (e : N * gmap string Q) (v : N)
    (x : Q * list N) :
  (relax w u c p settled F e) !! v = Some x →
  F !! v = Some x ∨
  (v = e.1 ∧ (e.1 ∉ settled) ∧ x = (c + w u e.1 e.2, e.1 :: p)).
Proof.
  unfold relax. case_decide as Hs; [by left|].
  destruct (F !! e.1) as [old|] eqn:E.
  - destruct (Qle_bool old.1 _); [by left|].
    destruct (decide (v = e.1)) as [->|Hne].
    + rewrite lookup_insert_eq. intros [= <-]. by right.
    + rewrite lookup_insert_ne by done. by left.
  - destruct (decide (v = e.1)) as [->|Hne].
    + rewrite lookup_insert_eq. intros [= <-]. by right.
    + rewrite lookup_insert_ne by done. by left.
Qed.

Lemma relax_keeps (F : gmap N (Q * list N)) (e : N * gmap string Q) (v : N)
    (x : Q * list N) :
  F !! v = Some x →
  ∃ x', relax w u c p settled F e !! v = Some x' ∧ x'.1 <= x.1.
Proof.
  intros Hv. unfold relax. case_decide as Hs; [exists x; split; [done | lra]|].
  destruct (F !! e.1) as [old|] eqn:E.
  - destruct (Qle_bool old.1 _) eqn:Ele; [exists x; split; [done | lra]|].
    destruct (decide (v = e.1)) as [->|Hne].
    + rewrite lookup_insert_eq. eexists. split; [done|]. simpl.
      assert (x = old) as -> by congruence.
      destruct (Qlt_le_dec (c + w u e.1 e.2) old.1); [lra|].
      assert (Qle_bool old.1 (c + w u e.1 e.2) = true) by (by apply Qle_bool_iff).
      congruence.
    + rewrite lookup_insert_ne by done. exists x. split; [done | lra].
  - destruct (decide (v = e.1)) as [->|Hne]; [congruence|].
    rewrite lookup_insert_ne by done. exists x. split; [done | lra].
Qed.

Lemma relax_covers (F : gmap N (Q * list N)) (e : N * gmap string Q) :
  e.1 ∉ settled →
  ∃ x', relax w u c p settled F e !! e.1 = Some x' ∧ x'.1 <= c + w u e.1 e.2.
Proof.
  intros Hs. unfold relax. rewrite decide_False by done.
  destruct (F !! e.1) as [old|] eqn:E.
  - destruct (Qle_bool old.1 _) eqn:Ele.
    + apply Qle_bool_iff in Ele. by exists old.
    + rewrite lookup_insert_eq. eexists. split; [done|]. simpl. lra.
  - rewrite lookup_insert_eq. eexists. split; [done|]. simpl. lra.
Qed.

Lemma relax_all_origin (es : list (N * gmap string Q)) (F : gmap N (Q * list N)) (v : N)
    (x : Q * list N) :
  (foldl (relax w u c p settled) F es) !! v = Some x →
  F !! v = Some x ∨
  (∃ data, (v, data) ∈ es ∧ (v ∉ settled) ∧ x = (c + w u v data, v :: p)).
Proof.
  revert F. induction es as [|e es IH]; intros F; simpl; [by left|].
  intros Hv. apply IH in Hv as [Hv | (data & Hin & Hs & ->)].
  - apply relax_origin in Hv as [Hv | (-> & Hs & ->)]; [by left|].
    right. exists e.2. split; [|done]. destruct e. by left.
  - right. exists data. split; [by right | done].
Qed.

Lemma relax_all_keeps (es : list (N * gmap string Q)) (F : gmap N (Q * list N)) (v : N)
    (x : Q * list N) :
  F !! v = Some x →
  ∃ x', foldl (relax w u c p settled) F es !! v = Some x' ∧ x'.1 <= x.1.
Proof.
  revert F x. induction es as [|e es IH]; intros F x Hv; simpl.
  - exists x. split; [done | lra].
  - destruct (relax_keeps F e v x Hv) as (x1 & H1 & Hle1).
    destruct (IH _ _ H1) as (x2 & H2 & Hle2). exists x2. split; [done | lra].
Qed.

Lemma relax_all_covers (es : list (N * gmap string Q)) (F : gmap N (Q * list N))
    (e : N * gmap string Q) :
  e ∈ es → e.1 ∉ settled →
  ∃ x', foldl (relax w u c p settled) F es !! e.1 = Some x' ∧ x'.1 <= c + w u e.1 e.2.
Proof.
  revert F. induction es as [|e' es IH]; intros F Hin Hs; [by inversion Hin|].
  simpl. apply elem_of_cons in Hin as [<- | Hin].
  - destruct (relax_covers F e Hs) as (x1 & H1 & Hle1).
    destruct (relax_all_keeps es _ _ _ H1) as (x2 & H2 & Hle2).
    exists x2. split; [done | lra].
  - by apply IH.
Qed.

End relax.

Lemma size_list_to_set_le (l : list N) : (size (list_to_set l : gset N) ≤ length l)%nat.
Proof.
  induction l as [|x l IH].
  - rewrite list_to_set_nil, size_empty. simpl. lia.
  - rewrite list_to_set_cons. simpl.
    destruct (decide (x ∈ (list_to_set l : gset N))) as [Hin | Hin].
    + rewrite (subseteq_union_1_L {[x]} (list_to_set l : gset N))
        by (by apply singleton_subseteq_l).
      lia.
    + rewrite size_union by set_solver. rewrite size_singleton. lia.
Qed.

(** *** The invariant of the search *)

Section search.

Variable source : N.
Hypothesis weights_nonneg : nonneg_weights G w.

Lemma reach_nonneg (v : N) (p : list N) (c : Q) : reach G w source v p c → 0 <= c.
Proof.
  induction 1 as [|u v data p c _ IH Hadj]; [lra|].
  specialize (weights_nonneg u v data Hadj). lra.
Qed.

Lemma search_inv_init :
  search_inv G w source ∅ ∅ {[source := (0, [source])]}.
Proof.
  split.
  - by rewrite dom_empty_L.
  - intros v Hv. set_solver.
  - intros v x Hv. by rewrite lookup_empty in Hv.
  - intros v x [<- <-]%lookup_singleton_Some. simpl. constructor.
  - intros u xu v data Hu. by rewrite lookup_empty in Hu.
  - intros u xu v xv Hu. by rewrite lookup_empty in Hu.
  - exists (0, [source]). split; [right; by rewrite lookup_singleton_eq | simpl; lra].
Qed.

(** Every walk from the source either ends in a settled node that was
    picked at no more than the walk's weight, or weighs at least as much
    as everything on the frontier. *)
Lemma search_lower_bound (picked : gmap N (Q * list N)) (settled : gset N)
    (frontier : gmap N (Q * list N)) (m : Q) :
  search_inv G w source picked settled frontier →
  (∀ v x, frontier !! v = Some x → m <= x.1) →
  ∀ v p c, reach G w source v p c →
    (∃ x, picked !! v = Some x ∧ x.1 <= c) ∨ m <= c.
Proof.
  intros Hinv Hmin v p c Hreach.
  induction Hreach as [|u v data p c Hreach IH Hadj].
  - destruct (inv_source _ _ _ _ _ _ Hinv) as (x & [Hx | Hx] & Hle).
    + left. by exists x.
    + right. specialize (Hmin _ _ Hx). lra.
  - pose proof (weights_nonneg u v data Hadj) as Hw.
    destruct IH as [(xu & Hu & Hle) | Hle]; [|right; lra].
    destruct (inv_relaxed _ _ _ _ _ _ Hinv u xu v data Hu Hadj) as (xv & [Hv | Hv] & Hlev).
    + left. exists xv. split; [done | lra].
    + right. specialize (Hmin _ _ Hv). lra.
Qed.

Lemma search_inv_step (picked : gmap N (Q * list N)) (settled : gset N)
    (frontier : gmap N (Q * list N)) (u : N) (c : Q) (p : list N) :
  search_inv G w source picked settled frontier →
  pick_min frontier = Some (u, (c, p)) →
  search_inv G w source (<[u := (c, p)]> picked) ({[u]} ∪ settled)
    (foldl (relax w u c p ({[u]} ∪ settled)) (delete u frontier) (adj G u)).
Proof.
  intros Hinv Hpick. apply pick_min_Some in Hpick as [Hu Hmin].
  assert (Hu_new : u ∉ settled).
  { intros Hin. by rewrite (inv_disjoint _ _ _ _ _ _ Hinv u Hin) in Hu. }
  assert (Hu_done : picked !! u = None).
  { apply not_elem_of_dom. by rewrite (inv_dom _ _ _ _ _ _ Hinv). }
  assert (Hreach_u : reach G w source u p c).
  { apply (inv_reach_frontier _ _ _ _ _ _ Hinv u (c, p) Hu). }
  set (settled' := {[u]} ∪ settled).
  set (F' := foldl (relax w u c p settled') (delete u frontier) (adj G u)).
  assert (Horigin : ∀ v x, F' !! v = Some x →
            (v ≠ u ∧ frontier !! v = Some x) ∨
            (∃ data, (v, data) ∈ adj G u ∧ (v ∉ settled') ∧ x = (c + w u v data, v :: p))).
  { intros v x Hv. unfold F' in Hv.
    destruct (relax_all_origin _ _ _ _ _ _ _ _ Hv) as [Hv' | Hv']; [left | by right].
    apply lookup_delete_Some in Hv' as [? ?]. split; [congruence | done]. }
  split.
  - rewrite dom_insert_L. by rewrite (inv_dom _ _ _ _ _ _ Hinv).
  - intros v Hv. destruct (F' !! v) as [x|] eqn:E; [|done].
    apply Horigin in E as [[Hne Hf] | (data & _ & Hs & _)]; [|done].
    apply elem_of_union in Hv as [Hv | Hv]; [set_solver|].
    by rewrite (inv_disjoint _ _ _ _ _ _ Hinv v Hv) in Hf.
  - intros v x Hv. apply lookup_insert_Some in Hv as [[<- <-] | [_ Hv]]; [done|].
    by apply (inv_reach_done _ _ _ _ _ _ Hinv).
  - intros v x Hv. apply Horigin in Hv as [[_ Hf] | (data & Hadj & _ & ->)].
    + by apply (inv_reach_frontier _ _ _ _ _ _ Hinv).
    + simpl. by apply reach_step.
  - intros x xx v data Hx Hadj.
    pose proof (weights_nonneg x v data Hadj) as Hw.
    apply lookup_insert_Some in Hx as [[<- <-] | [Hne Hx]].
    + (* the edges of the node just settled *)
      destruct (decide (v ∈ settled')) as [Hs | Hs].
      * apply elem_of_union in Hs as [Hs | Hs].
        -- assert (v = u) as -> by set_solver.
           exists (c, p). split; [left; by rewrite lookup_insert_eq | simpl; lra].
        -- assert (is_Some (picked !! v)) as [xv Hv].
           { apply elem_of_dom. by rewrite (inv_dom _ _ _ _ _ _ Hinv). }
           exists xv. split.
           ++ left. rewrite lookup_insert_ne; [done|]. intros ->. done.
           ++ pose proof (inv_order _ _ _ _ _ _ Hinv v xv u (c, p) Hv Hu). simpl in *. lra.
      * destruct (relax_all_covers u c p settled' (adj G u) (delete u frontier) (v, data))
          as (xv & Hv & Hle); [done | done |].
        exists xv. split; [by right | simpl in *; lra].
    + (* the edges of a node settled earlier *)
      destruct (inv_relaxed _ _ _ _ _ _ Hinv x xx v data Hx Hadj) as (xv & [Hv | Hv] & Hle).
      * exists xv. split; [|done]. left. rewrite lookup_insert_ne; [done|]. congruence.
      * destruct (decide (v = u)) as [-> | Hvu].
        -- exists (c, p). split; [left; by rewrite lookup_insert_eq|].
           assert (xv = (c, p)) as -> by congruence. done.
        -- destruct (relax_all_keeps u c p settled' (adj G u) (delete u frontier) v xv)
             as (xv' & Hv' & Hle'); [by rewrite lookup_delete_ne|].
           exists xv'. split; [by right | lra].
  - intros x xx v xv Hx Hv.
    assert (Hcv : c <= xv.1).
    { apply Horigin in Hv as [[_ Hf] | (data & Hadj & _ & ->)].
      - by apply (Hmin v).
      - pose proof (weights_nonneg u v data Hadj). simpl. lra. }
    apply lookup_insert_Some in Hx as [[<- <-] | [Hne Hx]]; [done|].
    pose proof (inv_order _ _ _ _ _ _ Hinv x xx u (c, p) Hx Hu). simpl in *. lra.
  - destruct (inv_source _ _ _ _ _ _ Hinv) as (x & [Hx | Hx] & Hle).
    + exists x. split; [|done]. left. rewrite lookup_insert_ne; [done|]. congruence.
    + destruct (decide (source = u)) as [-> | Hsu].
      * exists (c, p). split; [left; by rewrite lookup_insert_eq|].
        assert (x = (c, p)) as -> by congruence. done.
      * destruct (relax_all_keeps u c p settled' (adj G u) (delete u frontier) source x)
          as (x' & Hx' & Hle'); [by rewrite lookup_delete_ne|].
        exists x'. split; [by right | lra].
Qed.

Variable target : N.

(** The route the search returns is a walk from the source to the target,
    and no walk between them weighs less. *)
Lemma dijkstra_optimal (fuel : nat) (picked : gmap N (Q * list N)) (settled : gset N)
    (frontier : gmap N (Q * list N)) (path : list N) :
  search_inv G w source picked settled frontier →
  dijkstra fuel G w target settled frontier = Some path →
  ∃ c, reach G w source target (reverse path) c ∧
       ∀ p' c', reach G w source target p' c' → c <= c'.
Proof.
  revert picked settled frontier.
  induction fuel as [|fuel IH]; intros picked settled frontier Hinv; simpl; [done|].
  destruct (pick_min frontier) as [[u [c p]]|] eqn:Hpick; [|done].
  case_decide as Hu.
  - subst u. intros [= <-]. rewrite reverse_involutive.
    pose proof (pick_min_Some _ _ _ _ Hpick) as [Ht Hmin].
    exists c. split; [apply (inv_reach_frontier _ _ _ _ _ _ Hinv target (c, p) Ht)|].
    intros p' c' Hreach.
    destruct (search_lower_bound picked settled frontier c Hinv Hmin _ _ _ Hreach)
      as [(x & Hx & _) | Hle]; [|done].
    assert (target ∈ settled) as Hin.
    { rewrite <- (inv_dom _ _ _ _ _ _ Hinv). by apply elem_of_dom. }
    by rewrite (inv_disjoint _ _ _ _ _ _ Hinv target Hin) in Ht.
  - apply (IH (<[u := (c, p)]> picked)). by apply search_inv_step.
Qed.

(** With one unit of fuel per node and one to spare, the search finds the
    target whenever a walk leads to it. *)
Lemma dijkstra_complete (fuel : nat) (picked : gmap N (Q * list N)) (settled : gset N)
    (frontier : gmap N (Q * list N)) (p' : list N) (c' : Q) :
  closed_graph G →
  search_inv G w source picked settled frontier →
  reach G w source target p' c' →
  target ∉ settled →
  target ∈ node_ids G →
  settled ⊆ list_to_set (node_ids G) →
  dom frontier ⊆ list_to_set (node_ids G) →
  (size (list_to_set (node_ids G) : gset N) + 1 ≤ fuel + size settled)%nat →
  is_Some (dijkstra fuel G w target settled frontier).
Proof.
  intros Hclosed. revert picked settled frontier.
  induction fuel as [|fuel IH];
    intros picked settled frontier Hinv Hreach Ht HtV Hsub Hfsub Hfuel.
  - exfalso.
    assert (settled ⊆ (list_to_set (node_ids G) : gset N) ∖ {[target]}) as Hsub'.
    { intros v Hv. apply elem_of_difference. split; [by apply Hsub|].
      intros ->%elem_of_singleton. done. }
    apply subseteq_size in Hsub'.
    assert (size ((list_to_set (node_ids G) : gset N) ∖ {[target]})
            < size (list_to_set (node_ids G) : gset N))%nat.
    { apply subset_size. apply subset_difference_elem_of. set_solver. }
    simpl in Hfuel. lia.
  - simpl. destruct (pick_min frontier) as [[u [c p]]|] eqn:Hpick.
    + case_decide as Hu; [done|].
      pose proof (pick_min_Some _ _ _ _ Hpick) as [Hfu Hmin].
      assert (Hu_new : u ∉ settled).
      { intros Hin. by rewrite (inv_disjoint _ _ _ _ _ _ Hinv u Hin) in Hfu. }
      apply (IH (<[u := (c, p)]> picked)); try done.
      * by apply search_inv_step.
      * intros [->%elem_of_singleton | Hin]%elem_of_union; done.
      * apply union_subseteq. split; [|done].
        apply singleton_subseteq_l, Hfsub, elem_of_dom. by eexists.
      * intros v Hv. apply elem_of_dom in Hv as [x Hx].
        destruct (relax_all_origin _ _ _ _ _ _ _ _ Hx) as [Hx' | (data & Hadj & _)].
        -- apply lookup_delete_Some in Hx' as [_ Hx'].
           apply Hfsub, elem_of_dom. by eexists.
        -- apply elem_of_list_to_set.
           unfold adj in Hadj. apply list_elem_of_omap in Hadj as (l & Hl & Hsome).
           destruct (Hclosed l Hl) as [H1 H2].
           repeat case_decide; simplify_eq; done.
      * rewrite size_union by set_solver. rewrite size_singleton. lia.
    + exfalso. apply pick_min_None in Hpick. subst frontier.
      assert (Hnone : ∀ v (x : Q * list N), (∅ : gmap N (Q * list N)) !! v = Some x →
                              c' + 1 <= x.1).
      { intros v x Hv. by rewrite lookup_empty in Hv. }
      destruct (search_lower_bound picked settled ∅ (c' + 1) Hinv Hnone _ _ _ Hreach)
        as [(x & Hx & _) | Hle].
      * apply Ht. rewrite <- (inv_dom _ _ _ _ _ _ Hinv). by apply elem_of_dom.
      * lra.
Qed.

End search.

(** *** The contract of [nx.shortest_path] *)

Section contract.

Hypothesis weights_nonneg : nonneg_weights G w.

(** Whatever [shortest_path] returns is a walk from the source to the
    target of least total weight. *)
Lemma shortest_path_least (source target : N) (path : list N) :
  shortest_path G source target w = Ok path →
  ∃ c, reach G w source target (reverse path) c ∧
       ∀ p' c', reach G w source target p' c' → c <= c'.
Proof.
  unfold shortest_path. destruct (_ || _); [done|].
  case_decide as Hst.
  - subst target. intros [= <-]. exists 0. split; [constructor|].
    intros p' c'. by apply reach_nonneg.
  - destruct (dijkstra _ _ _ _ _ _) as [p|] eqn:E; [|done]. intros [= <-].
    exact (dijkstra_optimal source weights_nonneg target _ ∅ ∅ _ p
             (search_inv_init source weights_nonneg) E).
Qed.

(** On a graph that contains the ends of its edges, [shortest_path]
    returns a route whenever a walk joins two of its nodes. *)
Lemma shortest_path_found (source target : N) (p' : list N) (c' : Q) :
  closed_graph G →
  source ∈ node_ids G → target ∈ node_ids G →
  reach G w source target p' c' →
  ∃ path, shortest_path G source target w = Ok path.
Proof.
  intros Hclosed Hs Ht Hreach. unfold shortest_path, has_node.
  rewrite !bool_decide_eq_true_2 by done. cbn [negb orb].
  case_decide as Hst; [by eexists|].
  assert (Hsome : is_Some (dijkstra (S (length (nodes G))) G w target ∅
                             {[source := (0, [source])]})).
  { apply (dijkstra_complete source weights_nonneg target _ ∅ ∅ _ p' c' Hclosed
             (search_inv_init source weights_nonneg) Hreach).
    - apply not_elem_of_empty.
    - done.
    - apply empty_subseteq.
    - rewrite dom_singleton_L. intros v ->%elem_of_singleton.
      by apply elem_of_list_to_set.
    - rewrite size_empty.
      pose proof (size_list_to_set_le (node_ids G)) as Hle.
      unfold node_ids in *. rewrite length_fmap in Hle. lia. }
  destruct Hsome as [path ->]. by eexists.
Qed.

End contract.

End dijkstra_facts.

(** ** Routing around a congested edge *)

Section detour_facts.

Import Nx NxRun Routing RoutingRun.


Lemma nonneg_weight_attr (G : Graph string) (k : string) :
  Forall (fun l : string * string * gmap string Q => 0 <= default 1 (l.2 !! k)) (links G) →
  nonneg_weights G (weight_attr k).
Proof.
  intros Hall u v data Hadj. unfold weight_attr.
  unfold adj in Hadj. apply list_elem_of_omap in Hadj as (l & Hl & Hsome).
  rewrite Forall_forall in Hall. specialize (Hall l Hl).
  repeat case_decide; simplify_eq; done.
Qed.


(** Checks that compute, for the graphs of the examples. *)

Lemma closed_graph_check (G : Graph string) :
  forallb (fun l : string * string * gmap string Q =>
             bool_decide (l.1.1 ∈ node_ids G) && bool_decide (l.1.2 ∈ node_ids G))
          (links G) = true →
  closed_graph G.
Proof.
  rewrite forallb_forall. intros Hall l Hl. apply list_elem_of_In, Hall in Hl.
  apply andb_true_iff in Hl as [H1 H2].
  apply bool_decide_eq_true in H1, H2. done.
Qed.





(** On that network the route is exactly the alternate path. *)
Lemma three_roads_detour :
  best_route_in (three_roads ["A"; "B"; "C"]) "A" "B" (Some {[ "B" := 50 ]})
    = Ok ["A"; "C"; "B"].
Proof. vm_cast_no_check (eq_refl (Ok ["A"; "C"; "B"])). Qed.


(** In the city grid no two-edge path joins the two ends of an edge.  With
    a queue of 50 at "0-1", the route from "0-0" to "0-1" leaves the direct
    edge (136 s) for the three edges around the block, 36 s each. *)
Lemma city_grid_detour :
  get_best_route "0-0" "0-1" (Some {[ "0-1" := 50 ]}) = Ok ["0-0"; "1-0"; "1-1"; "0-1"].
Proof. vm_cast_no_check (eq_refl (Ok ["0-0"; "1-0"; "1-1"; "0-1"])). Qed.

End detour_facts.

(** * Further properties of the code *)

(** ** Floors, rounding and the float remainder *)

Section number_facts.

Lemma Qfloor_unique (x : Q) (z : Z) :
  inject_Z z <= x → x < inject_Z z + 1 → Qfloor x = z.
Proof.
  intros Hl Hu. pose proof (Qfloor_le x) as Hf. pose proof (Qlt_floor x) as Hf'.
  rewrite inject_Z_plus in Hf'. change (inject_Z 1) with 1 in Hf'.
  assert (z < Qfloor x + 1)%Z.
  { rewrite Zlt_Qlt, inject_Z_plus. change (inject_Z 1) with 1. lra. }
  assert (Qfloor x < z + 1)%Z.
  { rewrite Zlt_Qlt, inject_Z_plus. change (inject_Z 1) with 1. lra. }
  lia.
Qed.


(** [round] leaves an integer alone. *)
Lemma round_inject_Z (x : Q) (z : Z) : x == inject_Z z → Py.round x = z.
Proof.
  intros Hx. unfold Py.round.
  assert (Qfloor x = z) as -> by (apply Qfloor_unique; lra).
  assert (Py.ltb (x - inject_Z z) (1 # 2) = true) as -> by (apply ltb_lt; lra).
  done.
Qed.

(** [round] does not leave an interval with integer ends. *)
Lemma round_between (x : Q) (a b : Z) :
  inject_Z a <= x → x <= inject_Z b → (a ≤ Py.round x ≤ b)%Z.
Proof.
  intros Ha Hb. pose proof (Qfloor_le x) as Hf. pose proof (Qlt_floor x) as Hf'.
  rewrite inject_Z_plus in Hf'. change (inject_Z 1) with 1 in Hf'.
  assert (a < Qfloor x + 1)%Z.
  { rewrite Zlt_Qlt, inject_Z_plus. change (inject_Z 1) with 1. lra. }
  assert (Qfloor x ≤ b)%Z by (rewrite Zle_Qle; lra).
  unfold Py.round.
  destruct (Py.ltb (x - inject_Z (Qfloor x)) (1 # 2)) eqn:E1; [lia|].
  apply ltb_ge in E1.
  assert (Qfloor x < b)%Z by (rewrite Zlt_Qlt; lra).
  destruct (Py.ltb _ _); [lia|]. destruct (Z.even _); lia.
Qed.

Lemma fmod_range (x m : Q) : 0 < m → 0 <= Py.fmod x m ∧ Py.fmod x m < m.
Proof.
  intros Hm. unfold Py.fmod.
  pose proof (Qfloor_le (x / m)) as Hf. pose proof (Qlt_floor (x / m)) as Hf'.
  rewrite inject_Z_plus in Hf'. change (inject_Z 1) with 1 in Hf'.
  assert (Hd : x == m * (x / m)) by (field; lra).
  set (q := x / m) in *. set (f := inject_Z (Qfloor q)) in *.
  assert (0 <= m * (q - f)) by (apply Qmult_le_0_compat; lra).
  assert (m * (q - f) < m * 1) by (apply Qmult_lt_l; lra).
  split; lra.
Qed.



End number_facts.

(** ** Corridor simulation, continued *)

Section corridor_more.

Import Corridor CorridorRun CorridorDelay.





(** *** Cumulative delay *)

Lemma baseline_update_delay (t arrivals : Q) (i : Z) (bs : NodeState) :
  0 <= arrivals → 0 <= queue bs → delay_grows bs (baseline_update t arrivals i bs).
Proof.
  intros Ha Hq. unfold baseline_update, delay_grows, DT.
  destruct (String.eqb _ "GREEN"); [simpl; lra|].
  destruct (String.eqb _ "RED"); simpl; lra.
Qed.

Lemma optimized_update_delay (t arrivals : Q) (i : Z) (os : NodeState) :
  0 <= arrivals → 0 <= queue os → delay_grows os (optimized_update t arrivals i os).
Proof.
  intros Ha Hq. unfold optimized_update, delay_grows, DT.
  destruct (String.eqb _ "GREEN"); [simpl; lra|].
  destruct (String.eqb _ "RED"); simpl; lra.
Qed.

Lemma imap_delay_grows (f : nat → NodeState → NodeState) (l : list NodeState) :
  (∀ k s, 0 <= queue s → delay_grows s (f k s)) →
  queues_nonneg l → Forall2 delay_grows l (imap f l).
Proof.
  intros Hf Hl. revert f Hf. induction Hl as [|s l Hs Hl IH]; intros f Hf; simpl.
  - constructor.
  - constructor; [by apply Hf|]. apply IH. intros k. apply Hf.
Qed.

Lemma tick_delay_grows (sin : Q → Q) (pi : Q) (n : Z) (st : Sim) :
  (∀ t, 0 <= arrival_rate sin pi t) →
  length (baseline_states st) = length (optimized_states st) →
  queues_nonneg (baseline_states st) → queues_nonneg (optimized_states st) →
  Forall2 delay_grows (baseline_states st) (baseline_states (tick sin pi n st)) ∧
  Forall2 delay_grows (optimized_states st) (optimized_states (tick sin pi n st)).
Proof.
  intros Harr Hlen Hb Ho. unfold tick.
  pose proof (sweep_spec (t st) (arrival_rate sin pi (t st) * DT) _ _ Hlen 0
    {| b_total_q := 0; b_total_d := 0; o_total_q := 0; o_total_d := 0 |}) as [Eb Eo].
  destruct (sweep _ _ _ _ _ _) as [[bss oss] tot]. simpl in *. subst bss oss.
  assert (Ha : 0 <= arrival_rate sin pi (t st) * DT).
  { specialize (Harr (t st)). unfold DT. lra. }
  split.
  - apply imap_delay_grows; [|done]. intros k s. by apply baseline_update_delay.
  - apply imap_delay_grows; [|done]. intros k s. by apply optimized_update_delay.
Qed.

Lemma delays_nonneg_grow (l l' : list NodeState) :
  delays_nonneg l → Forall2 delay_grows l l' → delays_nonneg l'.
Proof.
  intros Hl H. induction H as [|s s' l l' Hs H IH]; [constructor|].
  inversion Hl; subst. constructor; [unfold delay_grows in Hs; lra | by apply IH].
Qed.

Lemma reaches_invariant (sin : Q → Q) (pi duration_s : Q) (st : Sim) :
  (∀ t, 0 <= arrival_rate sin pi t) →
  reaches sin pi duration_s st →
  length (baseline_states st) = length (optimized_states st) ∧
  queues_nonneg (baseline_states st) ∧ queues_nonneg (optimized_states st) ∧
  delays_nonneg (baseline_states st) ∧ delays_nonneg (optimized_states st).
Proof.
  intros Harr. induction 1 as [|st Hst IH Hle].
  - simpl. repeat split; repeat constructor; simpl; lra.
  - destruct IH as (Len & Qb & Qo & Db & Do).
    destruct (tick_invariant sin pi Harr (Z.of_nat (length CORRIDOR)) st)
      as (Lb' & Lo' & Qb' & Qo'); [done..|].
    destruct (tick_delay_grows sin pi (Z.of_nat (length CORRIDOR)) st Harr)
      as [Gb Go]; [done..|].
    repeat split; [congruence | done | done | |].
    + by apply (delays_nonneg_grow (baseline_states st)).
    + by apply (delays_nonneg_grow (optimized_states st)).
Qed.

(** X3. The cumulative delay of an intersection never goes down: at every
    state the loop of [run_comparison] passes through all cumulative
    delays are ≥ 0, and one more pass of the loop body leaves each
    intersection, under either plan, with a delay at least as large as
    before, provided the arrival rate is never negative. *)
Theorem cumulative_delay_never_decreases (sin : Q → Q) (pi duration_s : Q) (st : Sim) :
  (∀ t, 0 <= arrival_rate sin pi t) →
  reaches sin pi duration_s st →
  let st' := tick sin pi (Z.of_nat (length CORRIDOR)) st in
  delays_nonneg (baseline_states st) ∧ delays_nonneg (optimized_states st) ∧
  Forall2 delay_grows (baseline_states st) (baseline_states st') ∧
  Forall2 delay_grows (optimized_states st) (optimized_states st').
Proof.
  intros Harr Hst st'.
  destruct (reaches_invariant sin pi duration_s st Harr Hst) as (Len & Qb & Qo & Db & Do).
  destruct (tick_delay_grows sin pi (Z.of_nat (length CORRIDOR)) st Harr)
    as [Gb Go]; [done..|].
  done.
Qed.

Lemma cumulative_delay_never_decreases_witness :
  let st := tick sin_approx pi_approx (Z.of_nat (length CORRIDOR)) (init (length CORRIDOR)) in
  let st' := tick sin_approx pi_approx (Z.of_nat (length CORRIDOR)) st in
  ((∀ t, 0 <= arrival_rate sin_approx pi_approx t) ∧
   reaches sin_approx pi_approx 300 st) ∧
  delays_nonneg (baseline_states st) ∧ delays_nonneg (optimized_states st) ∧
  Forall2 delay_grows (baseline_states st) (baseline_states st') ∧
  Forall2 delay_grows (optimized_states st) (optimized_states st').
Proof.
  intros st st'.
  assert (Ha : ∀ t, 0 <= arrival_rate sin_approx pi_approx t).
  { apply arrival_rate_nonneg, sin_approx_range. }
  assert (Hr : reaches sin_approx pi_approx 300 st).
  { apply reaches_tick; [apply reaches_init | reflexivity]. }
  split; [by split|].
  exact (cumulative_delay_never_decreases sin_approx pi_approx 300 st Ha Hr).
Defined.



(** *** How many records a run yields *)

Lemma tick_times_replay_times (fuel : nat) (duration_s t : Q) :
  tick_times fuel duration_s t = SpatRun.replay_times fuel DT duration_s t.
Proof.
  revert t. induction fuel as [|fuel IH]; intros t; simpl; [done|].
  by rewrite IH.
Qed.

(** The times of a loop [t = 0; while t <= d: ...; t += step] are the
    multiples of the step up to [d]. *)
Lemma replay_times_multiples (step_s d : Q) (m k fuel : nat) (t : Q) :
  0 < step_s → 0 <= d →
  t == inject_Z (Z.of_nat k) * step_s →
  (k + m = Z.to_nat (Qfloor (d / step_s)) + 1)%nat →
  (m ≤ fuel)%nat →
  Forall2 (fun t j => t == inject_Z (Z.of_nat j) * step_s)
    (SpatRun.replay_times fuel step_s d t) (seq k m).
Proof.
  intros Hstep Hd.
  pose proof (Qfloor_le (d / step_s)) as Hf. pose proof (Qlt_floor (d / step_s)) as Hf'.
  rewrite inject_Z_plus in Hf'. change (inject_Z 1) with 1 in Hf'.
  assert (Hq : d == step_s * (d / step_s)) by (field; lra).
  assert (H0 : (0 ≤ Qfloor (d / step_s))%Z).
  { change 0%Z with (Qfloor 0). apply Qfloor_resp_le.
    apply Qle_shift_div_l; lra. }
  set (N := Qfloor (d / step_s)) in *. set (q := d / step_s) in *.
  revert k fuel t. induction m as [|m IH]; intros k fuel t Ht Hk Hfuel.
  - simpl. assert (Ek : Z.of_nat k = (N + 1)%Z) by lia.
    assert (Hlt : d < t).
    { rewrite Ht, Ek, inject_Z_plus. change (inject_Z 1) with 1.
      assert (step_s * q < step_s * (inject_Z N + 1)) by (apply Qmult_lt_l; lra).
      lra. }
    assert (Qle_bool t d = false) as E.
    { destruct (Qle_bool t d) eqn:E; [|done]. apply Qle_bool_iff in E. exfalso. lra. }
    destruct fuel; simpl; rewrite E; constructor.
  - destruct fuel as [|fuel]; [lia|]. simpl.
    assert (Hle : t <= d).
    { assert (Hk' : (Z.of_nat k ≤ N)%Z) by lia.
      rewrite Zle_Qle in Hk'. rewrite Ht.
      assert (step_s * inject_Z (Z.of_nat k) <= step_s * q)
        by (apply Qmult_le_l; lra).
      lra. }
    assert (Qle_bool t d = true) as -> by (by apply Qle_bool_iff).
    constructor; [done|]. apply IH; [|lia|lia].
    rewrite Ht, Nat2Z.inj_succ, <- Z.add_1_r, inject_Z_plus.
    change (inject_Z 1) with 1. ring.
Qed.

Lemma round_multiples (l : list Q) (k m : nat) :
  Forall2 (fun t j => t == inject_Z (Z.of_nat j) * DT) l (seq k m) →
  Py.round <$> l = (fun j => (5 * Z.of_nat j)%Z) <$> seq k m.
Proof.
  generalize (seq k m). intros js H. induction H as [|t j l js Ht H IH]; [done|].
  simpl. f_equal; [|done]. apply round_inject_Z.
  rewrite Ht, inject_Z_mult. unfold DT. change (inject_Z 5) with 5. ring.
Qed.

(** The records of a run of [duration_s ≥ 0]. *)
Lemma run_comparison_series (sin : Q → Q) (pi duration_s : Q) (fuel : nat) :
  0 <= duration_s →
  let n := (Z.to_nat (Qfloor (duration_s / 5)) + 1)%nat in
  (n < fuel)%nat →
  ∃ c,
    run_comparison sin pi fuel duration_s = Some (Ok c) ∧
    Corridor.duration_s c = duration_s ∧
    length (baseline c) = n ∧
    length (optimized c) = n ∧
    time_s <$> baseline c = (fun k => (5 * Z.of_nat k)%Z) <$> seq 0 n ∧
    time_s <$> optimized c = (fun k => (5 * Z.of_nat k)%Z) <$> seq 0 n.
Proof.
  intros Hd n Hfuel.
  pose proof (replay_times_multiples DT duration_s n 0 fuel 0) as Hm.
  rewrite <- tick_times_replay_times in Hm.
  specialize (Hm ltac:(done) Hd ltac:(simpl; ring) eq_refl ltac:(lia)).
  pose proof (round_multiples _ _ _ Hm) as Hr.
  destruct (run_loop_times sin pi duration_s (Z.of_nat (length CORRIDOR)) fuel
              (init (length CORRIDOR))) as (st & Hrun & Hb & Ho).
  { change (t (init (length CORRIDOR))) with 0.
    rewrite (Forall2_length _ _ _ Hm), length_seq. done. }
  change (t (init (length CORRIDOR))) with 0 in Hb, Ho.
  rewrite Hr in Hb, Ho.
  change (time_s <$> baseline_series (init (length CORRIDOR))) with (@nil Z) in Hb.
  change (time_s <$> optimized_series (init (length CORRIDOR))) with (@nil Z) in Ho.
  rewrite app_nil_l in Hb, Ho.
  assert (Lb : length (baseline_series st) = n).
  { rewrite <- (length_fmap time_s), Hb. by rewrite length_fmap, length_seq. }
  assert (Lo : length (optimized_series st) = n).
  { rewrite <- (length_fmap time_s), Ho. by rewrite length_fmap, length_seq. }
  unfold run_comparison. rewrite Hrun.
  change (summarize duration_s <$> Some st) with (Some (summarize duration_s st)).
  unfold summarize.
  destruct (last (baseline_series st)) as [b|] eqn:Eb.
  2:{ apply last_None in Eb. rewrite Eb in Lb. simpl in Lb. lia. }
  destruct (last (optimized_series st)) as [o|] eqn:Eo.
  2:{ apply last_None in Eo. rewrite Eo in Lo. simpl in Lo. lia. }
  eexists. split; [reflexivity|].
  cbn [baseline optimized Corridor.duration_s].
  repeat split; assumption.
Qed.

(** X5. For a duration [d ≥ 0], [run_comparison] returns a result whose
    two series each hold [floor(d / 5) + 1] records, stamped 0, 5, 10, …
    in this order, for any fuel above that number. *)
Theorem run_comparison_record_count (sin : Q → Q) (pi duration_s : Q) (fuel : nat) :
  0 <= duration_s →
  let n := (Z.to_nat (Qfloor (duration_s / 5)) + 1)%nat in
  (n < fuel)%nat →
  ∃ c,
    run_comparison sin pi fuel duration_s = Some (Ok c) ∧
    length (baseline c) = n ∧
    length (optimized c) = n ∧
    time_s <$> baseline c = (fun k => (5 * Z.of_nat k)%Z) <$> seq 0 n ∧
    time_s <$> optimized c = (fun k => (5 * Z.of_nat k)%Z) <$> seq 0 n.
Proof.
  intros Hd n Hfuel.
  destruct (run_comparison_series sin pi duration_s fuel Hd Hfuel)
    as (c & Hrun & _ & Hrest).
  by exists c.
Qed.

Lemma run_comparison_record_count_witness :
  0 <= 12 ∧ (3 < 4)%nat ∧
  ∃ c,
    run_comparison sin_approx pi_approx 4 12 = Some (Ok c) ∧
    length (baseline c) = 3%nat ∧
    length (optimized c) = 3%nat ∧
    time_s <$> baseline c = (fun k => (5 * Z.of_nat k)%Z) <$> seq 0 3 ∧
    time_s <$> optimized c = (fun k => (5 * Z.of_nat k)%Z) <$> seq 0 3.
Proof.
  split; [lra|]. split; [lia|].
  apply (run_comparison_record_count sin_approx pi_approx 12 4); [lra | simpl; lia].
Defined.

(** X6. With a negative duration the loop body never runs, both series
    stay empty and [run_comparison] raises [IndexError] at
    [baseline_series[-1]], whatever the fuel. *)
Theorem run_comparison_negative_duration (sin : Q → Q) (pi duration_s : Q) (fuel : nat) :
  duration_s < 0 →
  run_comparison sin pi fuel duration_s = Some (Raise IndexError).
Proof.
  intros Hd. unfold run_comparison.
  assert (E : Qle_bool (t (init (length CORRIDOR))) duration_s = false).
  { destruct (Qle_bool _ _) eqn:E; [|done]. apply Qle_bool_iff in E.
    change (t (init (length CORRIDOR))) with 0 in E. exfalso. lra. }
  assert (run_loop sin pi fuel (Z.of_nat (length CORRIDOR)) duration_s
            (init (length CORRIDOR)) = Some (init (length CORRIDOR))) as ->.
  { destruct fuel; cbn [run_loop]; by rewrite E. }
  done.
Qed.

Lemma run_comparison_negative_duration_witness :
  -1 < 0 ∧ run_comparison sin_approx pi_approx 0 (-1) = Some (Raise IndexError).
Proof.
  split; [lra | apply run_comparison_negative_duration; lra].
Defined.

End corridor_more.

(** ** SPaT replay engine, continued *)

Section spat_more.

Import Spat SpatRun SpatOrder SpatTimeline.

(** *** The sort of [load] *)








Section WithFloat.

Variable float : string → option Q.




End WithFloat.



(** *** The timeline *)

Lemma int_small_negative (d : Q) : -1 < d → d < 0 → Py.int d = 0%Z.
Proof.
  destruct d as [n p]. unfold Qlt, Py.int. simpl. intros H1 H2.
  apply Z.quot_small_iff; lia.
Qed.

Lemma int_le_minus_one (d : Q) : d <= -1 → (Py.int d ≤ -1)%Z.
Proof.
  destruct d as [n p]. unfold Qle, Py.int. simpl. intros H.
  assert (Hq : (1 ≤ (- n) ÷ Z.pos p)%Z).
  { rewrite Z.quot_div_nonneg by lia. apply Z.div_le_lower_bound; lia. }
  rewrite Z.quot_opp_l in Hq by lia. lia.
Qed.

(** X9. On a loaded engine [build_timeline] makes one entry for every
    multiple of 5 from 0 to the duration [d ≥ 0], that is
    [floor(d) / 5 + 1] entries in ascending order, none later than [d],
    each holding what [get_state_at] gives at its time.  For
    [-1 < d < 0] the truncation of [int] still gives the one entry at
    time 0, past the duration; for [d ≤ -1] the timeline is empty. *)
Theorem build_timeline_entries (float : string → option Q) (file : option (list Row))
    (eng : SpatEngine.t) :
  SpatEngine.loaded eng = true →
  let d := SpatEngine.duration_s eng in
  ∃ tl,
    build_timeline float file eng = (eng, Ok tl) ∧
    Forall (fun e => states e = get_state_at eng (inject_Z (time_s e))) tl ∧
    (0 <= d →
     time_s <$> tl =
       (fun k => (5 * Z.of_nat k)%Z) <$> seq 0 (Z.to_nat (Qfloor d / 5) + 1) ∧
     Forall (fun e => inject_Z (time_s e) <= d) tl) ∧
    (-1 < d → d < 0 → time_s <$> tl = [0%Z]) ∧
    (d <= -1 → tl = []).
Proof.
  intros Hloaded d. unfold build_timeline. rewrite Hloaded.
  eexists. split; [reflexivity|]. fold d.
  unfold PyRange.range.
  replace (Py.int d + 1 - 0 + 5 - 1)%Z with (Py.int d + 1 * 5)%Z by lia.
  rewrite Z.div_add by lia.
  split; [|split; [|split]].
  - apply Forall_fmap, Forall_forall. intros t _. done.
  - intros Hd. rewrite (int_floor d Hd).
    assert (H0 : (0 ≤ Qfloor d)%Z).
    { change 0%Z with (Qfloor 0). by apply Qfloor_resp_le. }
    assert (H5 : (0 ≤ Qfloor d / 5)%Z) by (apply Z.div_pos; lia).
    rewrite Z2Nat.inj_add by lia. change (Z.to_nat 1) with 1%nat.
    split.
    + rewrite <- !list_fmap_compose. apply list_fmap_ext. intros i k _. simpl. lia.
    + rewrite Forall_fmap. apply Forall_fmap, Forall_forall. intros k Hk. simpl.
      apply elem_of_seq in Hk.
      pose proof (Z.mul_div_le (Qfloor d) 5 ltac:(lia)) as Hm.
      assert (Hz : (0 + 5 * Z.of_nat k ≤ Qfloor d)%Z) by lia.
      rewrite Zle_Qle in Hz. pose proof (Qfloor_le d). lra.
  - intros H1 H2. rewrite (int_small_negative d H1 H2). done.
  - intros H1. pose proof (int_le_minus_one d H1) as Hi.
    assert (Hz : (Py.int d / 5 + 1 ≤ 0)%Z).
    { pose proof (Z.div_lt_upper_bound (Py.int d) 5 0 ltac:(lia) ltac:(lia)). lia. }
    replace (Z.to_nat (Py.int d / 5 + 1)) with 0%nat by lia. done.
Qed.

Lemma build_timeline_entries_witness :
  let eng := (load parse_decimal
                (Some [row "0" "INT_0" "GREEN" "40"; row "40" "INT_0" "YELLOW" "5"])
                SpatEngine.new).1 in
  let d := SpatEngine.duration_s eng in
  SpatEngine.loaded eng = true ∧
  ∃ tl,
    build_timeline parse_decimal None eng = (eng, Ok tl) ∧
    Forall (fun e => states e = get_state_at eng (inject_Z (time_s e))) tl ∧
    (0 <= d →
     time_s <$> tl =
       (fun k => (5 * Z.of_nat k)%Z) <$> seq 0 (Z.to_nat (Qfloor d / 5) + 1) ∧
     Forall (fun e => inject_Z (time_s e) <= d) tl) ∧
    (-1 < d → d < 0 → time_s <$> tl = [0%Z]) ∧
    (d <= -1 → tl = []).
Proof.
  intros eng d.
  assert (Hl : SpatEngine.loaded eng = true) by (by vm_compute).
  split; [exact Hl|].
  exact (build_timeline_entries parse_decimal None eng Hl).
Defined.

(** *** Replay *)



Lemma round_to_percent (x : Q) : 0 <= x → x <= 100 → 0 <= Py.round_to x 1 <= 100.
Proof.
  intros H0 H1. unfold Py.round_to.
  change (inject_Z (10 ^ Z.of_nat 1)) with 10.
  destruct (round_between (x * 10) 0 1000) as [Ha Hb].
  { change (inject_Z 0) with 0. lra. }
  { change (inject_Z 1000) with 1000. lra. }
  rewrite Zle_Qle in Ha, Hb.
  change (inject_Z 0) with 0 in Ha. change (inject_Z 1000) with 1000 in Hb.
  split.
  - apply Qle_shift_div_l; lra.
  - apply Qle_shift_div_r; lra.
Qed.

(** Where a replay that ran to its end leaves the engine. *)
Lemma replay_loop_final (fuel : nat) (step_s sleep_time t : Q) (eng : SpatEngine.t)
    (snaps : list Snapshot.t) (eng' : SpatEngine.t) :
  0 <= step_s →
  replay_loop fuel step_s sleep_time t eng = (snaps, eng', Exhausted) →
  (snaps = [] ∧ eng' = eng) ∨
  ∃ t', t <= t' ∧ t' <= SpatEngine.duration_s eng ∧
        ¬ SpatEngine.duration_s eng == 0 ∧
        last snaps = Some (snapshot_at eng t') ∧
        eng' = SpatEngine.set_current t' (get_state_at eng t') eng.
Proof.
  intros Hstep. revert t eng snaps.
  induction fuel as [|fuel IH]; intros t eng snaps; cbn [replay_loop];
    destruct (Qle_bool t (SpatEngine.duration_s eng)) eqn:E;
    intros Hrun; simplify_eq; try (by left).
  apply Qle_bool_iff in E.
  cbn [SpatEngine.duration_s SpatEngine.set_current] in Hrun.
  unfold Py.div in Hrun.
  destruct (Qeq_bool (SpatEngine.duration_s eng) 0) eqn:Ez; [done|].
  destruct (Py.ltb sleep_time 0); [done|].
  destruct (replay_loop fuel step_s sleep_time (t + step_s) _)
    as [[snaps1 eng1] stop1] eqn:Erec.
  simplify_eq. right.
  assert (Hnz : ¬ SpatEngine.duration_s eng == 0).
  { intros Hz. apply Qeq_bool_iff in Hz. congruence. }
  destruct (IH _ _ _ Erec) as [[-> ->] | (t' & Ht & Ht' & _ & Hlast & ->)].
  - exists t. split; [lra|]. split; [done|]. split; [done|]. split; done.
  - exists t'. cbn [SpatEngine.duration_s] in Ht'.
    split; [lra|]. split; [done|]. split; [done|]. split; [|done].
    destruct snaps1 as [|s1 snaps1]; [done|].
    rewrite last_cons_cons. exact Hlast.
Qed.

(** X11. After a replay that ran to its end, [get_snapshot] shows what
    the last snapshot yielded showed: the same states, duration and
    progress, and the time that snapshot gave rounded to one decimal; the
    progress lies between 0 and 100. *)
Theorem snapshot_after_replay (float : string → option Q) (fuel : nat)
    (file : option (list Row)) (speed step_s : Q) (eng eng' : SpatEngine.t)
    (snaps : list Snapshot.t) (s : Snapshot.t) :
  0 <= step_s →
  replay float fuel file speed step_s eng = (snaps, eng', Exhausted) →
  last snaps = Some s →
  let now := get_snapshot eng' in
  Snapshot.states now = Snapshot.states s ∧
  Snapshot.duration_s now = Snapshot.duration_s s ∧
  Snapshot.progress now = Snapshot.progress s ∧
  Py.round_to (Snapshot.time_s now) 1 = Snapshot.time_s s ∧
  0 <= Snapshot.progress s <= 100.
Proof.
  intros Hstep Hrun Hlast. unfold replay in Hrun.
  destruct (if SpatEngine.loaded eng then (eng, Ok ()) else load float file eng)
    as [eng0 [[]|e]]; [|done].
  destruct (Py.div step_s speed) as [sleep_time|e]; [|done].
  destruct (replay_loop_final _ _ _ _ _ _ _ Hstep Hrun)
    as [[-> _] | (t' & Ht0 & Ht' & Hnz & Hl & ->)]; [done|].
  rewrite Hlast in Hl. simplify_eq.
  unfold get_snapshot, snapshot_at.
  cbn [SpatEngine.duration_s SpatEngine.current_time SpatEngine.current_state
       SpatEngine.set_current Snapshot.states Snapshot.duration_s Snapshot.progress
       Snapshot.time_s].
  assert (Qeq_bool (SpatEngine.duration_s eng0) 0 = false) as ->.
  { destruct (Qeq_bool _ _) eqn:Ez; [|done]. by apply Qeq_bool_iff in Ez. }
  assert (Hpos : 0 < SpatEngine.duration_s eng0) by lra.
  assert (0 <= t' / SpatEngine.duration_s eng0) by (apply Qle_shift_div_l; lra).
  assert (t' / SpatEngine.duration_s eng0 <= 1) by (apply Qle_shift_div_r; lra).
  split; [done|]. split; [done|]. split; [done|]. split; [done|].
  apply round_to_percent; lra.
Qed.

Lemma snapshot_after_replay_witness :
  let eng := (load parse_decimal
                (Some [row "0" "INT_0" "GREEN" "40"; row "40" "INT_0" "YELLOW" "5"])
                SpatEngine.new).1 in
  let '(snaps, eng', stop) := replay parse_decimal 6 None 2 10 eng in
  ∃ s,
    (0 <= 10 ∧ stop = Exhausted ∧ last snaps = Some s) ∧
    Snapshot.states (get_snapshot eng') = Snapshot.states s ∧
    Snapshot.duration_s (get_snapshot eng') = Snapshot.duration_s s ∧
    Snapshot.progress (get_snapshot eng') = Snapshot.progress s ∧
    Py.round_to (Snapshot.time_s (get_snapshot eng')) 1 = Snapshot.time_s s ∧
    0 <= Snapshot.progress s <= 100.
Proof.
  intros eng.
  destruct (replay parse_decimal 6 None 2 10 eng) as [[snaps eng'] stop] eqn:Erun.
  assert (Hstop : stop = Exhausted).
  { apply (f_equal snd) in Erun. simpl in Erun. rewrite <- Erun.
    vm_cast_no_check (eq_refl Exhausted). }
  subst stop.
  assert (Hlast : is_Some (last snaps)).
  { apply (f_equal (fun r => bool_decide (is_Some (last r.1.1)))) in Erun.
    simpl in Erun. apply (bool_decide_unpack _). rewrite <- Erun.
    vm_cast_no_check I. }
  destruct Hlast as [s Hlast]. exists s.
  split; [split; [lra | split; [reflexivity | exact Hlast]]|].
  apply (snapshot_after_replay parse_decimal 6 None 2 10 eng eng' snaps s);
    [lra | exact Erun | exact Hlast].
Defined.

(** *** The engine singleton *)

Lemma read_rows_loaded (float : string → option Q) (rows : list Row) (eng : SpatEngine.t) :
  SpatEngine.loaded (read_rows float rows eng).1 = SpatEngine.loaded eng.
Proof.
  pose proof (read_rows_spec float rows eng) as H.
  destruct (parse_rows float rows).
  - by rewrite H.
  - destruct H as (? & ? & ? & ? & _ & _ & _ & ->). done.
Qed.

Lemma load_raises_unloaded (float : string → option Q) (file : option (list Row))
    (eng eng' : SpatEngine.t) (e : exn) :
  load float file eng = (eng', Raise e) → SpatEngine.loaded eng' = SpatEngine.loaded eng.
Proof.
  unfold load. destruct file as [rows|]; [|by intros; simplify_eq].
  pose proof (read_rows_loaded float rows (SpatEngine.set_events [] eng)) as H.
  destruct (read_rows _ _ _) as [eng1 [[]|e1]]; intros; simplify_eq. done.
Qed.

(** X12. [get_engine] makes its engine once.  The first call stores an
    engine for [csv_path] (for the sample file when the path is missing or
    empty) before it loads it, so the engine is stored also when the load
    raises, and is then not marked loaded.  Every later call returns the
    stored engine without loading anything, whatever path it is given. *)
Theorem get_engine_keeps_first_engine (float : string → option Q) (sample_spat : string)
    (fs : string → option (list Row)) (csv_path csv_path' : option string) :
  ∃ eng,
    let stored := Some (path_or_default csv_path sample_spat, eng) in
    let first := get_engine float sample_spat fs csv_path None in
    first.1 = stored ∧
    (first.2 = Ok (path_or_default csv_path sample_spat, eng) ∨
     ∃ e, first.2 = Raise e ∧ SpatEngine.loaded eng = false) ∧
    get_engine float sample_spat fs csv_path' stored =
      (stored, Ok (path_or_default csv_path sample_spat, eng)).
Proof.
  unfold get_engine.
  destruct (load float (fs (path_or_default csv_path sample_spat)) SpatEngine.new)
    as [eng [[]|e]] eqn:El; exists eng; simpl.
  - split; [done|]. split; [by left | done].
  - split; [done|]. split; [|done]. right. exists e. split; [done|].
    by rewrite (load_raises_unloaded _ _ _ _ _ El).
Qed.

End spat_more.

(** ** Routing, continued *)

Section routing_more.

Import Nx NxRun Routing RoutingRun RouteCheck GreenWave.


(** *** The route returned is a least one *)

Section undirected.

Context {N : Type} `{Countable N}.

Lemma adj_link (G : Graph N) (u v : N) (data : gmap string Q) :
  (v, data) ∈ adj G u → ∃ l, l ∈ links G ∧ joins u v l = true ∧ l.2 = data.
Proof.
  unfold adj. intros (l & Hl & Hsome)%list_elem_of_omap. exists l.
  split; [done|]. unfold joins. apply and_comm.
  destruct (decide (l.1.1 = u)) as [H1|H1]; [|destruct (decide (l.1.2 = u)) as [H2|H2]];
    [| |done]; injection Hsome as Hv Hd; (split; [done|]); apply orb_true_iff.
  - left. by apply bool_decide_eq_true.
  - right. by apply bool_decide_eq_true.
Qed.

Lemma adj_sym (G : Graph N) (u v : N) (data : gmap string Q) :
  (v, data) ∈ adj G u → (u, data) ∈ adj G v.
Proof.
  unfold adj. intros (l & Hl & Hsome)%list_elem_of_omap.
  apply list_elem_of_omap. exists l. split; [done|].
  destruct (decide (l.1.1 = u)) as [H1|H1]; [|destruct (decide (l.1.2 = u)) as [H2|H2]];
    [| |done]; injection Hsome as Hv Hd.
  - destruct (decide (l.1.1 = v)) as [H3|H3]; [by rewrite Hv, <- H3, H1, Hd|].
    rewrite decide_True by done. by rewrite H1, Hd.
  - rewrite decide_True by done. by rewrite H2, Hd.
Qed.

Lemma edges_from_adj (G : Graph N) (ns seen : list N)
    (x : N * N * gmap string Q) :
  x ∈ edges_from G ns seen → (x.1.2, x.2) ∈ adj G x.1.1.
Proof.
  revert seen. induction ns as [|n ns IH]; intros seen; simpl; [by intros ?%elem_of_nil|].
  rewrite elem_of_app. intros [Hx | Hx]; [|by eapply IH].
  apply list_elem_of_fmap in Hx as ([v data] & -> & Hin).
  apply list_elem_of_filter in Hin as [_ Hin]. done.
Qed.

Lemma edges_link (G : Graph N) (e : N * N) :
  e ∈ edges G → ∃ l, l ∈ links G ∧ joins e.1 e.2 l = true.
Proof.
  unfold edges, edges_data. intros (x & -> & Hx)%list_elem_of_fmap.
  apply edges_from_adj, adj_link in Hx as (l & Hl & Hj & _). by exists l.
Qed.

(** Every stored edge is reported by [G.edges()], from the end that
    comes first among the nodes. *)
Lemma edges_from_covers (G : Graph N) (l : N * N * gmap string Q) (ns seen : list N) :
  l ∈ links G → l.1.1 ∈ ns ∨ l.1.2 ∈ ns → l.1.1 ∉ seen → l.1.2 ∉ seen →
  ∃ x, x ∈ edges_from G ns seen ∧ joins x.1.1 x.1.2 l = true ∧ x.2 = l.2.
Proof.
  intros Hl. revert seen. induction ns as [|n ns IH]; intros seen Hin H1 H2.
  { destruct Hin as [Hin|Hin]; by apply elem_of_nil in Hin. }
  cbn [edges_from].
  destruct (decide (l.1.1 = n)) as [E1|E1]; [|destruct (decide (l.1.2 = n)) as [E2|E2]].
  - exists (n, l.1.2, l.2). split; [|split; [|done]].
    + apply elem_of_app. left. apply list_elem_of_fmap. exists (l.1.2, l.2).
      split; [done|]. apply list_elem_of_filter. split; [done|].
      unfold adj. apply list_elem_of_omap. exists l. split; [done|].
      by rewrite decide_True.
    + unfold joins. simpl. apply orb_true_iff. left. by apply bool_decide_eq_true.
  - exists (n, l.1.1, l.2). split; [|split; [|done]].
    + apply elem_of_app. left. apply list_elem_of_fmap. exists (l.1.1, l.2).
      split; [done|]. apply list_elem_of_filter. split; [done|].
      unfold adj. apply list_elem_of_omap. exists l. split; [done|].
      rewrite decide_False by done. by rewrite decide_True.
    + unfold joins. simpl. apply orb_true_iff. right. by apply bool_decide_eq_true.
  - destruct (IH (n :: seen)) as (x & Hx & Hj).
    + destruct Hin as [Hin|Hin]; apply elem_of_cons in Hin as [?|?]; try done; auto.
    + intros [?|?]%elem_of_cons; done.
    + intros [?|?]%elem_of_cons; done.
    + exists x. split; [|done]. apply elem_of_app. by right.
Qed.

Lemma edges_cover (G : Graph N) (l : N * N * gmap string Q) :
  l ∈ links G → l.1.1 ∈ node_ids G →
  ∃ e, e ∈ edges G ∧ joins e.1 e.2 l = true.
Proof.
  intros Hl Hn.
  destruct (edges_from_covers G l (node_ids G) []) as (x & Hx & Hj & _);
    [done | by left | apply not_elem_of_nil | apply not_elem_of_nil |].
  exists x.1. split; [|done]. unfold edges, edges_data. by apply list_elem_of_fmap_2.
Qed.

Lemma joins_iff (u v : N) (l : N * N * gmap string Q) :
  joins u v l = true ↔ (l.1.1 = u ∧ l.1.2 = v) ∨ (l.1.1 = v ∧ l.1.2 = u).
Proof.
  unfold joins. by rewrite orb_true_iff, !bool_decide_eq_true.
Qed.

Lemma link_adj (G : Graph N) (u v : N) (l : N * N * gmap string Q) :
  l ∈ links G → joins u v l = true → (v, l.2) ∈ adj G u.
Proof.
  intros Hl Hj. apply joins_iff in Hj. unfold adj. apply list_elem_of_omap.
  exists l. split; [done|]. destruct Hj as [[E1 E2] | [E1 E2]].
  - rewrite decide_True by done. by rewrite E2.
  - destruct (decide (l.1.1 = u)) as [E|E]; [by rewrite E2, <- E, E1|].
    rewrite decide_True by done. by rewrite E1.
Qed.

End undirected.

Lemma edge_attr_link (G : Graph string) (u v k : string) (x : Q) :
  edge_attr G u v k = Ok x → ∃ l, l ∈ links G ∧ l.2 !! k = Some x.
Proof.
  unfold edge_attr, edge_data.
  destruct (filter _ (links G)) as [|l ls] eqn:E; [done|].
  destruct (l.2 !! k) as [y|] eqn:Ey; [|done]. intros [= ->].
  exists l. split; [|done].
  assert (Hin : l ∈ filter (fun l => joins u v l = true) (links G)) by (rewrite E; left).
  by apply list_elem_of_filter in Hin as [_ Hin].
Qed.

Lemma edge_attr_found (G : Graph string) (u v k : string) :
  (∀ l, l ∈ links G → is_Some (l.2 !! k)) →
  (∃ l, l ∈ links G ∧ joins u v l = true) →
  ∃ x, edge_attr G u v k = Ok x.
Proof.
  intros Hall (l & Hl & Hj). unfold edge_attr, edge_data.
  destruct (filter _ (links G)) as [|l' ls] eqn:E.
  - assert (Hin : l ∈ filter (fun l => joins u v l = true) (links G))
      by (by apply list_elem_of_filter).
    rewrite E in Hin. by apply elem_of_nil in Hin.
  - assert (Hin : l' ∈ filter (fun l => joins u v l = true) (links G)) by (rewrite E; left).
    apply list_elem_of_filter in Hin as [_ Hin].
    destruct (Hall l' Hin) as [x ->]. by exists x.
Qed.

(** Writing a weight that is not negative keeps the edges in order. *)
Lemma set_weight_keeps (city G : Graph string) (u v : string) (x : Q) :
  0 <= x →
  same_roads city G ∧ Forall edge_ok (links G) →
  same_roads city (set_edge_attr G u v "current_weight" x) ∧
  Forall edge_ok (links (set_edge_attr G u v "current_weight" x)).
Proof.
  intros Hx [[Hn Hl] Hok]. unfold same_roads, set_edge_attr. simpl.
  split; [split; [done|]|].
  - rewrite <- Hl, <- list_fmap_compose. apply list_fmap_ext.
    intros i l _. simpl. by destruct (joins _ _ _).
  - apply Forall_fmap. eapply Forall_impl; [exact Hok|].
    intros l Hedge. simpl. destruct (joins _ _ _); [|done].
    destruct Hedge as [(b & Hb & Hb0) Hw].
    split; simpl.
    + exists b. by rewrite lookup_insert_ne.
    + by rewrite lookup_insert_eq.
Qed.

Lemma update_weights_keeps (city G : Graph string) (traffic_data : option (gmap string Q)) :
  update_weights city traffic_data = Ok G →
  Forall edge_ok (links city) →
  queues_nonneg traffic_data →
  same_roads city G ∧ Forall edge_ok (links G).
Proof.
  intros Hrun Hok Hq. unfold update_weights in Hrun.
  assert (Hbase : ∀ (a : Graph string) (u v : string) (weight : Q),
            Forall edge_ok (links a) → edge_attr a u v "base_time" = Ok weight →
            0 <= weight).
  { intros a u v weight Ha (l & Hl & Hb)%edge_attr_link.
    rewrite Forall_forall in Ha. destruct (Ha l Hl) as [(b & Hb' & Hb0) _].
    congruence. }
  destruct (truthy traffic_data);
    apply (for_each_invariant
             (fun a => same_roads city a ∧ Forall edge_ok (links a)) _ _) in Hrun;
    try done.
  - intros a [u v] a' Ha _.
    destruct (edge_attr a u v "base_time") as [weight|] eqn:E; simpl; [|done].
    intros [= <-]. apply set_weight_keeps; [|done].
    pose proof (Hbase a u v weight (proj2 Ha) E) as Hw.
    destruct (default ∅ traffic_data !! v) as [q|] eqn:Eq; simpl.
    + specialize (Hq v q Eq). lra.
    + lra.
  - intros a [u v] a' Ha _.
    destruct (edge_attr a u v "base_time") as [weight|] eqn:E; simpl; [|done].
    intros [= <-]. apply set_weight_keeps; [|done].
    exact (Hbase a u v weight (proj2 Ha) E).
Qed.

Lemma same_roads_adj (G G' : Graph string) (u v : string) (data : gmap string Q) :
  same_roads G G' → (v, data) ∈ adj G u → ∃ data', (v, data') ∈ adj G' u.
Proof.
  intros [_ Hl]. unfold adj. revert Hl.
  generalize (links G) (links G'). intros ls.
  induction ls as [|l ls IH]; intros [|l' ls'] Hl Hin; simplify_eq/=.
  - by apply elem_of_nil in Hin.
  - destruct l as [[a b] d], l' as [[a' b'] d']. simpl in *. simplify_eq.
    repeat case_decide; simplify_eq/=.
    + apply elem_of_cons in Hin as [Hin | Hin].
      * simplify_eq. exists d'. left.
      * destruct (IH ls' ltac:(done) Hin) as [data' Hd]. exists data'. by right.
    + apply elem_of_cons in Hin as [Hin | Hin].
      * simplify_eq. exists d'. left.
      * destruct (IH ls' ltac:(done) Hin) as [data' Hd]. exists data'. by right.
    + destruct (IH ls' ltac:(done) Hin) as [data' Hd]. by exists data'.
Qed.

Lemma same_roads_reach (G G' : Graph string) (w w' : string → string → gmap string Q → Q)
    (s t : string) (p : list string) (c : Q) :
  same_roads G G' → reach G w s t p c → ∃ c', reach G' w' s t p c'.
Proof.
  intros Hsame. induction 1 as [|u v data p c Hreach [c' IH] Hadj].
  - exists 0. constructor.
  - destruct (same_roads_adj G G' u v data Hsame Hadj) as [data' Hadj'].
    eexists. by eapply reach_step.
Qed.

Lemma reach_ends (G : Graph string) (w : string → string → gmap string Q → Q)
    (s t : string) (p : list string) (c : Q) :
  reach G w s t p c → head p = Some t ∧ last p = Some s.
Proof.
  induction 1 as [|u v data p c Hreach [Hh Hl] Hadj]; [done|].
  split; [done|]. destruct p; [done|]. by rewrite last_cons_cons.
Qed.

Lemma reach_trans (G : Graph string) (w : string → string → gmap string Q → Q)
    (s u t : string) (p p' : list string) (c c' : Q) :
  reach G w s u p c → reach G w u t p' c' → ∃ p'' c'', reach G w s t p'' c''.
Proof.
  intros Hsu. induction 1 as [|x v data p1 c1 Hreach (p2 & c2 & IH) Hadj].
  - by eexists _, _.
  - eexists _, _. by eapply reach_step.
Qed.

Lemma reach_sym (G : Graph string) (w : string → string → gmap string Q → Q)
    (s t : string) (p : list string) (c : Q) :
  reach G w s t p c → ∃ p' c', reach G w t s p' c'.
Proof.
  induction 1 as [|u v data p c Hreach (p' & c' & IH) Hadj].
  - eexists _, _. constructor.
  - apply adj_sym in Hadj.
    assert (Hvu : reach G w v u [u; v] (0 + w v u data)).
    { apply reach_step; [constructor | done]. }
    exact (reach_trans G w v u s _ _ _ _ Hvu IH).
Qed.

(** On a graph whose edges are in order, for queues that are not
    negative, the route between two connected nodes is found and is a
    least one under the live weights. *)
Lemma best_route_in_least (city : Graph string) (start_node end_node : string)
    (traffic_data : option (gmap string Q)) :
  closed_graph city → Forall edge_ok (links city) → queues_nonneg traffic_data →
  start_node ∈ node_ids city → end_node ∈ node_ids city →
  connected city start_node end_node →
  ∃ path c,
    best_route_in city start_node end_node traffic_data = Ok path ∧
    reach (live_graph city traffic_data) (weight_attr "current_weight")
      start_node end_node (reverse path) c ∧
    ∀ p' c', reach (live_graph city traffic_data) (weight_attr "current_weight")
               start_node end_node p' c' → c <= c'.
Proof.
  intros Hclosed Hok Hq Hs Ht (p0 & c0 & Hconn).
  destruct (update_weights_succeeds city traffic_data) as [G HG].
  { intros e He. apply edge_attr_found; [|by apply edges_link].
    intros l Hl. rewrite Forall_forall in Hok.
    destruct (Hok l Hl) as [(b & Hb & _) _]. by exists b. }
  destruct (update_weights_keeps city G traffic_data HG Hok Hq) as [Hsame HokG].
  unfold live_graph, best_route_in. rewrite HG. simpl.
  set (w := weight_attr "current_weight").
  assert (Hnonneg : nonneg_weights G w).
  { apply nonneg_weight_attr. eapply Forall_impl; [exact HokG|]. by intros l [_ ?]. }
  assert (HclosedG : closed_graph G).
  { destruct Hsame as [Hn Hl]. intros l Hl'.
    assert (Hl1 : l.1 ∈ (links city).*1) by (rewrite <- Hl; by apply list_elem_of_fmap_2).
    apply list_elem_of_fmap in Hl1 as (l0 & E0 & Hl0).
    unfold node_ids. rewrite Hn, E0. by apply Hclosed. }
  assert (Hids : node_ids G = node_ids city).
  { unfold node_ids. by rewrite (proj1 Hsame). }
  destruct (same_roads_reach city G _ w _ _ _ _ Hsame Hconn) as [c1 Hreach1].
  destruct (shortest_path_found G w Hnonneg start_node end_node _ _ HclosedG
              ltac:(by rewrite Hids) ltac:(by rewrite Hids) Hreach1) as [path Hpath].
  destruct (shortest_path_least G w Hnonneg start_node end_node path Hpath)
    as (c & Hreach & Hleast).
  exists path, c. rewrite Hpath. done.
Qed.

(** *** Which queue an edge is charged for *)

Lemma edge_data_sym (G : Graph string) (u v : string) :
  edge_data G u v = edge_data G v u.
Proof.
  unfold edge_data.
  assert (filter (fun l => joins u v l = true) (links G) =
          filter (fun l => joins v u l = true) (links G)) as ->; [|done].
  induction (links G) as [|l ls IH]; [done|].
  rewrite !filter_cons, IH.
  assert (Hj : joins u v l = joins v u l) by (unfold joins; apply orb_comm).
  repeat case_decide; congruence.
Qed.

Lemma edge_attr_set_same (G : Graph string) (u v k : string) (x : Q) :
  is_Some (edge_data G u v) →
  edge_attr (set_edge_attr G u v k x) u v k = Ok x.
Proof.
  unfold edge_attr, edge_data, set_edge_attr. cbn [links].
  induction (links G) as [|l ls IH]; [by intros [? ?]|].
  rewrite fmap_cons, !filter_cons.
  assert (Hj : joins u v (if joins u v l then (l.1, <[k:=x]> l.2) else l) = joins u v l).
  { destruct (joins u v l) eqn:E; exact E. }
  rewrite Hj. destruct (joins u v l) eqn:E.
  - intros _. rewrite decide_True by done. simpl. by rewrite lookup_insert_eq.
  - rewrite !decide_False by done. exact IH.
Qed.

Lemma edge_attr_set_elsewhere (G : Graph string) (u v u' v' k k' : string) (x : Q) :
  ¬ ((u = u' ∧ v = v') ∨ (u = v' ∧ v = u')) →
  edge_attr (set_edge_attr G u v k x) u' v' k' = edge_attr G u' v' k'.
Proof.
  intros Hends. unfold edge_attr, edge_data, set_edge_attr. cbn [links].
  induction (links G) as [|l ls IH]; [done|].
  rewrite fmap_cons, !filter_cons.
  assert (Hj : joins u' v' (if joins u v l then (l.1, <[k:=x]> l.2) else l) = joins u' v' l)
    by (by destruct (joins u v l)).
  rewrite Hj. destruct (joins u' v' l) eqn:E'.
  - rewrite !decide_True by done.
    destruct (joins u v l) eqn:E; [|done].
    exfalso. apply Hends. apply joins_iff in E, E'.
    destruct E as [[<- <-] | [<- <-]]; destruct E' as [[? ?] | [? ?]]; auto.
  - rewrite !decide_False by done. exact IH.
Qed.

(** The loop that writes 'current_weight', seen from one road. *)
Lemma weight_loop (g : Q → string → Q) (es : list (string * string))
    (G G' : Graph string) (u v : string) (b : Q) :
  for_each es (fun G e =>
      let '(u, v) := e in
      weight ← edge_attr G u v "base_time";
      Ok (set_edge_attr G u v "current_weight" (g weight v))) G = Ok G' →
  edge_attr G u v "base_time" = Ok b →
  (∀ e, e ∈ es → e.1 = v ∧ e.2 = u → e = (u, v)) →
  edge_attr G' u v "current_weight" =
    if bool_decide ((u, v) ∈ es) then Ok (g b v) else edge_attr G u v "current_weight".
Proof.
  revert G. induction es as [|[u0 v0] es IH]; intros G Hrun Hb Honce.
  - simpl in Hrun. by simplify_eq.
  - cbn [for_each] in Hrun.
    destruct (edge_attr G u0 v0 "base_time") as [w|] eqn:Ew; [|done].
    cbn [mbind res_bind] in Hrun.
    specialize (IH _ Hrun).
    rewrite edge_attr_set_other in IH by done.
    specialize (IH Hb ltac:(intros e He; apply Honce; by right)).
    rewrite IH. destruct (decide ((u0, v0) = (u, v))) as [E|E].
    + simplify_eq. assert (w = b) as -> by congruence.
      rewrite (bool_decide_eq_true_2 ((u, v) ∈ (u, v) :: es)) by left.
      rewrite edge_attr_set_same.
      * by destruct (bool_decide _).
      * unfold edge_attr in Hb. by destruct (edge_data G u v).
    + rewrite edge_attr_set_elsewhere.
      * case_bool_decide as H1; case_bool_decide as H2; try done.
        -- exfalso. apply H2. by right.
        -- exfalso. apply elem_of_cons in H2 as [?|?]; [congruence | done].
      * intros [[-> ->] | [-> ->]]; [done|].
        apply E. apply (Honce (v, u)); [left | done].
Qed.

Lemma edge_attr_weight (G : Graph string) (u v : string) (x : Q) :
  edge_attr G u v "current_weight" = Ok x →
  traversal_weight G u v = Some x ∧ traversal_weight G v u = Some x.
Proof.
  unfold edge_attr, traversal_weight. rewrite <- (edge_data_sym G u v).
  destruct (edge_data G u v) as [data|]; [|done].
  destruct (data !! "current_weight") as [y|] eqn:E; [|done].
  intros [= ->]. unfold weight_attr. simpl. by rewrite E.
Qed.

(** X14. The live weight of a road is written once for the road, not per
    direction.  Let [G.edges()] report the road between [u] and [v] as
    [(u, v)] and not also as [(v, u)], and let its base time be [b].  With
    live queues, the weight [get_best_route] charges is [b] plus 2 s per
    vehicle queued at [v], and it charges this for entering [v] from [u]
    and for entering [u] from [v] alike; without live data it charges [b]
    in both directions. *)
Theorem live_weight_follows_edge_order (city : Graph string)
    (traffic_data : option (gmap string Q)) (u v : string) (b : Q) :
  (∀ e, e ∈ edges city → ∃ x, edge_attr city e.1 e.2 "base_time" = Ok x) →
  (u, v) ∈ edges city →
  (∀ e, e ∈ edges city → e.1 = v ∧ e.2 = u → e = (u, v)) →
  edge_attr city u v "base_time" = Ok b →
  let charged :=
    if truthy traffic_data then b + default 0 (default ∅ traffic_data !! v) * 2.0 else b in
  live_weight city traffic_data u v = Ok (Some charged) ∧
  live_weight city traffic_data v u = Ok (Some charged).
Proof.
  intros Hbase Hin Honce Hb charged.
  destruct (update_weights_succeeds city traffic_data Hbase) as [G HG].
  unfold live_weight. rewrite HG. cbn [mbind res_bind].
  enough (Hw : edge_attr G u v "current_weight" = Ok charged).
  { apply edge_attr_weight in Hw as [-> ->]. done. }
  unfold update_weights in HG. unfold charged. destruct (truthy traffic_data).
  - rewrite (weight_loop
               (fun weight v => weight + default 0 (default ∅ traffic_data !! v) * 2.0)
               _ _ _ u v b HG Hb Honce).
    by rewrite bool_decide_eq_true_2.
  - rewrite (weight_loop (fun weight _ => weight) _ _ _ u v b HG Hb Honce).
    by rewrite bool_decide_eq_true_2.
Qed.

(** *** The city grid *)

Lemma city_graph_closed : closed_graph CITY_GRAPH.
Proof. apply closed_graph_check. vm_cast_no_check (eq_refl true). Qed.

Lemma city_graph_edges_ok : Forall edge_ok (links CITY_GRAPH).
Proof.
  assert (Hall : forallb (fun l : string * string * gmap string Q =>
                   match l.2 !! "base_time" with
                   | Some b => Qle_bool 0 b
                   | None => false
                   end && Qle_bool 0 (default 1 (l.2 !! "current_weight")))
                 (links CITY_GRAPH) = true).
  { vm_cast_no_check (eq_refl true). }
  rewrite forallb_forall in Hall. apply Forall_forall. intros l Hl.
  apply list_elem_of_In, Hall, andb_true_iff in Hl as [Hb Hw].
  split; [|by apply Qle_bool_iff].
  destruct (l.2 !! "base_time") as [b|]; [|done].
  exists b. split; [done | by apply Qle_bool_iff].
Qed.

Lemma city_graph_connected (s t : string) :
  s ∈ node_ids CITY_GRAPH → t ∈ node_ids CITY_GRAPH → connected CITY_GRAPH s t.
Proof.
  assert (Hall : forallb (fun n : string =>
                   match shortest_path CITY_GRAPH "0-0" n (fun _ _ _ => 1) with
                   | Ok _ => true
                   | Raise _ => false
                   end) (node_ids CITY_GRAPH) = true).
  { vm_cast_no_check (eq_refl true). }
  rewrite forallb_forall in Hall.
  assert (Hfrom : ∀ n, n ∈ node_ids CITY_GRAPH → connected CITY_GRAPH "0-0" n).
  { intros n Hn. apply list_elem_of_In, Hall in Hn.
    destruct (shortest_path CITY_GRAPH "0-0" n (fun _ _ _ => 1)) as [path|] eqn:E; [|done].
    apply shortest_path_least in E as (c & Hreach & _); [by eexists _, _|].
    intros u v data _. lra. }
  intros Hs Ht. destruct (Hfrom s Hs) as (ps & cs & Hrs).
  destruct (Hfrom t Ht) as (pt & ct & Hrt).
  apply reach_sym in Hrs as (ps' & cs' & Hrs').
  exact (reach_trans _ _ _ _ _ _ _ _ _ Hrs' Hrt).
Qed.

#[local] Opaque CITY_GRAPH.

Lemma live_weight_follows_edge_order_witness :
  let traffic_data : option (gmap string Q) := Some {[ "0-1" := 50 ]} in
  let b := 500 / (50 / 3.6) in
  ((∀ e, e ∈ edges CITY_GRAPH → ∃ x, edge_attr CITY_GRAPH e.1 e.2 "base_time" = Ok x) ∧
   ("0-0", "0-1") ∈ edges CITY_GRAPH ∧
   (∀ e, e ∈ edges CITY_GRAPH → e.1 = "0-1" ∧ e.2 = "0-0" → e = ("0-0", "0-1")) ∧
   edge_attr CITY_GRAPH "0-0" "0-1" "base_time" = Ok b) ∧
  live_weight CITY_GRAPH traffic_data "0-0" "0-1" = Ok (Some (b + 50 * 2.0)) ∧
  live_weight CITY_GRAPH traffic_data "0-1" "0-0" = Ok (Some (b + 50 * 2.0)).
Proof.
  intros traffic_data b.
  assert (Hin : ("0-0", "0-1") ∈ edges CITY_GRAPH).
  { apply (bool_decide_unpack _). vm_cast_no_check I. }
  assert (Honce : ∀ e, e ∈ edges CITY_GRAPH → e.1 = "0-1" ∧ e.2 = "0-0" → e = ("0-0", "0-1")).
  { assert (Hall : forallb (fun e : string * string =>
                     negb (bool_decide (e.1 = "0-1" ∧ e.2 = "0-0")))
                   (edges CITY_GRAPH) = true).
    { vm_cast_no_check (eq_refl true). }
    rewrite forallb_forall in Hall. intros e He Hends.
    apply list_elem_of_In, Hall, negb_true_iff, bool_decide_eq_false in He. done. }
  assert (Hb : edge_attr CITY_GRAPH "0-0" "0-1" "base_time" = Ok b).
  { vm_cast_no_check (eq_refl (Ok b)). }
  split; [by repeat split; try apply city_graph_base_times|].
  assert (Ht : truthy traffic_data = true).
  { unfold truthy, traffic_data. apply negb_true_iff, bool_decide_eq_false.
    apply insert_non_empty. }
  pose proof (live_weight_follows_edge_order CITY_GRAPH traffic_data "0-0" "0-1" b
                city_graph_base_times Hin Honce Hb) as H.
  rewrite Ht in H.
  assert (E : default 0 (default ∅ traffic_data !! "0-1") = 50).
  { unfold traffic_data. simpl. by rewrite lookup_singleton_eq. }
  rewrite E in H. exact H.
Defined.

(** X15. Between any two intersections of the city grid, and for live
    queues none of which is negative, [get_best_route] returns a route:
    it starts at the start node, ends at the end node, follows roads of
    the grid, and no walk between the two costs less under the live
    weights of the working copy. *)
Theorem get_best_route_is_least (start_node end_node : string)
    (traffic_data : option (gmap string Q)) :
  start_node ∈ node_ids CITY_GRAPH → end_node ∈ node_ids CITY_GRAPH →
  queues_nonneg traffic_data →
  ∃ path c,
    get_best_route start_node end_node traffic_data = Ok path ∧
    head path = Some start_node ∧ last path = Some end_node ∧
    reach (live_graph CITY_GRAPH traffic_data) (weight_attr "current_weight")
      start_node end_node (reverse path) c ∧
    ∀ p' c', reach (live_graph CITY_GRAPH traffic_data) (weight_attr "current_weight")
               start_node end_node p' c' → c <= c'.
Proof.
  intros Hs Ht Hq.
  destruct (best_route_in_least CITY_GRAPH start_node end_node traffic_data
              city_graph_closed city_graph_edges_ok Hq Hs Ht
              (city_graph_connected _ _ Hs Ht)) as (path & c & Hrun & Hreach & Hleast).
  exists path, c. split; [done|].
  destruct (reach_ends _ _ _ _ _ _ Hreach) as [Hh Hl].
  rewrite head_reverse in Hh. rewrite last_reverse in Hl. done.
Qed.

Lemma get_best_route_is_least_witness :
  let traffic_data : option (gmap string Q) := Some {[ "0-1" := 50 ]} in
  ("0-0" ∈ node_ids CITY_GRAPH ∧ "6-7" ∈ node_ids CITY_GRAPH ∧
   queues_nonneg traffic_data) ∧
  ∃ path c,
    get_best_route "0-0" "6-7" traffic_data = Ok path ∧
    head path = Some "0-0" ∧ last path = Some "6-7" ∧
    reach (live_graph CITY_GRAPH traffic_data) (weight_attr "current_weight")
      "0-0" "6-7" (reverse path) c ∧
    ∀ p' c', reach (live_graph CITY_GRAPH traffic_data) (weight_attr "current_weight")
               "0-0" "6-7" p' c' → c <= c'.
Proof.
  intros traffic_data.
  assert (Hs : "0-0" ∈ node_ids CITY_GRAPH).
  { apply (bool_decide_unpack _). vm_cast_no_check I. }
  assert (Ht : "6-7" ∈ node_ids CITY_GRAPH).
  { apply (bool_decide_unpack _). vm_cast_no_check I. }
  assert (Hq : queues_nonneg traffic_data).
  { intros v q. unfold traffic_data. simpl.
    intros [_ <-]%lookup_singleton_Some. lra. }
  split; [by repeat split|].
  exact (get_best_route_is_least "0-0" "6-7" traffic_data Hs Ht Hq).
Defined.

End routing_more.

(** ** The city grid, for every size *)

Section grid_facts.

Import Nx NxRun Routing RoutingRun RouteCheck GridRun.

(** *** Node ids are read back as they were written *)

Lemma pretty_N_char_digit (x : N) :
  (x < 10)%N → PyStr.digit (pretty_N_char x) = Some (Z.of_N x).
Proof.
  intros Hx.
  assert (x = 0 ∨ x = 1 ∨ x = 2 ∨ x = 3 ∨ x = 4 ∨ x = 5 ∨ x = 6 ∨ x = 7 ∨ x = 8 ∨ x = 9)%N
    as Hc by lia.
  repeat (destruct Hc as [-> | Hc]; [done|]). by subst.
Qed.

Lemma pretty_N_go_all_digits (x : N) (s : string) :
  all_digits s = true → all_digits (pretty_N_go x s) = true.
Proof.
  revert s. induction (N.lt_wf_0 x) as [x _ IH]; intros s Hs.
  assert (x = 0 ∨ 0 < x)%N as [->|Hx] by lia; [by rewrite pretty_N_go_0|].
  rewrite pretty_N_go_step by done. apply IH; [by apply N.div_lt|].
  simpl. rewrite Hs, andb_true_r. apply bool_decide_eq_true.
  rewrite pretty_N_char_digit; [done|]. by apply N.mod_lt.
Qed.

Lemma pretty_N_go_nonempty (x : N) (s : string) :
  s ≠ EmptyString → pretty_N_go x s ≠ EmptyString.
Proof.
  revert s. induction (N.lt_wf_0 x) as [x _ IH]; intros s Hs.
  assert (x = 0 ∨ 0 < x)%N as [->|Hx] by lia; [by rewrite pretty_N_go_0|].
  rewrite pretty_N_go_step by done. apply IH; [by apply N.div_lt | done].
Qed.

(** Reading the digits that [pretty] wrote in front of [s]. *)
Lemma pretty_N_go_value (x : N) (s : string) :
  ∃ k : Z, ∀ a, PyStr.digits (pretty_N_go x s) a = PyStr.digits s (a * k + Z.of_N x).
Proof.
  revert s. induction (N.lt_wf_0 x) as [x _ IH]; intros s.
  assert (x = 0 ∨ 0 < x)%N as [->|Hx] by lia.
  - exists 1%Z. intros a. rewrite pretty_N_go_0. f_equal. lia.
  - destruct (IH (x `div` 10)%N ltac:(by apply N.div_lt)
                (String (pretty_N_char (x `mod` 10)) s)) as [k Hk].
    exists (k * 10)%Z. intros a. rewrite pretty_N_go_step by done. rewrite Hk.
    simpl. rewrite pretty_N_char_digit by (by apply N.mod_lt). simpl.
    f_equal. rewrite (N.div_mod x 10) at 3 by done.
    rewrite N2Z.inj_add, N2Z.inj_mul. change (Z.of_N 10) with 10%Z. lia.
Qed.

Lemma pretty_nonneg_digits (z : Z) :
  (0 ≤ z)%Z →
  all_digits (pretty z) = true ∧ pretty z ≠ EmptyString ∧ PyStr.digits (pretty z) 0 = Some z.
Proof.
  intros Hz. destruct z as [|p|p]; [done| |lia].
  unfold pretty, pretty_Z, pretty, pretty_positive, pretty, pretty_N.
  rewrite decide_False by done.
  split; [by apply pretty_N_go_all_digits|]. split.
  - destruct (N.lt_wf_0 (N.pos p)) as [_].
    rewrite pretty_N_go_step by done. by apply pretty_N_go_nonempty.
  - destruct (pretty_N_go_value (N.pos p) EmptyString) as [k ->]. simpl. f_equal.
Qed.

Lemma int_pretty (z : Z) : (0 ≤ z)%Z → PyStr.int (pretty z) = Ok z.
Proof.
  intros Hz. destruct (pretty_nonneg_digits z Hz) as (_ & Hne & Hd).
  unfold PyStr.int. destruct (pretty z); [done|]. by rewrite Hd.
Qed.

Lemma digit_not_dash (c : ascii) : is_Some (PyStr.digit c) → Ascii.eqb c "-" = false.
Proof.
  intros Hc. destruct (Ascii.eqb c "-") eqn:E; [|done].
  apply Ascii.eqb_eq in E. subst c. by destruct Hc.
Qed.

Lemma split_digits (s : string) : all_digits s = true → PyStr.split "-" s = [s].
Proof.
  induction s as [|c s IH]; [done|]. simpl.
  intros [Hc Hs]%andb_true_iff. apply bool_decide_eq_true in Hc.
  rewrite (digit_not_dash c Hc), (IH Hs). done.
Qed.

Lemma split_dash (s s' : string) :
  all_digits s = true → all_digits s' = true →
  PyStr.split "-" (s +:+ "-" +:+ s') = [s; s'].
Proof.
  intros Hs Hs'. induction s as [|c s IH].
  - change (PyStr.split "-" (EmptyString +:+ "-" +:+ s'))
      with (EmptyString :: PyStr.split "-" s').
    by rewrite (split_digits s' Hs').
  - simpl in Hs. apply andb_true_iff in Hs as [Hc Hs]. apply bool_decide_eq_true in Hc.
    change (PyStr.split "-" (String c s +:+ "-" +:+ s'))
      with (if Ascii.eqb c "-" then EmptyString :: PyStr.split "-" (s +:+ "-" +:+ s')
            else match PyStr.split "-" (s +:+ "-" +:+ s') with
                 | p :: ps => String c p :: ps
                 | [] => [String c EmptyString]
                 end).
    rewrite (digit_not_dash c Hc), (IH Hs). done.
Qed.

(** [parse_id] reads the row and the column back from the id. *)
Lemma parse_id_node_id (rc : Z * Z) :
  (0 ≤ rc.1)%Z → (0 ≤ rc.2)%Z → parse_id (node_id rc) = Ok rc.
Proof.
  intros H1 H2. unfold parse_id, node_id.
  destruct (pretty_nonneg_digits _ H1) as (D1 & _ & _).
  destruct (pretty_nonneg_digits _ H2) as (D2 & _ & _).
  rewrite (split_dash _ _ D1 D2), (int_pretty _ H1), (int_pretty _ H2).
  simpl. by destruct rc.
Qed.

(** *** The nodes of the grid *)

Lemma bind_cells {C : Type} (g : Z * Z → C) (rs cs : list Z) :
  (i ← rs; j ← cs; [g (i, j)]) = g <$> (i ← rs; j ← cs; [(i, j)]).
Proof.
  induction rs as [|i rs IH]; [done|]. csimpl. rewrite fmap_app, IH. f_equal.
  clear IH. induction cs as [|j cs IH]; [done|]. csimpl. by rewrite IH.
Qed.

Lemma coords_nonneg (rows cols : nat) (rc : Z * Z) :
  rc ∈ coords rows cols → (0 ≤ rc.1)%Z ∧ (0 ≤ rc.2)%Z.
Proof.
  unfold coords. intros (r & Hrc & Hr)%list_elem_of_bind.
  apply list_elem_of_bind in Hrc as (c & Hrc & Hc).
  apply list_elem_of_singleton in Hrc as ->.
  apply list_elem_of_fmap in Hr as (i & -> & _).
  apply list_elem_of_fmap in Hc as (j & -> & _). simpl. lia.
Qed.

Lemma cells_length (rs cs : list Z) :
  length (i ← rs; j ← cs; [(i, j)]) = (length rs * length cs)%nat.
Proof.
  induction rs as [|r rs IH]; [done|]. csimpl. rewrite length_app, IH. f_equal.
  clear IH. induction cs as [|c cs IH]; [done|]. csimpl. by rewrite IH.
Qed.

Lemma coords_length (rows cols : nat) : length (coords rows cols) = (rows * cols)%nat.
Proof.
  unfold coords. by rewrite cells_length, !length_fmap, !length_seq.
Qed.

(** The loop that writes the attributes of every node. *)
Lemma label_nodes (F : string → NodeData) (f : Graph string → string → res (Graph string))
    (ns : list string) (G : Graph string) :
  (∀ G n, n ∈ ns → f G n = Ok (set_node_data G n (F n))) →
  ∃ G', for_each ns f G = Ok G' ∧ links G' = links G ∧
        nodes G' =
          (fun nd => if bool_decide (nd.1 ∈ ns) then (nd.1, F nd.1) else nd) <$> nodes G.
Proof.
  revert G. induction ns as [|n ns IH]; intros G Hf.
  - exists G. split; [done|]. split; [done|].
    rewrite <- (list_fmap_id (nodes G)) at 1. apply list_fmap_ext.
    intros i nd _. case_bool_decide as Hin; [by apply elem_of_nil in Hin | done].
  - simpl. rewrite Hf by left. simpl.
    destruct (IH (set_node_data G n (F n))) as (G' & -> & Hl & Hn).
    { intros G0 m Hm. apply Hf. by right. }
    exists G'. split; [done|]. split; [done|].
    rewrite Hn. simpl. rewrite <- list_fmap_compose. apply list_fmap_ext.
    intros i nd _. simpl. destruct (decide (nd.1 = n)) as [E|E]; simpl.
    + rewrite E. case_bool_decide as H1; case_bool_decide as H2; try done.
      all: exfalso; apply H2; left.
    + case_bool_decide as H1; case_bool_decide as H2; try done.
      * exfalso. apply H2. by right.
      * exfalso. apply elem_of_cons in H2 as [?|?]; done.
Qed.

Lemma for_each_total {A B : Type} (f : A → B → res A) (step : A → B → A)
    (l : list B) (a : A) :
  (∀ a x, f a x = Ok (step a x)) → for_each l f a = Ok (foldl step a l).
Proof.
  intros Hf. revert a. induction l as [|x l IH]; intros a; [done|].
  simpl. rewrite Hf. simpl. apply IH.
Qed.

Lemma foldl_keeps_nodes {B : Type} (step : Graph string → B → Graph string)
    (l : list B) (G : Graph string) :
  (∀ G x, nodes (step G x) = nodes G) → nodes (foldl step G l) = nodes G.
Proof.
  intros Hstep. revert G. induction l as [|x l IH]; intros G; [done|].
  simpl. by rewrite IH, Hstep.
Qed.

(** The run of [generate_city_grid], loop by loop. *)
Lemma generate_city_grid_run (rows cols : nat) :
  generate_city_grid rows cols =
    Ok (foldl set_road (labelled_grid rows cols) (edges (labelled_grid rows cols))).
Proof.
  unfold generate_city_grid.
  set (G0 := relabel_nodes (grid_2d_graph rows cols) _).
  assert (Hn0 : nodes G0 = (fun rc => (node_id rc, no_data)) <$> coords rows cols).
  { unfold G0, relabel_nodes, grid_2d_graph. cbn [nodes].
    rewrite (bind_cells (fun rc => (rc, no_data))), <- list_fmap_compose. done. }
  set (F := fun node_id : string =>
              match parse_id node_id with
              | Ok rc => {| pos := Some (23.0300 + inject_Z rc.1 * 0.0045,
                                         72.5400 + inject_Z rc.2 * 0.0045);
                            name := Some ("Intersection " +:+ node_id) |}
              | Raise _ => no_data
              end).
  assert (Hids : ∀ n, n ∈ node_ids G0 → ∃ rc, rc ∈ coords rows cols ∧ n = node_id rc).
  { intros n. unfold node_ids. rewrite Hn0, <- list_fmap_compose.
    intros (rc & -> & Hrc)%list_elem_of_fmap. by exists rc. }
  match goal with
  | |- (for_each _ ?f G0 ≫= _) = _ =>
      destruct (label_nodes F f (node_ids G0) G0) as (G1 & HG1 & Hl1 & Hn1)
  end.
  { intros G n (rc & Hrc & ->)%Hids. unfold F.
    destruct (coords_nonneg _ _ _ Hrc) as [H1 H2].
    by rewrite (parse_id_node_id rc H1 H2). }
  rewrite HG1. cbn [mbind res_bind].
  assert (G1 = labelled_grid rows cols) as ->.
  { destruct G1 as [ns ls]. cbn [nodes links] in Hn1, Hl1. unfold labelled_grid.
    f_equal; [|exact Hl1].
    rewrite Hn1, Hn0, <- list_fmap_compose. apply list_fmap_ext.
    intros i rc Hrc. simpl.
    pose proof (list_elem_of_lookup_2 _ _ _ Hrc) as Hin.
    rewrite bool_decide_eq_true_2.
    2:{ unfold node_ids. rewrite Hn0, <- list_fmap_compose.
        apply list_elem_of_fmap. by exists rc. }
    f_equal. unfold F.
    destruct (coords_nonneg _ _ rc Hin) as [H1 H2].
    by rewrite (parse_id_node_id rc H1 H2). }
  apply for_each_total. intros G e. reflexivity.
Qed.

(** X16. For every number of rows and columns [generate_city_grid]
    returns a graph, without raising [ValueError] on an id of its own
    making: it has one node per cell, in row-major order, the node of row
    [r] and column [c] has the id "r-c", the position
    (23.03 + 0.0045·r, 72.54 + 0.0045·c) and the name
    "Intersection r-c". *)
Theorem generate_city_grid_nodes (rows cols : nat) :
  ∃ G,
    generate_city_grid rows cols = Ok G ∧
    nodes G = (fun rc => (node_id rc, node_data rc)) <$> coords rows cols ∧
    length (nodes G) = (rows * cols)%nat.
Proof.
  eexists. split; [apply generate_city_grid_run|].
  rewrite foldl_keeps_nodes by done. cbn [nodes labelled_grid].
  split; [done|]. by rewrite length_fmap, coords_length.
Qed.

(** *** The roads of the grid *)

Lemma elem_of_cells (rs cs : list Z) (a b : Z) :
  (a, b) ∈ (i ← rs; j ← cs; [(i, j)]) ↔ a ∈ rs ∧ b ∈ cs.
Proof.
  rewrite list_elem_of_bind. split.
  - intros (r & Hin & Hr). apply list_elem_of_bind in Hin as (c & Hin & Hc).
    apply list_elem_of_singleton in Hin. by simplify_eq.
  - intros [Ha Hb]. exists a. split; [|done]. apply list_elem_of_bind.
    exists b. split; [|done]. by apply list_elem_of_singleton.
Qed.

Lemma elem_of_range (n : nat) (x : Z) :
  x ∈ Z.of_nat <$> seq 0 n ↔ (0 ≤ x < Z.of_nat n)%Z.
Proof.
  rewrite list_elem_of_fmap. split.
  - intros (k & -> & Hk). apply elem_of_seq in Hk. lia.
  - intros Hx. exists (Z.to_nat x). split; [lia|]. apply elem_of_seq. lia.
Qed.

Lemma elem_of_tail_range (n : nat) (x : Z) :
  x ∈ tail (Z.of_nat <$> seq 0 n) ↔ (1 ≤ x < Z.of_nat n)%Z.
Proof.
  destruct n as [|n].
  { split; [by intros ?%elem_of_nil | lia]. }
  cbn [seq fmap list_fmap tail]. rewrite list_elem_of_fmap. split.
  - intros (k & -> & Hk). apply elem_of_seq in Hk. lia.
  - intros Hx. exists (Z.to_nat x). split; [lia|]. apply elem_of_seq. lia.
Qed.

Lemma elem_of_coords (rows cols : nat) (rc : Z * Z) :
  rc ∈ coords rows cols ↔ (0 ≤ rc.1 < Z.of_nat rows)%Z ∧ (0 ≤ rc.2 < Z.of_nat cols)%Z.
Proof.
  destruct rc as [a b]. unfold coords.
  by rewrite elem_of_cells, !elem_of_range.
Qed.

(** The edges [nx.grid_2d_graph] stores: each cell to the one above it
    and to the one on its left. *)
Lemma grid_links (rows cols : nat) (l : Z * Z * (Z * Z) * gmap string Q) :
  l ∈ links (grid_2d_graph rows cols) ↔
  l.2 = ∅ ∧ l.1.1 ∈ coords rows cols ∧ l.1.2 ∈ coords rows cols ∧
  (l.1.2 = ((l.1.1.1 - 1)%Z, l.1.1.2) ∨ l.1.2 = (l.1.1.1, (l.1.1.2 - 1)%Z)).
Proof.
  destruct l as [[[a b] [a' b']] data]. unfold grid_2d_graph. cbn [links].
  rewrite elem_of_app, !elem_of_coords. simpl.
  rewrite (bind_cells (fun ij => (ij, ((ij.1 - 1)%Z, ij.2), ∅))).
  rewrite (bind_cells (fun ij => (ij, (ij.1, (ij.2 - 1)%Z), ∅))).
  rewrite !list_elem_of_fmap. split.
  - intros [([i j] & E & Hin) | ([i j] & E & Hin)]; simpl in E; simplify_eq;
      apply elem_of_cells in Hin as [Hi Hj].
    all:
      first [apply elem_of_tail_range in Hi | apply elem_of_range in Hi];
      first [apply elem_of_tail_range in Hj | apply elem_of_range in Hj].
      all: (split; [done|]); (split; [lia|]); (split; [lia|]); auto.
  - intros (-> & Ha & Hb & [E | E]); simplify_eq.
    + left. exists (a, b). split; [done|]. apply elem_of_cells.
      rewrite elem_of_tail_range, elem_of_range. lia.
    + right. exists (a, b). split; [done|]. apply elem_of_cells.
      rewrite elem_of_tail_range, elem_of_range. lia.
Qed.

Lemma grid_node_ids (rows cols : nat) :
  node_ids (grid_2d_graph rows cols) = coords rows cols.
Proof.
  unfold node_ids, grid_2d_graph. cbn [nodes].
  rewrite (bind_cells (fun rc => (rc, no_data))), <- list_fmap_compose.
  unfold coords. rewrite <- (list_fmap_id (_ ≫= _)) at 2. by apply list_fmap_ext.
Qed.

(** The edges of the relabelled grid. *)
Lemma labelled_grid_links (rows cols : nat) (l : string * string * gmap string Q) :
  l ∈ links (labelled_grid rows cols) ↔
  ∃ x, x ∈ edges_data (grid_2d_graph rows cols) ∧
       l = (node_id x.1.1, node_id x.1.2, x.2).
Proof.
  unfold labelled_grid, relabel_nodes. cbn [links]. rewrite list_elem_of_fmap.
  split; intros (x & E & Hx); by exists x.
Qed.

Lemma grid_edges_data (rows cols : nat) (x : Z * Z * (Z * Z) * gmap string Q) :
  x ∈ edges_data (grid_2d_graph rows cols) →
  x.2 = ∅ ∧ x.1.1 ∈ coords rows cols ∧ x.1.2 ∈ coords rows cols ∧ adjacent x.1.1 x.1.2.
Proof.
  intros Hx. apply edges_from_adj, adj_link in Hx as (l & Hl & Hj & Hd).
  apply grid_links in Hl as (Hd' & H1 & H2 & Hnext).
  split; [congruence|]. unfold joins in Hj. apply orb_true_iff in Hj.
  unfold adjacent.
  destruct Hj as [[E1 E2]%bool_decide_eq_true | [E1 E2]%bool_decide_eq_true];
    rewrite <- E1, <- E2; (split; [done|]); (split; [done|]);
    destruct Hnext as [-> | ->]; simpl; lia.
Qed.

Lemma labelled_grid_closed (rows cols : nat) : closed_graph (labelled_grid rows cols).
Proof.
  intros l (x & Hx & ->)%labelled_grid_links.
  apply grid_edges_data in Hx as (_ & H1 & H2 & _).
  unfold node_ids, labelled_grid. cbn [nodes]. rewrite <- list_fmap_compose.
  split; apply list_elem_of_fmap.
  - exists x.1.1. split; [reflexivity | exact H1].
  - exists x.1.2. split; [reflexivity | exact H2].
Qed.

Lemma road_attrs_empty : road_attrs ∅ = road_data.
Proof.
  unfold road_attrs, road_data. apply map_eq. intros k.
  destruct (decide (k = "base_time")) as [->|]; [by simplify_map_eq|].
  destruct (decide (k = "speed_limit")) as [->|]; [by simplify_map_eq|].
  destruct (decide (k = "distance")) as [->|]; by simplify_map_eq.
Qed.

Lemma road_attrs_again : road_attrs road_data = road_data.
Proof.
  unfold road_attrs, road_data. apply map_eq. intros k.
  destruct (decide (k = "base_time")) as [->|]; [by simplify_map_eq|].
  destruct (decide (k = "speed_limit")) as [->|]; [by simplify_map_eq|].
  destruct (decide (k = "distance")) as [->|]; by simplify_map_eq.
Qed.

Lemma set_road_links (G : Graph string) (e : string * string) :
  links (set_road G e) =
    (fun l => if joins e.1 e.2 l then (l.1, road_attrs l.2) else l) <$> links G.
Proof.
  unfold set_road, set_edge_attr. cbn [links].
  rewrite <- !list_fmap_compose. apply list_fmap_ext. intros i l _. simpl.
  destruct (joins e.1 e.2 l) eqn:E; [|by rewrite !E].
  assert (Hj : ∀ d, joins e.1 e.2 (l.1, d) = true) by (intros d; exact E).
  by rewrite !Hj.
Qed.

Lemma foldl_set_road_links (es : list (string * string)) (G : Graph string) :
  links (foldl set_road G es) =
    (fun l => foldl (fun l e => if joins e.1 e.2 l then (l.1, road_attrs l.2) else l) l es)
      <$> links G.
Proof.
  revert G. induction es as [|e es IH]; intros G.
  - simpl. by rewrite list_fmap_id.
  - simpl. rewrite IH, set_road_links, <- list_fmap_compose. done.
Qed.

Lemma link_fold_ends (es : list (string * string)) (l : string * string * gmap string Q) :
  (foldl (fun l e => if joins e.1 e.2 l then (l.1, road_attrs l.2) else l) l es).1 = l.1.
Proof.
  revert l. induction es as [|e es IH]; intros l; [done|].
  simpl. rewrite IH. by destruct (joins _ _ _).
Qed.

Lemma link_fold_road (es : list (string * string)) (l : string * string * gmap string Q) :
  l.2 = road_data →
  (foldl (fun l e => if joins e.1 e.2 l then (l.1, road_attrs l.2) else l) l es).2 = road_data.
Proof.
  revert l. induction es as [|e es IH]; intros l Hl; [done|].
  simpl. apply IH. destruct (joins _ _ _); [|done]. simpl. rewrite Hl.
  apply road_attrs_again.
Qed.

Lemma link_fold_covered (es : list (string * string)) (l : string * string * gmap string Q) :
  l.2 = ∅ →
  (∃ e, e ∈ es ∧ joins e.1 e.2 l = true) →
  (foldl (fun l e => if joins e.1 e.2 l then (l.1, road_attrs l.2) else l) l es).2 = road_data.
Proof.
  induction es as [|e es IH]; intros Hl (e0 & He0 & Hj).
  { by apply elem_of_nil in He0. }
  simpl. destruct (joins e.1 e.2 l) eqn:E.
  - apply link_fold_road. simpl. rewrite Hl. apply road_attrs_empty.
  - apply IH; [done|]. exists e0. split; [|done].
    apply elem_of_cons in He0 as [-> | He0]; [congruence | done].
Qed.

Lemma generated_links_road (rows cols : nat) :
  Forall (fun l : string * string * gmap string Q => l.2 = road_data)
    (links (foldl set_road (labelled_grid rows cols) (edges (labelled_grid rows cols)))).
Proof.
  rewrite foldl_set_road_links. apply Forall_fmap, Forall_forall. intros l Hl.
  simpl. apply link_fold_covered.
  - apply labelled_grid_links in Hl as (x & Hx & ->).
    by apply grid_edges_data in Hx as (-> & _).
  - apply edges_cover; [done|]. by apply labelled_grid_closed.
Qed.

(** X17. The graph [generate_city_grid] returns, for every number of rows
    and columns, contains both ends of each of its edges, and every edge
    carries the distance 500 m, the speed limit 50 km/h and the base time
    500 / (50 / 3.6) = 36 s, and nothing else. *)
Theorem generate_city_grid_roads (rows cols : nat) :
  ∃ G,
    generate_city_grid rows cols = Ok G ∧
    closed_graph G ∧
    Forall (fun l : string * string * gmap string Q => l.2 = road_data) (links G).
Proof.
  eexists. split; [apply generate_city_grid_run|].
  split; [|apply generated_links_road].
  intros l. rewrite foldl_set_road_links.
  intros (l0 & -> & Hl0)%list_elem_of_fmap. rewrite link_fold_ends.
  unfold node_ids. rewrite foldl_keeps_nodes by done.
  by apply labelled_grid_closed.
Qed.

Lemma node_id_inj (rows cols : nat) (a b : Z * Z) :
  a ∈ coords rows cols → b ∈ coords rows cols → node_id a = node_id b → a = b.
Proof.
  intros [Ha1 Ha2]%coords_nonneg [Hb1 Hb2]%coords_nonneg E.
  pose proof (parse_id_node_id a Ha1 Ha2) as Pa.
  pose proof (parse_id_node_id b Hb1 Hb2) as Pb.
  rewrite E in Pa. congruence.
Qed.

(** X18. In the graph [generate_city_grid] returns, the neighbours of the
    node of a cell are exactly the nodes of the cells next to it in its
    row or its column: "r-c" and "r'-c'" are joined by an edge if and
    only if |r - r'| + |c - c'| = 1. *)
Theorem generate_city_grid_neighbours (rows cols : nat) :
  ∃ G,
    generate_city_grid rows cols = Ok G ∧
    ∀ a b, a ∈ coords rows cols → b ∈ coords rows cols →
      ((∃ data, (node_id b, data) ∈ adj G (node_id a)) ↔ adjacent a b).
Proof.
  eexists. split; [apply generate_city_grid_run|].
  intros a b Ha Hb. split.
  - intros [data Hadj]. apply adj_link in Hadj as (l & Hl & Hj & _).
    rewrite foldl_set_road_links in Hl.
    apply list_elem_of_fmap in Hl as (l0 & -> & Hl0).
    apply joins_iff in Hj. rewrite link_fold_ends in Hj.
    apply labelled_grid_links in Hl0 as (x & Hx & ->).
    apply grid_edges_data in Hx as (_ & H1 & H2 & Hnext). simpl in Hj.
    unfold adjacent in *.
    destruct Hj as [[E1 E2] | [E1 E2]];
      apply (node_id_inj rows cols) in E1; try done;
      apply (node_id_inj rows cols) in E2; try done; subst; lia.
  - intros Hnext.
    assert (Hlg : ∃ lg, lg ∈ links (grid_2d_graph rows cols) ∧ joins a b lg = true).
    { destruct a as [a1 a2], b as [b1 b2]. unfold adjacent in Hnext. simpl in Hnext.
      apply elem_of_coords in Ha as Ha', Hb as Hb'. simpl in Ha', Hb'.
      assert ((b1 = a1 - 1 ∧ b2 = a2) ∨ (a1 = b1 - 1 ∧ a2 = b2) ∨
              (b1 = a1 ∧ b2 = a2 - 1) ∨ (a1 = b1 ∧ a2 = b2 - 1))%Z
        as [[-> ->] | [[-> ->] | [[-> ->] | [-> ->]]]] by lia.
      - exists ((a1, a2), ((a1 - 1)%Z, a2), ∅). split.
        + apply grid_links. simpl. auto.
        + apply joins_iff. by left.
      - exists ((b1, b2), ((b1 - 1)%Z, b2), ∅). split.
        + apply grid_links. simpl. auto.
        + apply joins_iff. by right.
      - exists ((a1, a2), (a1, (a2 - 1)%Z), ∅). split.
        + apply grid_links. simpl. auto.
        + apply joins_iff. by left.
      - exists ((b1, b2), (b1, (b2 - 1)%Z), ∅). split.
        + apply grid_links. simpl. auto.
        + apply joins_iff. by right. }
    destruct Hlg as (lg & Hlg & Hj).
    destruct (edges_cover _ lg Hlg) as (e & He & Hje).
    { rewrite grid_node_ids. by apply grid_links in Hlg as (_ & ? & _). }
    unfold edges in He. apply list_elem_of_fmap in He as (x & -> & Hx).
    set (l0 := (node_id x.1.1, node_id x.1.2, x.2)).
    assert (Hl0 : l0 ∈ links (labelled_grid rows cols)).
    { apply labelled_grid_links. by exists x. }
    assert (Hj0 : joins (node_id a) (node_id b) l0 = true).
    { apply joins_iff in Hj, Hje. apply joins_iff. unfold l0. simpl.
      destruct Hj as [[<- <-] | [<- <-]]; destruct Hje as [[-> ->] | [-> ->]]; auto. }
    eexists. apply link_adj; [|].
    + rewrite foldl_set_road_links. apply list_elem_of_fmap. exists l0. split; [done|].
      exact Hl0.
    + apply joins_iff. rewrite link_fold_ends. by apply joins_iff.
Qed.

End grid_facts.

(** ** The endpoints of app.py *)

Section app_facts.

Import Corridor Spat SpatRun SpatTimeline App AppRun.

(** X19. [get_comparison] computes once.  A first request with a duration
    [d ≥ 0] runs the comparison for [d] and stores it; a later request
    without [refresh=1] is answered with the stored result, whatever
    duration it asks for. *)
Theorem get_comparison_serves_first_result (sin : Q → Q) (pi : Q)
    (float : string → option Q) (fuel : nat) (args args' : gmap string string) (d d' : Q) :
  duration_arg float args = Ok d → 0 <= d →
  (Z.to_nat (Qfloor (d / 5)) + 1 < fuel)%nat →
  duration_arg float args' = Ok d' →
  args' !! "refresh" ≠ Some "1" →
  ∃ c,
    get_comparison sin pi float fuel args None = Some (Some c, Ok c) ∧
    Corridor.duration_s c = d ∧
    length (baseline c) = (Z.to_nat (Qfloor (d / 5)) + 1)%nat ∧
    get_comparison sin pi float fuel args' (Some c) = Some (Some c, Ok c).
Proof.
  intros Hd Hd0 Hfuel Hd' Hrefresh.
  destruct (run_comparison_series sin pi d fuel Hd0 Hfuel) as (c & Hrun & Hc & Hlen & _).
  exists c. unfold get_comparison. rewrite Hd, Hd', Hrun. cbn [mbind option_bind].
  split; [done|]. split; [done|]. split; [done|].
  by rewrite bool_decide_eq_false_2.
Qed.

Lemma get_comparison_serves_first_result_witness :
  let args : gmap string string := {[ "duration" := "12" ]} in
  let args' : gmap string string := {[ "duration" := "600" ]} in
  (duration_arg parse_decimal args = Ok 12 ∧ 0 <= 12 ∧
   (Z.to_nat (Qfloor (12 / 5)) + 1 < 4)%nat ∧
   duration_arg parse_decimal args' = Ok 600 ∧
   args' !! "refresh" ≠ Some "1") ∧
  ∃ c,
    get_comparison sin_approx pi_approx parse_decimal 4 args None = Some (Some c, Ok c) ∧
    Corridor.duration_s c = 12 ∧
    length (baseline c) = (Z.to_nat (Qfloor (12 / 5)) + 1)%nat ∧
    get_comparison sin_approx pi_approx parse_decimal 4 args' (Some c) = Some (Some c, Ok c).
Proof.
  intros args args'.
  assert (H1 : duration_arg parse_decimal args = Ok 12).
  { unfold duration_arg, args. by rewrite lookup_singleton_eq. }
  assert (H2 : duration_arg parse_decimal args' = Ok 600).
  { unfold duration_arg, args'. by rewrite lookup_singleton_eq. }
  assert (H3 : args' !! "refresh" ≠ Some "1").
  { unfold args'. by rewrite lookup_singleton_ne. }
  assert (H4 : (Z.to_nat (Qfloor (12 / 5)) + 1 < 4)%nat) by (vm_compute; lia).
  split; [split; [exact H1 | split; [lra | split; [exact H4 | split; [exact H2 | exact H3]]]]|].
  apply (get_comparison_serves_first_result sin_approx pi_approx parse_decimal 4
           args args' 12 600 H1); [lra | exact H4 | exact H2 | exact H3].
Defined.

(** *** The SPaT endpoints *)

Lemma read_rows_current (float : string → option Q) (rows : list Row) (eng : SpatEngine.t) :
  SpatEngine.current_time (read_rows float rows eng).1 = SpatEngine.current_time eng ∧
  SpatEngine.current_state (read_rows float rows eng).1 = SpatEngine.current_state eng.
Proof.
  pose proof (read_rows_spec float rows eng) as H.
  destruct (parse_rows float rows).
  - by rewrite H.
  - destruct H as (? & ? & ? & ? & _ & _ & _ & ->). done.
Qed.

(** [load] leaves the playback position alone. *)
Lemma load_current (float : string → option Q) (file : option (list Row))
    (eng : SpatEngine.t) :
  SpatEngine.current_time (load float file eng).1 = SpatEngine.current_time eng ∧
  SpatEngine.current_state (load float file eng).1 = SpatEngine.current_state eng.
Proof.
  unfold load. destruct file as [rows|]; [|done].
  pose proof (read_rows_current float rows (SpatEngine.set_events [] eng)) as H.
  destruct (read_rows _ _ _) as [eng1 [[]|e1]]; exact H.
Qed.

Lemma round_to_zero (x : Q) : x == 0 → Py.round_to x 1 == 0.
Proof.
  intros Hx. unfold Py.round_to. change (inject_Z (10 ^ Z.of_nat 1)) with 10.
  rewrite (round_inject_Z (x * 10) 0); [reflexivity|]. rewrite Hx. reflexivity.
Qed.

Section WithFiles.

Variable float : string → option Q.
Variable sample_spat : string.
Variable fs : string → option (list Row).

Lemma served_idle (g : option (string * SpatEngine.t)) :
  served float sample_spat fs g →
  ∀ engine, g = Some engine →
    SpatEngine.current_time engine.2 = 0 ∧ SpatEngine.current_state engine.2 = ∅.
Proof.
  assert (Hget : ∀ g0 csv_path,
    (∀ engine, g0 = Some engine →
       SpatEngine.current_time engine.2 = 0 ∧ SpatEngine.current_state engine.2 = ∅) →
    ∀ engine, (get_engine float sample_spat fs csv_path g0).1 = Some engine →
       SpatEngine.current_time engine.2 = 0 ∧ SpatEngine.current_state engine.2 = ∅).
  { intros g0 csv_path Hg engine. unfold get_engine. destruct g0 as [engine0|].
    - simpl. intros [= <-]. by apply Hg.
    - pose proof (load_current float (fs (path_or_default csv_path sample_spat))
                    SpatEngine.new) as Hl.
      destruct (load _ _ _) as [eng [[]|e]]; simpl; intros [= <-]; exact Hl. }
  induction 1 as [|g Hg IH|g Hg IH]; [done| |].
  - intros engine. unfold get_spat_status.
    pose proof (Hget g None IH) as H.
    destruct (get_engine _ _ _ _ _) as [g' r]. exact (H engine).
  - intros engine. unfold get_spat_timeline.
    pose proof (Hget g None IH) as H.
    destruct (get_engine _ _ _ _ _) as [g' [[path eng]|e]] eqn:E.
    + assert (Hg' : g' = Some (path, eng)).
      { unfold get_engine in E. destruct g as [engine0|].
        - by simplify_eq.
        - destruct (load _ _ _) as [eng0 [[]|e0]]; by simplify_eq. }
      specialize (H (path, eng) Hg'). simpl in H.
      unfold build_timeline.
      pose proof (load_current float (fs path) eng) as Hl.
      destruct (SpatEngine.loaded eng).
      * simpl. by intros [= <-].
      * destruct (load _ _ _) as [eng1 [[]|e1]]; simpl; intros [= <-]; simpl in *;
          destruct Hl as [-> ->]; exact H.
    + exact (H engine).
Qed.

(** X20. The status endpoint never shows a playback.  Whatever calls of
    the status and the timeline endpoint came before, [get_spat_status]
    reports the time 0, no signal state at all and a progress of 0,
    since nothing in the application runs [replay]; it raises only when
    it is the call that creates the engine and the load fails. *)
Theorem spat_status_is_idle (g : option (string * SpatEngine.t)) :
  served float sample_spat fs g →
  match (get_spat_status float sample_spat fs g).2 with
  | Ok snap =>
      Snapshot.time_s snap = 0 ∧ Snapshot.states snap = ∅ ∧ Snapshot.progress snap == 0
  | Raise _ => g = None
  end.
Proof.
  intros Hg.
  pose proof (served_idle _ (served_status _ _ _ g Hg)) as Hidle.
  unfold get_spat_status in *.
  destruct (get_engine _ _ _ _ _) as [g' [engine|e]] eqn:E; simpl in *.
  - assert (Hg' : g' = Some engine).
    { unfold get_engine in E. destruct g as [engine0|].
      - by simplify_eq.
      - destruct (load _ _ _) as [eng0 [[]|e0]]; by simplify_eq. }
    destruct (Hidle engine Hg') as [Ht Hs].
    unfold get_snapshot. simpl. rewrite Ht, Hs. split; [done|]. split; [done|].
    destruct (negb _); [|reflexivity].
    apply round_to_zero. unfold Qdiv. ring.
  - unfold get_engine in E. destruct g as [engine0|]; [by simplify_eq | done].
Qed.

End WithFiles.

Lemma spat_status_is_idle_witness :
  let fs := fun _ : string =>
              Some [row "0" "INT_0" "GREEN" "40"; row "40" "INT_0" "YELLOW" "5"] in
  let g := (get_spat_timeline parse_decimal "sample_spat.csv" fs None).1 in
  served parse_decimal "sample_spat.csv" fs g ∧
  match (get_spat_status parse_decimal "sample_spat.csv" fs g).2 with
  | Ok snap =>
      Snapshot.time_s snap = 0 ∧ Snapshot.states snap = ∅ ∧ Snapshot.progress snap == 0
  | Raise _ => g = None
  end.
Proof.
  intros fs g.
  assert (Hg : served parse_decimal "sample_spat.csv" fs g).
  { apply served_timeline, served_start. }
  split; [exact Hg|].
  exact (spat_status_is_idle parse_decimal "sample_spat.csv" fs g Hg).
Defined.

End app_facts.

(** ** The mock simulation *)

Section mock_facts.

Import Nx NxRun Routing RoutingRun RouteCheck MockSumo MockRun.

Lemma int_fraction (b : Z) :
  (0 ≤ b)%Z →
  (0 ≤ Py.int (inject_Z b * 0.45))%Z ∧ (100 * Py.int (inject_Z b * 0.45) ≤ 45 * b)%Z.
Proof.
  intros Hb. rewrite Zle_Qle in Hb. change (inject_Z 0) with 0 in Hb.
  assert (Hx : 0 <= inject_Z b * 0.45) by lra.
  rewrite (int_floor _ Hx).
  pose proof (Qfloor_le (inject_Z b * 0.45)) as Hf.
  split.
  - change 0%Z with (Qfloor 0). by apply Qfloor_resp_le.
  - rewrite Zle_Qle, !inject_Z_mult.
    change (inject_Z 100) with 100. change (inject_Z 45) with 45. lra.
Qed.

Section WithMath.

Variable sin : Q → Q.
Variable pi : Q.
Variable randint : nat → Z.

(** One pass of the loop body: what it writes for the node. *)
Lemma node_step_queues (timestamp : Q) (sim : Dual) (k : nat) (n : string) (rc : Z * Z) :
  parse_id n = Ok rc →
  ∃ bs os b o,
    node_step sin pi randint timestamp (sim, k) n =
      Ok ({| baseline := {| signals := <[n := bs]> (signals (baseline sim));
                            queues := <[n := b]> (queues (baseline sim)) |};
             optimized := {| signals := <[n := os]> (signals (optimized sim));
                             queues := <[n := o]> (queues (optimized sim)) |} |},
          S k) ∧
    queue_pair (Some b) (Some o).
Proof.
  intros Hp. unfold node_step, queue_pair. rewrite Hp. cbn [mbind res_bind]. destruct rc as [r c].
  eexists _, _, _, _. split; [reflexivity|].
  match goal with
  | |- context [Py.int (inject_Z ?B * 0.45)] =>
      destruct (int_fraction B) as [H0 H1]; [lia|]
  end.
  lia.
Qed.

Lemma sim_loop (timestamp : Q) (ns : list string) (acc : Dual * nat) :
  (∀ n, n ∈ ns → ∃ rc, parse_id n = Ok rc) →
  queues_bounded acc.1 →
  ∃ acc',
    for_each ns (node_step sin pi randint timestamp) acc = Ok acc' ∧
    queues_bounded acc'.1 ∧
    dom (queues (optimized acc'.1)) = dom (queues (optimized acc.1)) ∪ list_to_set ns.
Proof.
  revert acc. induction ns as [|n ns IH]; intros [sim k] Hparse Hinv.
  - exists (sim, k). split; [done|]. split; [done|]. simpl. by rewrite union_empty_r_L.
  - destruct (Hparse n ltac:(left)) as [rc Hrc].
    destruct (node_step_queues timestamp sim k n rc Hrc)
      as (bs & os & b & o & Hstep & Hpair).
    cbn [for_each]. rewrite Hstep. cbn [mbind res_bind].
    match goal with
    | |- ∃ acc', for_each ns _ ?a = _ ∧ _ =>
        destruct (IH a) as (acc' & Hrun & Hinv' & Hdom)
    end.
    { intros m Hm. apply Hparse. by right. }
    { intros m. cbn [fst optimized baseline queues].
      destruct (decide (m = n)) as [->|Hne].
      - by rewrite !lookup_insert_eq.
      - rewrite !lookup_insert_ne by done. apply Hinv. }
    exists acc'. split; [done|]. split; [done|].
    rewrite Hdom. cbn [fst optimized queues]. rewrite dom_insert_L, list_to_set_cons.
    by rewrite (union_comm_L {[n]} (dom _)), (assoc_L (∪)).
Qed.

(** The simulation over a graph whose node ids all read as "R-C". *)
Lemma simulate_bounded (G : Graph string) (timestamp : Q) :
  (∀ n, n ∈ node_ids G → ∃ rc, parse_id n = Ok rc) →
  ∃ sim,
    simulate sin pi randint G timestamp = Ok sim ∧
    queues_bounded sim ∧
    dom (queues (optimized sim)) = list_to_set (node_ids G).
Proof.
  intros Hparse. unfold simulate.
  destruct (sim_loop timestamp (node_ids G)
              ({| baseline := no_scenario; optimized := no_scenario |}, 0%nat) Hparse)
    as ([sim k] & Hrun & Hinv & Hdom).
  { intros n. simpl. by rewrite !lookup_empty. }
  exists sim. rewrite Hrun. split; [done|]. split; [done|].
  cbn [fst optimized queues no_scenario] in Hdom.
  by rewrite Hdom, dom_empty_L, union_empty_l_L.
Qed.

Lemma city_ids_parse (n : string) :
  n ∈ node_ids CITY_GRAPH → ∃ rc, parse_id n = Ok rc.
Proof.
  assert (Hall : forallb (fun n : string =>
                   match parse_id n with Ok _ => true | Raise _ => false end)
                 (node_ids CITY_GRAPH) = true).
  { vm_cast_no_check (eq_refl true). }
  rewrite forallb_forall in Hall. intros Hn. apply list_elem_of_In, Hall in Hn.
  destruct (parse_id n) as [rc|]; [by exists rc | done].
Qed.

#[local] Opaque CITY_GRAPH.

(** X21. Whatever the time, the sine and the random draws,
    [generate_dual_simulation_data] returns queues for exactly the nodes
    of the city grid, and at every node the optimized queue is at least 0
    and at most 45 % of the baseline queue. *)
Theorem mock_queues_bounded (timestamp : Q) :
  ∃ sim,
    generate_dual_simulation_data sin pi randint timestamp = Ok sim ∧
    queues_bounded sim ∧
    dom (queues (optimized sim)) = list_to_set (node_ids CITY_GRAPH).
Proof. apply simulate_bounded. exact city_ids_parse. Qed.


End WithMath.


End mock_facts.

(** ** What the map and the dashboard are sent *)

Section export_facts.

Import Nx NxRun Routing RoutingRun RouteCheck GridRun Topology MockSumo MockRun LiveData.

#[local] Opaque CITY_GRAPH.

Lemma collect_total {A B : Type} (f : A → res B) (g : A → B) (l : list A) :
  (∀ x, x ∈ l → f x = Ok (g x)) → collect f l = Ok (g <$> l).
Proof.
  induction l as [|x l IH]; intros Hf; [done|].
  simpl. rewrite (Hf x) by left. simpl. rewrite IH; [done|].
  intros y Hy. apply Hf. by right.
Qed.

(** X23. On the graph [generate_city_grid] returns, for every number of
    rows and columns, the export of [get_graph_topology] never raises
    [KeyError]: it lists one node entry per cell, with the id, the
    position and the name of the node, and one edge entry per edge that
    [G.edges()] reports, each with the distance 500.  For 7 rows and 8
    columns this is what [get_graph_topology] returns. *)
Theorem graph_topology_of_grid (rows cols : nat) :
  ∃ G ns es,
    generate_city_grid rows cols = Ok G ∧
    topology_of G = Ok (ns, es) ∧
    ns = (fun rc => {| id := node_id rc;
                       lat := 23.0300 + inject_Z rc.1 * 0.0045;
                       lon := 72.5400 + inject_Z rc.2 * 0.0045;
                       name := "Intersection " +:+ node_id rc |}) <$> coords rows cols ∧
    (fun e => (source e, target e)) <$> es = edges G ∧
    Forall (fun e => distance e = 500) es ∧
    (rows = 7%nat → cols = 8%nat → get_graph_topology = Ok (ns, es)).
Proof.
  set (G := foldl set_road (labelled_grid rows cols) (edges (labelled_grid rows cols))).
  pose proof (generate_city_grid_run rows cols) as Hrun. fold G in Hrun.
  assert (Hnodes : nodes G = (fun rc => (node_id rc, node_data rc)) <$> coords rows cols).
  { unfold G. by rewrite foldl_keeps_nodes. }
  assert (Hns : collect node_entry (nodes G) =
                Ok ((fun rc => {| id := node_id rc;
                                  lat := 23.0300 + inject_Z rc.1 * 0.0045;
                                  lon := 72.5400 + inject_Z rc.2 * 0.0045;
                                  name := "Intersection " +:+ node_id rc |})
                      <$> coords rows cols)).
  { rewrite Hnodes. rewrite (collect_total node_entry
      (fun nd => {| id := nd.1;
                    lat := default 0 (fst <$> pos nd.2);
                    lon := default 0 (snd <$> pos nd.2);
                    name := default EmptyString (Nx.name nd.2) |})).
    - by rewrite <- list_fmap_compose.
    - intros nd (rc & -> & _)%list_elem_of_fmap. done. }
  assert (Hes : collect edge_entry (edges_data G) =
                Ok ((fun x => {| source := x.1.1; target := x.1.2; distance := 500 |})
                      <$> edges_data G)).
  { apply collect_total. intros x Hx.
    apply edges_from_adj, adj_link in Hx as (l & Hl & _ & Hd).
    pose proof (generated_links_road rows cols) as Hroad. fold G in Hroad.
    rewrite Forall_forall in Hroad. specialize (Hroad l Hl).
    unfold edge_entry. rewrite <- Hd, Hroad. done. }
  eexists G, _, _. split; [exact Hrun|]. split.
  { unfold topology_of. rewrite Hns, Hes. reflexivity. }
  split; [done|]. split; [|split].
  - unfold edges. rewrite <- list_fmap_compose. apply list_fmap_ext.
    intros i [[u v] data] _. done.
  - apply Forall_fmap, Forall_forall. by intros x _.
  - intros -> ->. unfold get_graph_topology.
    assert (CITY_GRAPH = G) as ->.
    { pose proof city_graph_generated as Hcity. rewrite Hrun in Hcity.
      exact (eq_sym (f_equal (fun r => match r with Ok g => g | Raise _ => G end) Hcity)). }
    unfold topology_of. rewrite Hns, Hes. reflexivity.
Qed.

(** *** The comparison of the live data *)

Lemma total_insert (m : gmap string Z) (n : string) (x : Z) :
  m !! n = None → total (<[n := x]> m) = (total m + x)%Z.
Proof.
  intros Hn. unfold total. rewrite map_fold_insert_L; [done| |done].
  intros. lia.
Qed.

Lemma total_bounded (m1 m2 : gmap string Z) :
  (∀ n, queue_pair (m1 !! n) (m2 !! n)) →
  (0 ≤ total m2)%Z ∧ (100 * total m2 ≤ 45 * total m1)%Z.
Proof.
  revert m2. induction m1 as [|n b m1 Hn IH] using map_ind; intros m2 Hpair.
  - assert (m2 = ∅) as ->.
    { apply map_empty. intros n. specialize (Hpair n). rewrite lookup_empty in Hpair.
      by destruct (m2 !! n). }
    done.
  - pose proof (Hpair n) as Hb. rewrite lookup_insert_eq in Hb.
    destruct (m2 !! n) as [o|] eqn:Eo; [|done]. simpl in Hb.
    destruct (IH (delete n m2)) as [H0 H1].
    { intros k. destruct (decide (k = n)) as [->|Hne].
      - by rewrite Hn, lookup_delete_eq.
      - rewrite lookup_delete_ne by done. specialize (Hpair k).
        by rewrite lookup_insert_ne in Hpair. }
    rewrite <- (insert_delete_id m2 n o Eo).
    rewrite !total_insert by (done || apply lookup_delete_eq). lia.
Qed.

Lemma round_to_within (x : Q) (a b : Z) :
  inject_Z a <= x → x <= inject_Z b →
  inject_Z a <= Py.round_to x 1 ∧ Py.round_to x 1 <= inject_Z b.
Proof.
  intros Ha Hb. unfold Py.round_to.
  change (inject_Z (10 ^ Z.of_nat 1)) with 10.
  destruct (round_between (x * 10) (a * 10) (b * 10)) as [Hl Hu].
  { rewrite inject_Z_mult. change (inject_Z 10) with 10. lra. }
  { rewrite inject_Z_mult. change (inject_Z 10) with 10. lra. }
  rewrite Zle_Qle, inject_Z_mult in Hl, Hu. change (inject_Z 10) with 10 in Hl, Hu.
  split.
  - apply Qle_shift_div_l; lra.
  - apply Qle_shift_div_r; lra.
Qed.

(** X24. In mock mode the comparison sent with the live data shows the
    built-in margin: the optimized total queue is between 0 and the
    baseline total, and the queue reduction reported is between 55 % and
    100 % whenever the baseline total is positive; when it is 0 both
    totals are 0 and the reduction reported is 0. *)
Theorem live_comparison_margin (sin : Q → Q) (pi : Q) (randint : nat → Z) (timestamp : Q) :
  ∃ sim,
    generate_dual_simulation_data sin pi randint timestamp = Ok sim ∧
    let c := comparison sim in
    (0 ≤ optimized_queue c ≤ baseline_queue c)%Z ∧
    ((0 < baseline_queue c)%Z →
     55 <= queue_reduction_pct c ∧ queue_reduction_pct c <= 100) ∧
    (baseline_queue c = 0%Z → optimized_queue c = 0%Z ∧ queue_reduction_pct c == 0).
Proof.
  destruct (simulate_bounded sin pi randint CITY_GRAPH timestamp city_ids_parse)
    as (sim & Hsim & Hinv & _).
  exists sim. split; [exact Hsim|].
  destruct (total_bounded _ _ Hinv) as [H0 H1].
  unfold comparison. cbn [optimized_queue baseline_queue queue_reduction_pct].
  set (b := total (queues (baseline sim))) in *.
  set (o := total (queues (optimized sim))) in *.
  split; [lia|]. split.
  - intros Hb. rewrite (proj2 (Z.ltb_lt 0 b) Hb).
    assert (HB : 0 < inject_Z b) by (by rewrite Zlt_Qlt in Hb).
    assert (HO : 0 <= inject_Z o) by (by rewrite Zle_Qle in H0).
    assert (HOB : 100 * inject_Z o <= 45 * inject_Z b).
    { rewrite Zle_Qle, !inject_Z_mult in H1. exact H1. }
    unfold Z.sub. rewrite inject_Z_plus, inject_Z_opp.
    apply (round_to_within _ 55 100).
    + change (inject_Z 55) with 55.
      assert (0.55 <= (inject_Z b + - inject_Z o) / inject_Z b)
        by (apply Qle_shift_div_l; lra).
      lra.
    + change (inject_Z 100) with 100.
      assert ((inject_Z b + - inject_Z o) / inject_Z b <= 1)
        by (apply Qle_shift_div_r; lra).
      lra.
  - intros Hb. rewrite Hb in *. split; [lia|]. reflexivity.
Qed.

(** *** Snapping a position to the grid *)


Section Snap.

Variable sqrt : Q → Q.
Hypothesis sqrt_increasing : ∀ x y, 0 <= x → x < y → sqrt x < sqrt y.

Variables lat lon : Q.




End Snap.




End export_facts.
